(** * ViteMap: a shallow embedding of the compression engine

    The definitions below follow the C source of ViteMap (vite.h, vite.c):
    the 256-bit bucket constants, the two start-up tables, the AVX
    primitives the codec is written with, and the four entry points
    [vitemap_create], [vitemap_compress],
    [vitemap_extract_decompressed_sizes] and [vitemap_decompress]; after
    them come the two programs that call the library (cli.c,
    benchmarking.c).

    Conventions.
    - A byte is a [Byte.byte]; a buffer is a [list byte]; a pointer into a
      buffer is an offset of type [nat].
    - A [uint8_t], [uint32_t], [uint64_t] or [size_t] value is a [Z] with
      its wrap-around written out ([u32], [u64]; [byte.of_Z] wraps to 8
      bits).
    - A [__m256i] is its four 64-bit lanes, lane 0 first; a [__m512i] is
      used only as 64 bytes.  Loads and stores are little-endian, as on
      the only target of the code (x86-64 with AVX-512).
    - A load or store outside the buffer it addresses is undefined
      behaviour in C; here it yields [None], and so does every function
      that performs one. *)

From Stdlib Require Import ZArith List Lia Bool Arith Sorted.
From coqutil Require Import Byte Word.LittleEndianList.
Import ListNotations.
Local Open Scope Z_scope.

(** ** Constants of vite.h *)

Definition BUCKET_SIZE : Z := 256.
Definition BUCKET_SIZE_U8 : Z := 32.
Definition BUCKET_SIZE_U64 : nat := 4.

(** ** Machine integers *)

Definition u32 (z : Z) : Z := z mod 2 ^ 32.
Definition u64 (z : Z) : Z := z mod 2 ^ 64.

(** ** Memory *)

Definition buffer := list byte.

Notation "x <- a ;; b" :=
  (match a with Some x => b | None => None end)
  (right associativity, at level 60).
Notation "' p <- a ;; b" :=
  (match a with Some p => b | None => None end)
  (right associativity, at level 60, p pattern).

Definition load (m : buffer) (off len : nat) : option (list byte) :=
  if (off + len <=? length m)%nat then Some (firstn len (skipn off m))
  else None.

Definition store (m : buffer) (off : nat) (bs : list byte) : option buffer :=
  if (off + length bs <=? length m)%nat
  then Some (firstn off m ++ bs ++ skipn (off + length bs) m)
  else None.

(** Reading a [uint64_t] and writing or reading a [uint32_t] through a
    cast pointer. *)
Definition load_u64 (m : buffer) (off : nat) : option Z :=
  bs <- load m off 8 ;; Some (le_combine bs).

Definition store_u32 (m : buffer) (off : nat) (v : Z) : option buffer :=
  store m off (le_split 4 v).

Definition load_u32 (m : buffer) (off : nat) : option Z :=
  bs <- load m off 4 ;; Some (le_combine bs).

(** [memcpy(dst, src, n)] between two distinct buffers. *)
Definition memcpy (dst : buffer) (d : nat) (src : buffer) (s : nat) (n : nat)
  : option buffer :=
  bs <- load src s n ;; store dst d bs.

(** ** Vector values *)

Definition m256 := list Z.
Definition m512 := list byte.

Fixpoint lanes_of_bytes (n : nat) (bs : list byte) : list Z :=
  match n with
  | O => []
  | S n' => le_combine (firstn 8 bs) :: lanes_of_bytes n' (skipn 8 bs)
  end.

Definition bytes_of_lanes (v : list Z) : list byte :=
  flat_map (le_split 8) v.

Definition mm256_loadu_si256 (m : buffer) (off : nat) : option m256 :=
  bs <- load m off 32 ;; Some (lanes_of_bytes 4 bs).

Definition mm256_storeu_si256 (m : buffer) (off : nat) (v : m256)
  : option buffer :=
  store m off (bytes_of_lanes v).

Definition mm256_setzero_si256 : m256 := [0; 0; 0; 0].

(** [_mm256_set1_epi8((char)0xFF)]: every byte of every lane is 0xFF. *)
Definition mm256_set1_epi8 (b : Z) : m256 :=
  let lane := le_combine (repeat (byte.of_Z b) 8) in [lane; lane; lane; lane].

Fixpoint lanewise (f : Z -> Z -> Z) (a b : list Z) : list Z :=
  match a, b with
  | x :: a', y :: b' => f x y :: lanewise f a' b'
  | _, _ => []
  end.

Definition mm256_or_si256 (a b : m256) : m256 := lanewise Z.lor a b.
Definition mm256_xor_si256 (a b : m256) : m256 := lanewise Z.lxor a b.

(** [_mm_popcnt_u64]: the number of set bits among bits 0..63. *)
Definition mm_popcnt_u64 (x : Z) : Z :=
  Z.of_nat (length (filter (fun i => Z.testbit x (Z.of_nat i)) (seq 0 64))).

Definition mm256_popcnt_epi64 (v : m256) : m256 := map mm_popcnt_u64 v.

(** 128-bit halves, as two 64-bit lanes. *)
Definition mm256_castsi256_si128 (v : m256) : list Z := firstn 2 v.
Definition mm256_extracti128_si256_1 (v : m256) : list Z := skipn 2 v.
Definition mm_add_epi64 (a b : list Z) : list Z :=
  lanewise (fun x y => u64 (x + y)) a b.
(** [_mm_shuffle_epi32(v, _MM_SHUFFLE(1, 0, 3, 2))] swaps the two 64-bit
    halves of a 128-bit value. *)
Definition mm_shuffle_epi32_1032 (v : list Z) : list Z :=
  match v with
  | [lo; hi] => [hi; lo]
  | _ => v
  end.
Definition mm_cvtsi128_si64 (v : list Z) : Z := hd 0 v.

(** [_mm512_maskz_compress_epi8(k, a)]: the bytes of [a] whose mask bit is
    set, packed at the low end, the rest of the 64 bytes zeroed. *)
Fixpoint compress_select (k : Z) (i : Z) (a : list byte) : list byte :=
  match a with
  | [] => []
  | x :: a' =>
      if Z.testbit k i then x :: compress_select k (i + 1) a'
      else compress_select k (i + 1) a'
  end.

Definition mm512_maskz_compress_epi8 (k : Z) (a : m512) : m512 :=
  let sel := compress_select k 0 a in
  sel ++ repeat Byte.x00 (64 - length sel).

Definition mm512_loadu_si512 (m : buffer) (off : nat) : option m512 :=
  load m off 64.

Definition mm512_storeu_epi8 (m : buffer) (off : nat) (v : m512)
  : option buffer :=
  store m off v.

(** ** The two tables filled at start-up *)

(** [init_bit_lookup]: row [i] has the single bit [i % 64] of lane
    [i / 64]. *)
Fixpoint set_lane (v : list Z) (k : nat) (x : Z) : list Z :=
  match v, k with
  | [], _ => []
  | _ :: v', O => x :: v'
  | y :: v', S k' => y :: set_lane v' k' x
  end.

Definition bit_lookup_row (i : nat) : m256 :=
  let chunk := (i / 64)%nat in
  let bit := (i mod 64)%nat in
  set_lane [0; 0; 0; 0] chunk (Z.shiftl 1 (Z.of_nat bit)).

Definition bit_lookup : list m256 :=
  map bit_lookup_row (seq 0 (Z.to_nat BUCKET_SIZE)).

Definition bit_lookup_at (b : byte) : m256 :=
  nth (Z.to_nat (byte.unsigned b)) bit_lookup mm256_setzero_si256.

(** [init_indices]: [indices[i] = i]. *)
Definition indices : buffer :=
  map (fun i => byte.of_Z (Z.of_nat i)) (seq 0 (Z.to_nat BUCKET_SIZE)).

(** ** Bit primitives *)

Definition popcount_256 (m : buffer) (ptr : nat) : option Z :=
  vec <- mm256_loadu_si256 m ptr ;;
  let popcnt := mm256_popcnt_epi64 vec in
  let sum := mm_add_epi64 (mm256_castsi256_si128 popcnt)
                          (mm256_extracti128_si256_1 popcnt) in
  let sum := mm_add_epi64 sum (mm_shuffle_epi32_1032 sum) in
  Some (mm_cvtsi128_si64 sum).

(** The loop of [extract_and_compact_256], [n] lanes still to do.  Every
    round stores a full 64 bytes at [dst] and advances [dst] by the lane's
    popcount only. *)
Fixpoint extract_and_compact_loop (n : nat) (srcbuf : buffer) (src : nat)
    (moving_indices : nat) (dstbuf : buffer) (dst : nat) : option buffer :=
  match n with
  | O => Some dstbuf
  | S n' =>
      indices_vector <- mm512_loadu_si512 indices moving_indices ;;
      lane <- load_u64 srcbuf src ;;
      let compact := mm512_maskz_compress_epi8 lane indices_vector in
      dstbuf' <- mm512_storeu_epi8 dstbuf dst compact ;;
      extract_and_compact_loop n' srcbuf (src + 8) (moving_indices + 64)
        dstbuf' (dst + Z.to_nat (mm_popcnt_u64 lane))
  end.

Definition extract_and_compact_256 (srcbuf : buffer) (src : nat)
    (dstbuf : buffer) (dst : nat) : option buffer :=
  extract_and_compact_loop BUCKET_SIZE_U64 srcbuf src 0 dstbuf dst.

(** The two loops of [expand_and_scatter_256]: four lookups a round while
    [i + 4 <= bucket_size], then one a round while [i < bucket_size].  The
    fuel bounds the number of rounds; [bucket_size] rounds are never
    exceeded because [i] grows every round. *)
Definition lookup_src (srcbuf : buffer) (src i : nat) : option m256 :=
  bs <- load srcbuf (src + i) 1 ;;
  Some (bit_lookup_at (hd Byte.x00 bs)).

Fixpoint scatter_unrolled (fuel : nat) (srcbuf : buffer) (src : nat)
    (bucket_size : nat) (i : nat) (result : m256) : option (nat * m256) :=
  if (i + 4 <=? bucket_size)%nat then
    match fuel with
    | O => None
    | S fuel' =>
        lookup1 <- lookup_src srcbuf src i ;;
        lookup2 <- lookup_src srcbuf src (i + 1) ;;
        lookup3 <- lookup_src srcbuf src (i + 2) ;;
        lookup4 <- lookup_src srcbuf src (i + 3) ;;
        let result := mm256_or_si256 result lookup1 in
        let result := mm256_or_si256 result lookup2 in
        let result := mm256_or_si256 result lookup3 in
        let result := mm256_or_si256 result lookup4 in
        scatter_unrolled fuel' srcbuf src bucket_size (i + 4) result
    end
  else Some (i, result).

Fixpoint scatter_tail (fuel : nat) (srcbuf : buffer) (src : nat)
    (bucket_size : nat) (i : nat) (result : m256) : option m256 :=
  if (i <? bucket_size)%nat then
    match fuel with
    | O => None
    | S fuel' =>
        lookup <- lookup_src srcbuf src i ;;
        scatter_tail fuel' srcbuf src bucket_size (i + 1)
          (mm256_or_si256 result lookup)
    end
  else Some result.

Definition expand_and_scatter_256 (srcbuf : buffer) (src : nat)
    (bucket_size : nat) (dstbuf : buffer) (dst : nat) : option buffer :=
  let result := mm256_setzero_si256 in
  '(i, result) <- scatter_unrolled bucket_size srcbuf src bucket_size 0 result ;;
  result <- scatter_tail bucket_size srcbuf src bucket_size i result ;;
  mm256_storeu_si256 dstbuf dst result.

Definition invert_256 (srcbuf : buffer) (src : nat) (dstbuf : buffer)
    (dst : nat) : option buffer :=
  src_vec <- mm256_loadu_si256 srcbuf src ;;
  let all_ones := mm256_set1_epi8 0xFF in
  let inverted := mm256_xor_si256 src_vec all_ones in
  mm256_storeu_si256 dstbuf dst inverted.

(** ** The compression context *)

Record Vitemap := mkVitemap {
  input : buffer;
  max_size : Z;
  num_buckets : Z;
  output : buffer;
  max_compressed_size : Z;
  output_size : Z;
  helper_bucket : buffer
}.

Definition calloc (n : Z) : buffer := repeat Byte.x00 (Z.to_nat n).

(** [vitemap_create], on the path where the four [calloc]s succeed (the
    other path returns NULL and builds no context).  All arithmetic is on
    [uint32_t]. *)
Definition vitemap_create (size : Z) : Vitemap :=
  let full_buckets := size / BUCKET_SIZE_U8 in
  let remaining_bytes := size mod BUCKET_SIZE_U8 in
  let num_buckets :=
    u32 (full_buckets + (if 0 <? remaining_bytes then 1 else 0)) in
  let max_size := u32 (num_buckets * BUCKET_SIZE_U8) in
  let max_compressed_size :=
    u32 (u32 (4 + max_size) + u32 (num_buckets * BUCKET_SIZE_U8)) in
  {| input := calloc max_size;
     max_size := max_size;
     num_buckets := num_buckets;
     output := calloc (u32 (max_compressed_size + BUCKET_SIZE_U8));
     max_compressed_size := max_compressed_size;
     output_size := 0;
     helper_bucket := calloc BUCKET_SIZE_U8 |}.

(** ** Compression *)

(** The local state of the loop of [vitemap_compress]: the two moving
    pointers, the running size, and the two buffers the loop writes. *)
Record cstate := mkCstate {
  c_input : nat;
  c_output : nat;
  c_result_size : Z;
  c_outbuf : buffer;
  c_helper : buffer
}.

Definition compress_bucket (inbuf : buffer) (st : cstate) : option cstate :=
  let inp := c_input st in
  let out := c_output st in
  count <- popcount_256 inbuf inp ;;
  if count <? BUCKET_SIZE_U8 then
    ob <- store (c_outbuf st) out [byte.of_Z count] ;;
    let out := (out + 1)%nat in
    ob <- extract_and_compact_256 inbuf inp ob out ;;
    let out := (out + Z.to_nat count)%nat in
    Some {| c_input := inp + Z.to_nat BUCKET_SIZE_U8;
            c_output := out;
            c_result_size := u32 (c_result_size st + (1 + count));
            c_outbuf := ob;
            c_helper := c_helper st |}
  else if u64 (BUCKET_SIZE - count) <? BUCKET_SIZE_U8 then
    ob <- store (c_outbuf st) out
            [byte.of_Z (Z.lor (u64 (BUCKET_SIZE - count)) 64)] ;;
    let out := (out + 1)%nat in
    hb <- invert_256 inbuf inp (c_helper st) 0 ;;
    ob <- extract_and_compact_256 hb 0 ob out ;;
    let out := (out + Z.to_nat (u64 (BUCKET_SIZE - count)))%nat in
    Some {| c_input := inp + Z.to_nat BUCKET_SIZE_U8;
            c_output := out;
            c_result_size :=
              u32 (c_result_size st + u64 (1 + BUCKET_SIZE - count));
            c_outbuf := ob;
            c_helper := hb |}
  else
    ob <- store (c_outbuf st) out [byte.of_Z (Z.lor BUCKET_SIZE_U8 128)] ;;
    let out := (out + 1)%nat in
    ob <- memcpy ob out inbuf inp (Z.to_nat BUCKET_SIZE_U8) ;;
    let out := (out + Z.to_nat BUCKET_SIZE_U8)%nat in
    Some {| c_input := inp + Z.to_nat BUCKET_SIZE_U8;
            c_output := out;
            c_result_size := u32 (c_result_size st + (1 + BUCKET_SIZE_U8));
            c_outbuf := ob;
            c_helper := c_helper st |}.

Fixpoint compress_loop (n : nat) (inbuf : buffer) (st : cstate)
  : option cstate :=
  match n with
  | O => Some st
  | S n' => st' <- compress_bucket inbuf st ;; compress_loop n' inbuf st'
  end.

Definition vitemap_compress (vm : Vitemap) (size : Z)
  : option (Vitemap * Z) :=
  ob <- store_u32 (output vm) 0 size ;;
  st <- compress_loop (Z.to_nat (num_buckets vm)) (input vm)
          {| c_input := 0; c_output := 4; c_result_size := u32 (0 + 4);
             c_outbuf := ob; c_helper := helper_bucket vm |} ;;
  Some ({| input := input vm;
           max_size := max_size vm;
           num_buckets := num_buckets vm;
           output := c_outbuf st;
           max_compressed_size := max_compressed_size vm;
           output_size := output_size vm;
           helper_bucket := c_helper st |},
        c_result_size st).

(** ** Decompression *)

Definition vitemap_extract_decompressed_sizes (compressed_data : buffer)
  : option (Z * Z) :=
  data_size <- load_u32 compressed_data 0 ;;
  let full_buckets := data_size / BUCKET_SIZE_U8 in
  let remaining_bytes := data_size mod BUCKET_SIZE_U8 in
  let buffer_size :=
    u32 (u32 (full_buckets + (if 0 <? remaining_bytes then 1 else 0))
         * BUCKET_SIZE_U8) in
  Some (data_size, buffer_size).

(** One round of the [while] loop of [vitemap_decompress], from the header
    byte at [pos]: the new input cursor and the output buffer.  Category 3
    has no [case] in the [switch]: nothing is written. *)
Definition decompress_bucket (data : buffer) (pos : nat) (out : buffer)
    (opos : nat) : option (nat * buffer) :=
  hb <- load data pos 1 ;;
  let h := byte.unsigned (hd Byte.x00 hb) in
  let bucket_size := Z.to_nat (Z.land h 0x3F) in
  let category := Z.shiftr h 6 in
  let pos := (pos + 1)%nat in
  out' <- match category with
          | 0 => expand_and_scatter_256 data pos bucket_size out opos
          | 1 =>
              out1 <- expand_and_scatter_256 data pos bucket_size out opos ;;
              src_vec <- mm256_loadu_si256 out1 opos ;;
              let all_ones := mm256_set1_epi8 0xFF in
              let inverted := mm256_xor_si256 src_vec all_ones in
              mm256_storeu_si256 out1 opos inverted
          | 2 => memcpy out opos data pos (Z.to_nat BUCKET_SIZE_U8)
          | _ => Some out
          end ;;
  Some ((pos + bucket_size)%nat, out').

(** The [while (compressed_data < end)] loop.  Every round moves the input
    cursor forward by at least one byte, so [end_ - pos] rounds suffice;
    the fuel is that bound. *)
Fixpoint decompress_loop (fuel : nat) (data : buffer) (end_ : nat)
    (pos : nat) (out : buffer) (opos : nat) : option (buffer * nat) :=
  if (pos <? end_)%nat then
    match fuel with
    | O => None
    | S fuel' =>
        '(pos', out') <- decompress_bucket data pos out opos ;;
        decompress_loop fuel' data end_ pos' out'
          (opos + Z.to_nat BUCKET_SIZE_U8)
    end
  else Some (out, opos).

(** [vitemap_decompress]: the output buffer after the call, and how far
    the output pointer moved (the number of bytes written). *)
Definition vitemap_decompress (compressed_data : buffer) (size : Z)
    (decompressed_data : buffer) : option (buffer * nat) :=
  let end_ := Z.to_nat size in
  decompress_loop end_ compressed_data end_ 4 decompressed_data 0.

(** ** The callers

    The command-line tool (cli.c) and the benchmark (benchmarking.c) are
    the two programs of the repository that chain the entry points.  What
    they print and the time they measure is left out; what is kept is the
    data they move, the files they write, the clock arithmetic and the
    exit status. *)

(** What a caller sees of its environment: the files [fopen(path, "rb")]
    finds, with their contents; whether [fopen(path, "wb")] succeeds;
    what [malloc(n)] returns, NULL ([None]) or a block whose contents are
    indeterminate; whether the allocations of [vitemap_create] succeed.
    A path is the bytes of a C string. *)
Record world := mkWorld {
  fopen_rb : list byte -> option (list byte);
  fopen_wb : list byte -> bool;
  malloc : Z -> option buffer;
  calloc_ok : bool
}.

(** The context after the caller's [memcpy] into [vm->input] left
    [inbuf] there. *)
Definition with_input (vm : Vitemap) (inbuf : buffer) : Vitemap :=
  {| input := inbuf;
     max_size := max_size vm;
     num_buckets := num_buckets vm;
     output := output vm;
     max_compressed_size := max_compressed_size vm;
     output_size := output_size vm;
     helper_bucket := helper_bucket vm |}.

(** *** benchmarking.c *)

Record timespec := mkTimespec { tv_sec : Z; tv_nsec : Z }.

(** A result of type [long]: signed arithmetic that leaves 64 bits is
    undefined. *)
Definition long (z : Z) : option Z :=
  if ((- 2 ^ 63 <=? z) && (z <? 2 ^ 63))%bool then Some z else None.

Definition calculate_time_diff (start end_ : timespec) : option Z :=
  seconds <- long (tv_sec end_ - tv_sec start) ;;
  nanoseconds <- long (tv_nsec end_ - tv_nsec start) ;;
  '(seconds, nanoseconds) <-
    (if nanoseconds <? 0 then
       seconds <- long (seconds - 1) ;;
       nanoseconds <- long (nanoseconds + 1000000000) ;;
       Some (seconds, nanoseconds)
     else Some (seconds, nanoseconds)) ;;
  product <- long (seconds * 1000000000) ;;
  long (product + nanoseconds).

Fixpoint bytes_eqb (a b : list byte) : bool :=
  match a, b with
  | [], [] => true
  | x :: a', y :: b' => Byte.eqb x y && bytes_eqb a' b'
  | _, _ => false
  end.

(** [memcmp(a, b, n) == 0]. *)
Definition memcmp_eq (a b : buffer) (n : nat) : option bool :=
  x <- load a 0 n ;; y <- load b 0 n ;; Some (bytes_eqb x y).

(** The field [length] of the source is [length_] here. *)
Record BenchmarkResult := mkBenchmarkResult {
  length_ : Z;
  comp_time : Z;
  decomp_time : Z;
  verified : Z
}.

(** [benchmark_vitemap(bitmap, size)]; [t0] to [t3] are the four clock
    readings, in the order the calls to [clock_gettime] are made.  The
    function checks neither the context nor the block it allocates, so a
    NULL is dereferenced. *)
Definition benchmark_vitemap (w : world) (t0 t1 t2 t3 : timespec)
    (bitmap : buffer) (size : Z) : option BenchmarkResult :=
  vm <- (if calloc_ok w then Some (vitemap_create (u32 size)) else None) ;;
  inbuf <- memcpy (input vm) 0 bitmap 0 (Z.to_nat size) ;;
  '(vm, output_length) <- vitemap_compress (with_input vm inbuf) (u32 size) ;;
  comp_time <- calculate_time_diff t0 t1 ;;
  '(data_size, buffer_size) <-
    vitemap_extract_decompressed_sizes (output vm) ;;
  decompressed <- malloc w buffer_size ;;
  '(decompressed, _) <-
    vitemap_decompress (output vm) output_length decompressed ;;
  decomp_time <- calculate_time_diff t2 t3 ;;
  same <- memcmp_eq bitmap decompressed (Z.to_nat size) ;;
  Some {| length_ := output_length;
          comp_time := comp_time;
          decomp_time := decomp_time;
          verified := if (same && (data_size =? size))%bool then 1 else 0 |}.

(** *** cli.c *)

(** What a run of [main] leaves: the exit status, and the file it wrote
    (path and contents), if any. *)
Definition outcome := (Z * option (list byte * list byte))%type.

(** [main(argc, argv)], with [argc] the length of [argv].  The mode is
    the first character of [argv[3]]: 0x63 is the letter c, 0x64 the
    letter d. *)
Definition main (w : world) (argv : list (list byte)) : option outcome :=
  if negb (length argv =? 4)%nat then Some (1, None) else
  let input_file := nth 1 argv [] in
  let output_file := nth 2 argv [] in
  let mode := hd Byte.x00 (nth 3 argv []) in
  match fopen_rb w input_file with
  | None => Some (1, None)
  | Some contents =>
      let input_size := Z.of_nat (length contents) in
      match malloc w input_size with
      | None => Some (1, None)
      | Some block =>
          input_buffer <- store block 0 contents ;;
          if Byte.eqb mode Byte.x63 then
            if calloc_ok w then
              let vm := vitemap_create (u32 input_size) in
              inbuf <- memcpy (input vm) 0 input_buffer 0
                         (Z.to_nat input_size) ;;
              '(vm, compressed_size) <-
                vitemap_compress (with_input vm inbuf) (u32 input_size) ;;
              if fopen_wb w output_file then
                data <- load (output vm) 0 (Z.to_nat compressed_size) ;;
                Some (0, Some (output_file, data))
              else Some (1, None)
            else Some (1, None)
          else if Byte.eqb mode Byte.x64 then
            '(decompressed_size, buffer_size) <-
              vitemap_extract_decompressed_sizes input_buffer ;;
            match malloc w buffer_size with
            | None => Some (1, None)
            | Some output_buffer =>
                '(output_buffer, _) <-
                  vitemap_decompress input_buffer (u32 input_size)
                    output_buffer ;;
                if fopen_wb w output_file then
                  data <- load output_buffer 0
                            (Z.to_nat decompressed_size) ;;
                  Some (0, Some (output_file, data))
                else Some (1, None)
            end
          else Some (1, None)
      end
  end.

(** ** Vocabulary of the wire format

    The definitions from here on are not code of the library.  They say
    what the format description says: the bits of a chunk, the positions
    of its set and clear bits, the header byte, and the record the
    classifier rule prescribes for a chunk ([chunk_record]).  The
    theorems compare them with what the functions above compute. *)

(** Bit [j] of a byte, least significant bit first. *)
Definition byte_bit (b : byte) (j : nat) : bool :=
  Z.testbit (byte.unsigned b) (Z.of_nat j).

(** Bit [p] of a chunk: bit [p mod 8] of byte [p / 8]. *)
Definition chunk_bit (c : list byte) (p : nat) : bool :=
  byte_bit (nth (p / 8) c Byte.x00) (p mod 8).

Definition position_byte (p : nat) : byte := byte.of_Z (Z.of_nat p).

Definition set_positions (c : list byte) : list byte :=
  map position_byte (filter (chunk_bit c) (seq 0 256)).

Definition clear_positions (c : list byte) : list byte :=
  map position_byte (filter (fun p => negb (chunk_bit c p)) (seq 0 256)).

Definition popcount (c : list byte) : Z :=
  Z.of_nat (length (filter (chunk_bit c) (seq 0 256))).

(** Lane [l] of a chunk, as [extract_and_compact_256] and the 256-bit
    loads read it. *)
Definition chunk_lane (c : list byte) (l : nat) : Z :=
  le_combine (firstn 8 (skipn (8 * l) c)).

(** The positions of the set bits of lane [l] of a chunk, and of [n]
    lanes from lane [l] on. *)
Definition lane_positions (c : list byte) (l : nat) : list byte :=
  map (fun j => position_byte (j + 64 * l))
      (filter (fun j => chunk_bit c (j + 64 * l)) (seq 0 64)).

Definition positions_from (c : list byte) (l n : nat) : list byte :=
  flat_map (lane_positions c) (seq l n).

(** What [invert_256] computes from a chunk. *)
Definition inverted_chunk (c : list byte) : list byte :=
  bytes_of_lanes (mm256_xor_si256 (lanes_of_bytes 4 c) (mm256_set1_epi8 0xFF)).

(** What the two loops of [expand_and_scatter_256] accumulate: the rows
    of the lookup table for the bytes of a payload, or-ed into [r]. *)
Definition scatter_lanes (P : list byte) (r : m256) : m256 :=
  fold_left (fun r p => mm256_or_si256 r (bit_lookup_at p)) P r.

(** The position a payload byte stands for. *)
Definition position_of (p : byte) : nat := Z.to_nat (byte.unsigned p).

(** A header byte: the category in bits 7..6, the length in bits 5..0. *)
Definition header_byte (category len : Z) : byte :=
  byte.of_Z (category * 64 + len).

Definition header_category (h : byte) : Z := Z.shiftr (byte.unsigned h) 6.
Definition header_length (h : byte) : Z := Z.land (byte.unsigned h) 0x3F.

(** The record of one chunk, by the classifier rule. *)
Definition chunk_record (c : list byte) : list byte :=
  let n := popcount c in
  if n <? 32 then header_byte 0 n :: set_positions c
  else if 224 <? n then header_byte 1 (256 - n) :: clear_positions c
  else header_byte 2 32 :: c.

(** The bitwise complement of a byte and of a chunk. *)
Definition byte_not (b : byte) : byte := byte.xor b Byte.xff.
Definition chunk_not (c : list byte) : list byte := map byte_not c.

(** The 32-byte chunks of an input buffer, in order. *)
Fixpoint chunks_of (n : nat) (bs : list byte) : list (list byte) :=
  match n with
  | O => []
  | S n' => firstn 32 bs :: chunks_of n' (skipn 32 bs)
  end.

(** [ceil(n / 32)]. *)
Definition ceil32 (n : Z) : Z := (n + 31) / 32.

(** The chunks of the input buffer of a context, and their records, in
    input order. *)
Definition chunks_in (vm : Vitemap) : list (list byte) :=
  chunks_of (Z.to_nat (num_buckets vm)) (input vm).

Definition records_of (vm : Vitemap) : list byte :=
  flat_map chunk_record (chunks_in vm).

(** A context with the capacities [vitemap_create] gives it, none of
    which wrapped around in 32 bits; the contents of the buffers are
    arbitrary. *)
Record wf_vitemap (vm : Vitemap) : Prop := {
  wf_num_buckets : 0 <= num_buckets vm;
  wf_no_wrap : 64 * num_buckets vm + 36 < 2 ^ 32;
  wf_max_size : max_size vm = 32 * num_buckets vm;
  wf_max_compressed_size : max_compressed_size vm = 4 + 64 * num_buckets vm;
  wf_input : Z.of_nat (length (input vm)) = max_size vm;
  wf_output : Z.of_nat (length (output vm)) = max_compressed_size vm + 32;
  wf_helper : length (helper_bucket vm) = 32%nat
}.

(** The caller's [memcpy(vm->input, data, n)], with [n] the length of
    [data]: a copy of more bytes than the input buffer has runs over its
    end. *)
Definition write_input (vm : Vitemap) (data : list byte) : option Vitemap :=
  inbuf <- store (input vm) 0 data ;; Some (with_input vm inbuf).

(** A context created for [upper_size] bytes and filled with [data], for
    data that fits the input buffer; for longer data, which the copy
    cannot take, it is the context as created. *)
Definition context_with (upper_size : Z) (data : list byte) : Vitemap :=
  let vm := vitemap_create upper_size in
  match write_input vm data with
  | Some vm' => vm'
  | None => vm
  end.

(** The valid prefix of the output buffer after a compression. *)
Definition frame_of (r : Vitemap * Z) : list byte :=
  firstn (Z.to_nat (snd r)) (output (fst r)).

(** The frame a compression leaves, if it runs without a fault. *)
Definition compressed_frame (vm : Vitemap) (size : Z) : option (list byte) :=
  r <- vitemap_compress vm size ;; Some (frame_of r).

Definition bytes (l : list Z) : list byte := map byte.of_Z l.

(** Seen from outside the 32-byte slot at [opos], [out'] is [out]: same
    length, same bytes before the slot and after it. *)
Definition slot_written (out out' : buffer) (opos : nat) : Prop :=
  length out' = length out /\
  firstn opos out' = firstn opos out /\
  skipn (opos + 32) out' = skipn (opos + 32) out.

(** The offsets of the header bytes that the loop of
    [vitemap_decompress] meets from [pos] up to [end_]: a header at [p]
    sends the cursor to [p + 1] plus its length field, whatever its
    category. *)
Fixpoint record_offsets (fuel : nat) (data : buffer) (end_ pos : nat)
  : list nat :=
  if (pos <? end_)%nat then
    match fuel with
    | O => []
    | S fuel' =>
        pos :: record_offsets fuel' data end_
                 (pos + 1 + Z.to_nat (header_length (nth pos data Byte.x00)))
    end
  else [].

(** The record with its header at [p] and the slot of the output buffer at
    [opos] lie inside their buffers, [room] being the length of the output
    buffer: the header byte; the payload of a record of category 0 or 1,
    as many bytes as the length field says; the 32 bytes after the header
    of a record of category 2; the 32 bytes of the slot, unless the
    category is 3. *)
Definition record_fits (data : buffer) (p : nat) (room opos : nat) : Prop :=
  let h := nth p data Byte.x00 in
  (p < length data)%nat /\
  (header_category h < 2 ->
   (p + 1 + Z.to_nat (header_length h) <= length data)%nat) /\
  (header_category h = 2 -> (p + 1 + 32 <= length data)%nat) /\
  (header_category h < 3 -> (opos + 32 <= room)%nat).

(** What the record with its header at [p] makes of a slot that held
    [old]: [new] has exactly the bits its payload names (category 0), or
    exactly the others (category 1), or is the 32 bytes after the header
    (category 2), or is [old] (category 3). *)
Definition record_decoded (data : buffer) (p : nat) (old new : list byte)
  : Prop :=
  let h := nth p data Byte.x00 in
  let payload := firstn (Z.to_nat (header_length h)) (skipn (p + 1) data) in
  (header_category h = 0 ->
   length new = 32%nat /\
   forall q, chunk_bit new q =
             existsb (fun b => (position_of b =? q)%nat) payload) /\
  (header_category h = 1 ->
   length new = 32%nat /\
   forall q, (q < 256)%nat ->
     chunk_bit new q =
     negb (existsb (fun b => (position_of b =? q)%nat) payload)) /\
  (header_category h = 2 ->
   length new = 32%nat /\ new = firstn 32 (skipn (p + 1) data)) /\
  (header_category h = 3 -> new = old).

(** A clock reading as a number of nanoseconds, and the readings the
    clock gives: normalised, with the seconds in 32 bits. *)
Definition total_ns (t : timespec) : Z := tv_sec t * 1000000000 + tv_nsec t.

Definition valid_timespec (t : timespec) : Prop :=
  0 <= tv_sec t < 2 ^ 32 /\ 0 <= tv_nsec t < 1000000000.

(** No allocation fails, and [malloc(n)] gives a block of [n] bytes. *)
Definition plenty_of_memory (w : world) : Prop :=
  calloc_ok w = true /\
  forall n, exists block,
    malloc w n = Some block /\ length block = Z.to_nat n.

(** ** Sample inputs *)

(** The input of scenario S3: 32 bytes, all zero except byte 15 = 0x10. *)
Definition single_bit_input : list byte :=
  repeat Byte.x00 15 ++ [Byte.x10] ++ repeat Byte.x00 16.

(** A 100-byte input with a dense chunk, a raw chunk and two sparse
    chunks, in a context created for it. *)
Definition sample_input : list byte :=
  repeat Byte.xff 32 ++ repeat Byte.xaa 32 ++ single_bit_input ++
  [Byte.x01; Byte.x02; Byte.x03; Byte.x04].

Definition sample_context : Vitemap := context_with 100 sample_input.

(** A world in which the file named a holds the sample input, every path
    can be written, and [malloc] hands out blocks filled with 0xAA. *)
Definition sample_world : world :=
  {| fopen_rb := fun path =>
       if bytes_eqb path [Byte.x61] then Some sample_input else None;
     fopen_wb := fun _ => true;
     malloc := fun n => Some (repeat Byte.xaa (Z.to_nat n));
     calloc_ok := true |}.

(** The same world with a two-byte file at every path. *)
Definition short_file_world : world :=
  {| fopen_rb := fun _ => Some [Byte.x01; Byte.x02];
     fopen_wb := fun _ => true;
     malloc := fun n => Some (repeat Byte.xaa (Z.to_nat n));
     calloc_ok := true |}.

(** The sample context after one compression: its output buffer and its
    scratch bucket hold what that compression left there. *)
Definition used_sample_context : Vitemap :=
  match vitemap_compress sample_context 100 with
  | Some (vm', _) => vm'
  | None => sample_context
  end.

(** * Properties *)

(** ** Loads and stores *)

Lemma load_Some m off len :
  (off + len <= length m)%nat ->
  load m off len = Some (firstn len (skipn off m)).
Proof.
  intros H. unfold load.
  destruct (Nat.leb_spec (off + len) (length m)); [reflexivity | lia].
Qed.

Lemma load_inv m off len bs :
  load m off len = Some bs ->
  (off + len <= length m)%nat /\ bs = firstn len (skipn off m) /\
  length bs = len.
Proof.
  unfold load. destruct (Nat.leb_spec (off + len) (length m)); [|discriminate].
  intros [= <-]. repeat split; try assumption.
  rewrite length_firstn, length_skipn. lia.
Qed.

Lemma store_Some m off bs :
  (off + length bs <= length m)%nat ->
  store m off bs = Some (firstn off m ++ bs ++ skipn (off + length bs) m).
Proof.
  intros H. unfold store.
  destruct (Nat.leb_spec (off + length bs) (length m)); [reflexivity | lia].
Qed.

Lemma store_inv m off bs m' :
  store m off bs = Some m' ->
  (off + length bs <= length m)%nat /\
  m' = firstn off m ++ bs ++ skipn (off + length bs) m.
Proof.
  unfold store.
  destruct (Nat.leb_spec (off + length bs) (length m)); [|discriminate].
  intros [= <-]. split; [assumption | reflexivity].
Qed.

Lemma store_length m off bs m' :
  store m off bs = Some m' -> length m' = length m.
Proof.
  intros H. apply store_inv in H as [Hle ->].
  rewrite !length_app, length_firstn, length_skipn. lia.
Qed.

Lemma store_firstn m off bs m' k :
  store m off bs = Some m' -> (k <= length bs)%nat ->
  firstn (off + k) m' = firstn off m ++ firstn k bs.
Proof.
  intros H Hk. apply store_inv in H as [Hle ->].
  assert (Hl : length (firstn off m) = off) by (rewrite length_firstn; lia).
  rewrite firstn_app, Hl, firstn_all2 by lia.
  replace (off + k - off)%nat with k by lia.
  f_equal. rewrite firstn_app.
  replace (k - length bs)%nat with 0%nat by lia.
  rewrite firstn_O, app_nil_r. reflexivity.
Qed.

Lemma store_firstn_before m off bs m' k :
  store m off bs = Some m' -> (k <= off)%nat ->
  firstn k m' = firstn k m.
Proof.
  intros H Hk. apply store_inv in H as [Hle ->].
  assert (Hl : length (firstn off m) = off) by (rewrite length_firstn; lia).
  rewrite firstn_app, Hl.
  replace (k - off)%nat with 0%nat by lia.
  rewrite firstn_O, app_nil_r, firstn_firstn.
  f_equal. lia.
Qed.

Lemma store_skipn m off bs m' :
  store m off bs = Some m' ->
  skipn (off + length bs) m' = skipn (off + length bs) m.
Proof.
  intros H. apply store_inv in H as [Hle ->].
  assert (Hl : length (firstn off m) = off) by (rewrite length_firstn; lia).
  rewrite app_assoc, skipn_app.
  rewrite skipn_all2 by (rewrite length_app; lia).
  rewrite length_app, Hl.
  replace (off + length bs - (off + length bs))%nat with 0%nat by lia.
  reflexivity.
Qed.

(** What a prefix of the buffer holds is what a load inside it reads. *)
Lemma load_in_prefix m n off len :
  (off + len <= n)%nat -> (n <= length m)%nat ->
  load m off len = load (firstn n m) off len.
Proof.
  intros H1 H2.
  rewrite !load_Some by (rewrite ?length_firstn; lia).
  f_equal. rewrite skipn_firstn_comm, firstn_firstn.
  f_equal. lia.
Qed.

Lemma load_prefix_inv m n off len bs :
  load (firstn n m) off len = Some bs -> load m off len = Some bs.
Proof.
  intros H. apply load_inv in H as (Hle & -> & _).
  rewrite length_firstn in Hle.
  rewrite load_Some by lia. f_equal.
  rewrite skipn_firstn_comm, firstn_firstn. f_equal. lia.
Qed.

Lemma load_app_skip (F r rest : list byte) :
  load (F ++ r ++ rest) (length F) (length r) = Some r.
Proof.
  rewrite load_Some by (rewrite !length_app; lia).
  rewrite skipn_app, skipn_all, Nat.sub_diag. cbn [app skipn].
  rewrite firstn_app, firstn_all, Nat.sub_diag, firstn_O, app_nil_r.
  reflexivity.
Qed.

(** ** Bits of bytes, lanes and chunks *)

Lemma byte_testbit_high (b : byte) (i : Z) :
  8 <= i -> Z.testbit (byte.unsigned b) i = false.
Proof.
  intros Hi. pose proof (byte.unsigned_range b) as [H0 H1].
  destruct (Z.eq_dec (byte.unsigned b) 0) as [->|Hne].
  - apply Z.testbit_0_l.
  - apply Z.bits_above_log2; [lia|].
    apply Z.log2_lt_pow2; [lia|].
    apply Z.lt_le_trans with (2 ^ 8); [assumption|].
    apply Z.pow_le_mono_r; lia.
Qed.

(** Bit [i] of a little-endian word is bit [i mod 8] of its byte
    [i / 8]. *)
Lemma le_combine_testbit (bs : list byte) (i : nat) :
  Z.testbit (le_combine bs) (Z.of_nat i) =
  byte_bit (nth (i / 8) bs Byte.x00) (i mod 8).
Proof.
  revert i. induction bs as [|h t IH]; intros i.
  - rewrite le_combine_nil, Z.testbit_0_l.
    destruct (i / 8)%nat; cbn [nth]; unfold byte_bit;
      change (byte.unsigned Byte.x00) with 0; now rewrite Z.testbit_0_l.
  - change (le_combine (h :: t))
      with (Z.lor (byte.unsigned h) (Z.shiftl (le_combine t) 8)).
    rewrite Z.lor_spec.
    destruct (Nat.lt_ge_cases i 8) as [Hlt|Hge].
    + rewrite Z.shiftl_spec_low by lia.
      rewrite Nat.div_small, Nat.mod_small by assumption.
      rewrite orb_false_r. reflexivity.
    + rewrite byte_testbit_high by lia.
      rewrite Z.shiftl_spec by lia.
      replace (Z.of_nat i - 8) with (Z.of_nat (i - 8)) by lia.
      rewrite IH. cbn [orb].
      replace i with ((i - 8) + 1 * 8)%nat at 3 4 by lia.
      rewrite Nat.div_add, Nat.Div0.mod_add by lia.
      replace ((i - 8) / 8 + 1)%nat with (S ((i - 8) / 8)) by lia.
      reflexivity.
Qed.

Lemma le_combine_testbit_high (bs : list byte) (i : Z) :
  8 * Z.of_nat (length bs) <= i -> Z.testbit (le_combine bs) i = false.
Proof.
  intros Hi. pose proof (le_combine_bound bs) as [H0 H1].
  destruct (Z.eq_dec (le_combine bs) 0) as [->|Hne].
  - apply Z.testbit_0_l.
  - apply Z.bits_above_log2; [lia|].
    apply Z.log2_lt_pow2; [lia|].
    apply Z.lt_le_trans with (2 ^ (8 * Z.of_nat (length bs))); [assumption|].
    apply Z.pow_le_mono_r; lia.
Qed.

Lemma nth_firstn_skipn {A} (c : list A) (a b i : nat) (d : A) :
  (i < b)%nat -> nth i (firstn b (skipn a c)) d = nth (a + i) c d.
Proof.
  intros Hi. rewrite nth_firstn.
  destruct (Nat.ltb_spec i b); [|lia].
  apply nth_skipn.
Qed.

Lemma chunk_lane_testbit (c : list byte) (l i : nat) :
  (i < 64)%nat ->
  Z.testbit (chunk_lane c l) (Z.of_nat i) = chunk_bit c (i + 64 * l).
Proof.
  intros Hi. unfold chunk_lane, chunk_bit.
  rewrite le_combine_testbit.
  assert (Hd : (i / 8 < 8)%nat) by (apply Nat.Div0.div_lt_upper_bound; lia).
  rewrite nth_firstn_skipn by assumption.
  replace (i + 64 * l)%nat with (i + (8 * l) * 8)%nat by lia.
  rewrite Nat.div_add, Nat.Div0.mod_add by lia.
  f_equal. f_equal. lia.
Qed.

Lemma chunk_lane_range (c : list byte) (l : nat) :
  0 <= chunk_lane c l < 2 ^ 64.
Proof.
  unfold chunk_lane.
  pose proof (le_combine_bound (firstn 8 (skipn (8 * l) c))) as [H0 H1].
  split; [assumption|].
  eapply Z.lt_le_trans; [exact H1|].
  apply Z.pow_le_mono_r; [lia|].
  pose proof (firstn_le_length 8 (skipn (8 * l) c)). lia.
Qed.

Lemma chunk_lane_testbit_high (c : list byte) (l : nat) (i : Z) :
  64 <= i -> Z.testbit (chunk_lane c l) i = false.
Proof.
  intros Hi. unfold chunk_lane. apply le_combine_testbit_high.
  pose proof (firstn_le_length 8 (skipn (8 * l) c)). lia.
Qed.

Lemma lanes_of_bytes_4 (c : list byte) :
  lanes_of_bytes 4 c =
  [chunk_lane c 0; chunk_lane c 1; chunk_lane c 2; chunk_lane c 3].
Proof.
  unfold chunk_lane. cbn [lanes_of_bytes].
  rewrite !skipn_skipn. reflexivity.
Qed.

Lemma bytes_of_lanes_of_bytes (n : nat) (c : list byte) :
  length c = (8 * n)%nat -> bytes_of_lanes (lanes_of_bytes n c) = c.
Proof.
  revert c. induction n as [|n IH]; intros c Hc.
  - destruct c; [reflexivity | discriminate].
  - cbn [lanes_of_bytes bytes_of_lanes flat_map].
    fold (bytes_of_lanes (lanes_of_bytes n (skipn 8 c))).
    rewrite IH by (rewrite length_skipn; lia).
    rewrite split_le_combine' by (rewrite length_firstn; lia).
    apply firstn_skipn.
Qed.

Lemma lanes_of_bytes_of_lanes (v : list Z) :
  Forall (fun x => 0 <= x < 2 ^ 64) v ->
  lanes_of_bytes (length v) (bytes_of_lanes v) = v.
Proof.
  induction 1 as [|x v Hx Hv IH]; [reflexivity|].
  cbn [length lanes_of_bytes bytes_of_lanes flat_map].
  fold (bytes_of_lanes v).
  rewrite firstn_app, firstn_all2 by (rewrite length_le_split; lia).
  rewrite length_le_split, Nat.sub_diag, firstn_O, app_nil_r.
  rewrite skipn_app, skipn_all2 by (rewrite length_le_split; lia).
  rewrite length_le_split, Nat.sub_diag. cbn [skipn app].
  rewrite IH, le_combine_split. f_equal.
  apply Z.mod_small. change (Z.of_nat 8 * 8) with 64. assumption.
Qed.

Lemma bytes_of_lanes_length (v : list Z) :
  length (bytes_of_lanes v) = (8 * length v)%nat.
Proof.
  induction v as [|x v IH]; [reflexivity|].
  cbn [bytes_of_lanes flat_map length]. fold (bytes_of_lanes v).
  rewrite length_app, length_le_split, IH. lia.
Qed.

(** ** Positions, lane by lane *)

Lemma map_filter_seq_shift {A} (g : nat -> A) (P : nat -> bool) d n s :
  map g (filter P (seq (s + d) n)) =
  map (fun j => g (j + d)%nat) (filter (fun j => P (j + d)%nat) (seq s n)).
Proof.
  revert s. induction n as [|n IH]; intros s; [reflexivity|].
  cbn [seq filter]. change (S (s + d)) with (S s + d)%nat.
  destruct (P (s + d)%nat); cbn [map]; rewrite IH; reflexivity.
Qed.

Lemma seq_256_lanes :
  seq 0 256 =
  seq (0 + 64 * 0) 64 ++ seq (0 + 64 * 1) 64 ++
  seq (0 + 64 * 2) 64 ++ seq (0 + 64 * 3) 64.
Proof. reflexivity. Qed.

Lemma map_filter_256 {A} (g : nat -> A) (P : nat -> bool) :
  map g (filter P (seq 0 256)) =
  flat_map (fun l => map (fun j => g (j + 64 * l)%nat)
                       (filter (fun j => P (j + 64 * l)%nat) (seq 0 64)))
           (seq 0 4).
Proof.
  rewrite seq_256_lanes, !filter_app, !map_app.
  rewrite !map_filter_seq_shift. cbn [seq flat_map].
  rewrite app_nil_r. reflexivity.
Qed.

Lemma set_positions_lanes (c : list byte) :
  set_positions c = positions_from c 0 4.
Proof. unfold set_positions. apply map_filter_256. Qed.

Lemma lane_positions_length (c : list byte) (l : nat) :
  Z.of_nat (length (lane_positions c l)) = mm_popcnt_u64 (chunk_lane c l).
Proof.
  unfold lane_positions, mm_popcnt_u64. rewrite length_map.
  do 2 f_equal. apply filter_ext_in. intros j Hj.
  apply in_seq in Hj. symmetry. apply chunk_lane_testbit. lia.
Qed.

Lemma lane_positions_le (c : list byte) (l : nat) :
  (length (lane_positions c l) <= 64)%nat.
Proof.
  unfold lane_positions. rewrite length_map.
  etransitivity; [apply filter_length_le|]. now rewrite length_seq.
Qed.

Lemma popcount_lanes (c : list byte) :
  popcount c = Z.of_nat (length (positions_from c 0 4)).
Proof.
  unfold popcount. rewrite <- set_positions_lanes.
  unfold set_positions. now rewrite length_map.
Qed.

Lemma set_positions_length (c : list byte) :
  Z.of_nat (length (set_positions c)) = popcount c.
Proof. unfold popcount, set_positions. now rewrite length_map. Qed.

Lemma popcount_range (c : list byte) : 0 <= popcount c <= 256.
Proof.
  unfold popcount.
  pose proof (filter_length_le (chunk_bit c) (seq 0 256)) as H.
  rewrite length_seq in H. lia.
Qed.

Lemma clear_positions_length (c : list byte) :
  Z.of_nat (length (clear_positions c)) = 256 - popcount c.
Proof.
  unfold popcount, clear_positions. rewrite length_map.
  pose proof (filter_length (chunk_bit c) (seq 0 256)) as H.
  rewrite length_seq in H. lia.
Qed.

(** ** Compaction of a lane, and inversion *)

Lemma compress_select_seq (g : nat -> byte) (k : Z) (n i : nat) :
  compress_select k (Z.of_nat i) (map g (seq i n)) =
  map g (filter (fun j => Z.testbit k (Z.of_nat j)) (seq i n)).
Proof.
  revert i. induction n as [|n IH]; intros i; [reflexivity|].
  cbn [seq map compress_select filter].
  replace (Z.of_nat i + 1) with (Z.of_nat (S i)) by lia.
  destruct (Z.testbit k (Z.of_nat i)); cbn [map]; rewrite IH; reflexivity.
Qed.

Lemma indices_lane (l : nat) :
  (l < 4)%nat ->
  mm512_loadu_si512 indices (64 * l) =
  Some (map (fun j => position_byte (j + 64 * l)) (seq 0 64)).
Proof.
  intros Hl.
  destruct l as [|[|[|[|l]]]]; [reflexivity .. | lia].
Qed.

Lemma compress_lane (c : list byte) (l : nat) :
  compress_select (chunk_lane c l) 0
    (map (fun j => position_byte (j + 64 * l)) (seq 0 64)) =
  lane_positions c l.
Proof.
  change 0 with (Z.of_nat 0). rewrite compress_select_seq.
  unfold lane_positions. f_equal. apply filter_ext_in. intros j Hj.
  apply in_seq in Hj. apply chunk_lane_testbit. lia.
Qed.

Lemma positions_from_S (c : list byte) (l n : nat) :
  positions_from c l (S n) = lane_positions c l ++ positions_from c (S l) n.
Proof. reflexivity. Qed.

Lemma chunk_bit_lane (c : list byte) (p : nat) :
  chunk_bit c p = Z.testbit (chunk_lane c (p / 64)) (Z.of_nat (p mod 64)).
Proof.
  rewrite chunk_lane_testbit by (apply Nat.mod_upper_bound; lia).
  f_equal. pose proof (Nat.div_mod_eq p 64). lia.
Qed.

Lemma all_ones_lanes :
  mm256_set1_epi8 0xFF = [Z.ones 64; Z.ones 64; Z.ones 64; Z.ones 64].
Proof. reflexivity. Qed.

Lemma lxor_ones_range (x : Z) :
  0 <= x < 2 ^ 64 -> 0 <= Z.lxor x (Z.ones 64) < 2 ^ 64.
Proof.
  intros [H0 H1].
  assert (Hn : 0 <= Z.lxor x (Z.ones 64)) by (apply Z.lxor_nonneg; cbn; lia).
  split; [assumption|].
  destruct (Z.eq_dec (Z.lxor x (Z.ones 64)) 0) as [->|Hne]; [reflexivity|].
  apply Z.log2_lt_pow2; [lia|].
  eapply Z.le_lt_trans; [apply Z.log2_lxor; cbn; lia|].
  apply Z.max_lub_lt.
  - destruct (Z.eq_dec x 0) as [->|Hx]; [reflexivity|].
    apply Z.log2_lt_pow2; lia.
  - reflexivity.
Qed.

Lemma inverted_chunk_length (c : list byte) : length (inverted_chunk c) = 32%nat.
Proof.
  unfold inverted_chunk. rewrite bytes_of_lanes_length, lanes_of_bytes_4.
  reflexivity.
Qed.

Lemma inverted_chunk_lanes (c : list byte) :
  lanes_of_bytes 4 (inverted_chunk c) =
  [Z.lxor (chunk_lane c 0) (Z.ones 64); Z.lxor (chunk_lane c 1) (Z.ones 64);
   Z.lxor (chunk_lane c 2) (Z.ones 64); Z.lxor (chunk_lane c 3) (Z.ones 64)].
Proof.
  unfold inverted_chunk. rewrite (lanes_of_bytes_4 c), all_ones_lanes.
  cbn [mm256_xor_si256 lanewise].
  apply (lanes_of_bytes_of_lanes [_; _; _; _]).
  repeat constructor; apply lxor_ones_range, chunk_lane_range.
Qed.

Lemma inverted_chunk_lane (c : list byte) (l : nat) :
  (l < 4)%nat ->
  chunk_lane (inverted_chunk c) l = Z.lxor (chunk_lane c l) (Z.ones 64).
Proof.
  intros Hl. pose proof (inverted_chunk_lanes c) as H.
  rewrite lanes_of_bytes_4 in H. injection H as H0 H1 H2 H3.
  destruct l as [|[|[|[|l]]]]; (assumption || lia).
Qed.

Lemma inverted_chunk_bit (c : list byte) (p : nat) :
  (p < 256)%nat -> chunk_bit (inverted_chunk c) p = negb (chunk_bit c p).
Proof.
  intros Hp. rewrite !chunk_bit_lane.
  assert (Hl : (p / 64 < 4)%nat) by (apply Nat.Div0.div_lt_upper_bound; lia).
  assert (Hi : (p mod 64 < 64)%nat) by (apply Nat.mod_upper_bound; lia).
  rewrite inverted_chunk_lane by assumption.
  rewrite Z.lxor_spec, Z.ones_spec_low by lia.
  apply xorb_true_r.
Qed.

Lemma inverted_chunk_positions (c : list byte) :
  set_positions (inverted_chunk c) = clear_positions c.
Proof.
  unfold set_positions, clear_positions. f_equal.
  apply filter_ext_in. intros p Hp. apply in_seq in Hp.
  apply inverted_chunk_bit. lia.
Qed.

(** ** The primitives on a chunk in memory *)

(** The chunk [c] lies at [src] in [srcbuf]. *)
Section ChunkAt.
Variable srcbuf : buffer.
Variable src : nat.
Variable c : list byte.
Hypothesis chunk_at : load srcbuf src 32 = Some c.

Lemma load_lane (l : nat) :
  (l < 4)%nat -> load_u64 srcbuf (src + 8 * l) = Some (chunk_lane c l).
Proof.
  intros Hl. pose proof (load_inv _ _ _ _ chunk_at) as (Hle & Hc & _).
  unfold load_u64. rewrite load_Some by lia.
  unfold chunk_lane. rewrite Hc. do 2 f_equal.
  rewrite skipn_firstn_comm, firstn_firstn, skipn_skipn.
  f_equal; [lia | f_equal; lia].
Qed.

(** [extract_and_compact_256] leaves what is before [dst] alone and puts
    the positions of the set bits right after it; the 64-byte stores need
    64 bytes of room past the last position. *)
Lemma extract_and_compact_loop_spec (n : nat) :
  forall l out dst,
    (l + n = 4)%nat ->
    (dst + length (positions_from c l n) + 64 <= length out)%nat ->
    exists out',
      extract_and_compact_loop n srcbuf (src + 8 * l) (64 * l) out dst
        = Some out' /\
      length out' = length out /\
      firstn (dst + length (positions_from c l n)) out'
        = firstn dst out ++ positions_from c l n.
Proof.
  induction n as [|n IH]; intros l out dst Hl Hroom.
  - exists out. cbn [extract_and_compact_loop positions_from seq flat_map length].
    rewrite Nat.add_0_r, app_nil_r. auto.
  - rewrite positions_from_S in *. rewrite length_app in Hroom.
    cbn [extract_and_compact_loop].
    rewrite indices_lane by lia.
    rewrite load_lane by lia.
    unfold mm512_maskz_compress_epi8. rewrite compress_lane.
    pose proof (lane_positions_le c l) as Hle.
    set (sel := lane_positions c l) in *.
    unfold mm512_storeu_epi8.
    assert (Hlen : length (sel ++ repeat Byte.x00 (64 - length sel)) = 64%nat)
      by (rewrite length_app, repeat_length; lia).
    destruct (store out dst (sel ++ repeat Byte.x00 (64 - length sel)))
      as [out1|] eqn:Hst.
    2:{ rewrite store_Some in Hst by lia. discriminate. }
    pose proof (store_length _ _ _ _ Hst) as Hl1.
    rewrite <- lane_positions_length. fold sel. rewrite Nat2Z.id.
    replace (src + 8 * l + 8)%nat with (src + 8 * S l)%nat by lia.
    replace (64 * l + 64)%nat with (64 * S l)%nat by lia.
    destruct (IH (S l) out1 (dst + length sel)%nat)
      as (out' & Hrun & Hlen' & Hpre); [lia | lia |].
    exists out'. split; [assumption|]. split; [lia|].
    rewrite length_app, Nat.add_assoc, Hpre.
    rewrite (store_firstn _ _ _ _ (length sel) Hst) by lia.
    rewrite firstn_app, firstn_all, Nat.sub_diag, firstn_O, app_nil_r.
    now rewrite app_assoc.
Qed.

Lemma extract_and_compact_256_spec (out : buffer) (dst : nat) :
  (dst + length (set_positions c) + 64 <= length out)%nat ->
  exists out',
    extract_and_compact_256 srcbuf src out dst = Some out' /\
    length out' = length out /\
    firstn (dst + length (set_positions c)) out'
      = firstn dst out ++ set_positions c.
Proof.
  intros Hroom. rewrite set_positions_lanes in *.
  unfold extract_and_compact_256, BUCKET_SIZE_U64.
  pose proof (extract_and_compact_loop_spec 4 0 out dst eq_refl Hroom) as H.
  replace (src + 8 * 0)%nat with src in H by lia. exact H.
Qed.

Lemma popcount_256_spec : popcount_256 srcbuf src = Some (popcount c).
Proof.
  unfold popcount_256, mm256_loadu_si256. rewrite chunk_at.
  rewrite lanes_of_bytes_4. f_equal.
  cbn [mm256_popcnt_epi64 map mm256_castsi256_si128 firstn
       mm256_extracti128_si256_1 skipn mm_add_epi64 lanewise
       mm_shuffle_epi32_1032 mm_cvtsi128_si64 hd].
  rewrite popcount_lanes. unfold positions_from. cbn [seq flat_map].
  rewrite app_nil_r, !length_app, !Nat2Z.inj_add.
  rewrite <- !lane_positions_length.
  pose proof (lane_positions_le c 0). pose proof (lane_positions_le c 1).
  pose proof (lane_positions_le c 2). pose proof (lane_positions_le c 3).
  unfold u64. change (2 ^ 64) with 18446744073709551616.
  repeat (rewrite Z.mod_small by
            (repeat (rewrite Z.mod_small by lia); lia)).
  lia.
Qed.

Lemma invert_256_spec (helper : buffer) :
  length helper = 32%nat ->
  invert_256 srcbuf src helper 0 = Some (inverted_chunk c).
Proof.
  intros Hh. unfold invert_256, mm256_loadu_si256. rewrite chunk_at.
  unfold mm256_storeu_si256. fold (inverted_chunk c).
  pose proof (inverted_chunk_length c) as Hl.
  rewrite store_Some by lia.
  rewrite Hl, firstn_O, skipn_all2 by lia.
  now rewrite app_nil_r.
Qed.
End ChunkAt.

(** ** One bucket of [vitemap_compress] *)

Lemma lor_64 (m : Z) : 0 <= m < 32 -> Z.lor m 64 = 1 * 64 + m.
Proof.
  intros Hm.
  assert (H : exists k, (k < 32)%nat /\ m = Z.of_nat k)
    by (exists (Z.to_nat m); lia).
  destruct H as (k & Hk & ->).
  do 32 (destruct k as [|k]; [reflexivity|]). lia.
Qed.

Lemma chunk_record_length (c : list byte) :
  length c = 32%nat -> (1 <= length (chunk_record c) <= 33)%nat.
Proof.
  intros Hc. unfold chunk_record.
  pose proof (set_positions_length c) as H1.
  pose proof (clear_positions_length c) as H2.
  pose proof (popcount_range c) as H3.
  revert H1 H2 H3.
  generalize (popcount c) (set_positions c) (clear_positions c).
  intros n sp cp H1 H2 H3.
  destruct (Z.ltb_spec n 32); [cbn [length]; lia|].
  destruct (Z.ltb_spec 224 n); cbn [length]; lia.
Qed.

Lemma store_byte_firstn m off b m' :
  store m off [b] = Some m' -> firstn (off + 1) m' = firstn off m ++ [b].
Proof. intros H. apply (store_firstn _ _ _ _ 1%nat H). cbn. lia. Qed.

Lemma load_whole (c : list byte) (n : nat) :
  length c = n -> load c 0 n = Some c.
Proof.
  intros <-. rewrite load_Some by lia. cbn [skipn].
  now rewrite firstn_all.
Qed.

Lemma compress_bucket_spec inbuf st c :
  load inbuf (c_input st) 32 = Some c ->
  (c_output st + 96 <= length (c_outbuf st))%nat ->
  length (c_helper st) = 32%nat ->
  exists st',
    compress_bucket inbuf st = Some st' /\
    c_input st' = (c_input st + 32)%nat /\
    c_output st' = (c_output st + length (chunk_record c))%nat /\
    c_result_size st' =
      u32 (c_result_size st + Z.of_nat (length (chunk_record c))) /\
    length (c_outbuf st') = length (c_outbuf st) /\
    firstn (c_output st') (c_outbuf st') =
      firstn (c_output st) (c_outbuf st) ++ chunk_record c /\
    length (c_helper st') = 32%nat.
Proof.
  intros Hc Hroom Hh. unfold compress_bucket, chunk_record.
  rewrite (popcount_256_spec _ _ _ Hc).
  rewrite (invert_256_spec _ _ c) by assumption.
  pose proof (popcount_range c) as Hn.
  pose proof (set_positions_length c) as Hset.
  pose proof (clear_positions_length c) as Hclr.
  pose proof (extract_and_compact_256_spec inbuf (c_input st) c Hc) as HexS.
  pose proof (extract_and_compact_256_spec (inverted_chunk c) 0
                (inverted_chunk c)
                (load_whole _ _ (inverted_chunk_length c))) as HexD.
  rewrite inverted_chunk_positions in HexD.
  pose proof (inverted_chunk_length c) as Hic.
  pose proof (load_inv _ _ _ _ Hc) as (_ & _ & Hlc).
  revert Hn Hset Hclr HexS HexD Hic.
  generalize (popcount c) (set_positions c) (clear_positions c)
             (inverted_chunk c).
  intros n sp cp ic Hn Hset Hclr HexS HexD Hic.
  unfold BUCKET_SIZE_U8, BUCKET_SIZE.
  destruct (Z.ltb_spec n 32) as [Hlt|Hge].
  - (* sparse *)
    change (byte.of_Z n) with (header_byte 0 n).
    destruct (store (c_outbuf st) (c_output st) [header_byte 0 n])
      as [ob1|] eqn:Hst1.
    2:{ rewrite store_Some in Hst1 by (cbn [length]; lia). discriminate. }
    pose proof (store_length _ _ _ _ Hst1) as Hl1.
    pose proof (store_byte_firstn _ _ _ _ Hst1) as Hf1.
    destruct (HexS ob1 (c_output st + 1)%nat) as (ob2 & Hrun & Hl2 & Hf2);
      [lia |].
    rewrite Hrun. eexists. split; [reflexivity|].
    cbn [c_input c_output c_result_size c_outbuf c_helper length].
    replace (Z.to_nat n) with (length sp) by lia.
    repeat split; try lia; try assumption.
    + f_equal. lia.
    + rewrite Hf2, Hf1, <- app_assoc. reflexivity.
  - assert (Hu : u64 (256 - n) = 256 - n)
      by (unfold u64; apply Z.mod_small; lia).
    rewrite Hu.
    destruct (Z.ltb_spec (256 - n) 32) as [Hd|Hr];
      destruct (Z.ltb_spec 224 n) as [Hd'|Hr']; try lia.
    + (* dense *)
      rewrite lor_64 by lia. fold (header_byte 1 (256 - n)).
      destruct (store (c_outbuf st) (c_output st)
                  [header_byte 1 (256 - n)]) as [ob1|] eqn:Hst1.
      2:{ rewrite store_Some in Hst1 by (cbn [length]; lia). discriminate. }
      pose proof (store_length _ _ _ _ Hst1) as Hl1.
      pose proof (store_byte_firstn _ _ _ _ Hst1) as Hf1.
      destruct (HexD ob1 (c_output st + 1)%nat) as (ob2 & Hrun & Hl2 & Hf2);
        [lia |].
      rewrite Hrun. eexists. split; [reflexivity|].
      cbn [c_input c_output c_result_size c_outbuf c_helper length].
      replace (Z.to_nat (256 - n)) with (length cp) by lia.
      repeat split; try lia; try assumption.
      * f_equal. unfold u64. rewrite Z.mod_small by lia. lia.
      * rewrite Hf2, Hf1, <- app_assoc. reflexivity.
    + (* raw *)
      change (byte.of_Z (Z.lor 32 128)) with (header_byte 2 32).
      destruct (store (c_outbuf st) (c_output st) [header_byte 2 32])
        as [ob1|] eqn:Hst1.
      2:{ rewrite store_Some in Hst1 by (cbn [length]; lia). discriminate. }
      pose proof (store_length _ _ _ _ Hst1) as Hl1.
      pose proof (store_byte_firstn _ _ _ _ Hst1) as Hf1.
      unfold memcpy. change (Z.to_nat 32) with 32%nat. rewrite Hc.
      destruct (store ob1 (c_output st + 1) c) as [ob2|] eqn:Hst2.
      2:{ rewrite store_Some in Hst2 by lia. discriminate. }
      pose proof (store_length _ _ _ _ Hst2) as Hl2.
      pose proof (store_firstn _ _ _ _ 32%nat Hst2) as Hf2.
      eexists. split; [reflexivity|].
      cbn [c_input c_output c_result_size c_outbuf c_helper length].
      rewrite Hlc.
      repeat split; try lia; try assumption.
      rewrite Hf2 by lia. rewrite Hf1, <- app_assoc.
      rewrite (@firstn_all2 _ 32 c) by lia. reflexivity.
Qed.

(** ** The loop of [vitemap_compress] and the frame it leaves *)

Lemma flat_map_length_le {A} (f : A -> list byte) (l : list A) (b : nat) :
  (forall x, In x l -> (length (f x) <= b)%nat) ->
  (length (flat_map f l) <= b * length l)%nat.
Proof.
  induction l as [|x l IH]; intros H; cbn [flat_map length]; [lia|].
  rewrite length_app.
  pose proof (H x (or_introl eq_refl)).
  assert ((length (flat_map f l) <= b * length l)%nat)
    by (apply IH; intros y Hy; apply H; now right).
  lia.
Qed.

Lemma u32_add_l (a b : Z) : u32 (u32 a + b) = u32 (a + b).
Proof. unfold u32. apply Z.add_mod_idemp_l. lia. Qed.

Lemma skipn_chunk (inbuf : list byte) (off : nat) :
  skipn 32 (skipn off inbuf) = skipn (off + 32) inbuf.
Proof. rewrite skipn_skipn. f_equal. lia. Qed.

Lemma compress_loop_spec (n : nat) :
  forall inbuf st r0,
    (c_input st + 32 * n <= length inbuf)%nat ->
    (n = 0%nat \/ c_output st + 33 * n + 63 <= length (c_outbuf st))%nat ->
    length (c_helper st) = 32%nat ->
    c_result_size st = u32 r0 ->
    let recs := flat_map chunk_record
                  (chunks_of n (skipn (c_input st) inbuf)) in
    exists st',
      compress_loop n inbuf st = Some st' /\
      length (c_outbuf st') = length (c_outbuf st) /\
      c_output st' = (c_output st + length recs)%nat /\
      (length recs <= 33 * n)%nat /\
      c_result_size st' = u32 (r0 + Z.of_nat (length recs)) /\
      firstn (c_output st') (c_outbuf st') =
        firstn (c_output st) (c_outbuf st) ++ recs /\
      length (c_helper st') = 32%nat.
Proof.
  induction n as [|n IH]; intros inbuf st r0 Hin Hroom Hh Hr recs.
  - exists st. subst recs. cbn [compress_loop chunks_of flat_map length].
    rewrite Nat.add_0_r, Z.add_0_r, app_nil_r.
    repeat split; try lia; try assumption.
  - subst recs. cbn [compress_loop chunks_of flat_map].
    set (c := firstn 32 (skipn (c_input st) inbuf)).
    assert (Hc : load inbuf (c_input st) 32 = Some c)
      by (apply load_Some; lia).
    pose proof (load_inv _ _ _ _ Hc) as (_ & _ & Hlc).
    pose proof (chunk_record_length c Hlc) as Hrl.
    destruct (compress_bucket_spec inbuf st c Hc)
      as (st1 & Hrun1 & Hi1 & Ho1 & Hr1 & Hl1 & Hf1 & Hh1);
      [lia | assumption |].
    rewrite Hrun1. rewrite skipn_chunk, <- Hi1.
    rewrite Hr, u32_add_l in Hr1.
    destruct (IH inbuf st1 _ ltac:(lia) ltac:(lia) Hh1 Hr1)
      as (st' & Hrun & Hl & Ho & Hle & Hrs & Hf & Hh').
    revert Hrl Ho1 Hr1 Hf1 Ho Hle Hrs Hf.
    generalize (chunk_record c)
      (flat_map chunk_record (chunks_of n (skipn (c_input st1) inbuf))).
    intros r rs Hrl Ho1 Hr1 Hf1 Ho Hle Hrs Hf.
    exists st'. rewrite length_app.
    repeat split; try lia; try assumption.
    + rewrite Hrs. f_equal. lia.
    + rewrite Hf, Hf1. now rewrite app_assoc.
Qed.

(** A well-formed context compresses without a fault, and the valid
    prefix of its output is the size prefix followed by the records of
    its chunks. *)
Lemma vitemap_compress_spec (vm : Vitemap) (size : Z) :
  wf_vitemap vm ->
  exists vm',
    vitemap_compress vm size =
      Some (vm', 4 + Z.of_nat (length (records_of vm))) /\
    frame_of (vm', 4 + Z.of_nat (length (records_of vm))) =
      le_split 4 size ++ records_of vm /\
    input vm' = input vm /\ max_size vm' = max_size vm /\
    num_buckets vm' = num_buckets vm /\
    max_compressed_size vm' = max_compressed_size vm /\
    output_size vm' = output_size vm /\
    length (output vm') = length (output vm) /\
    length (helper_bucket vm') = 32%nat /\
    (length (records_of vm) <= 33 * Z.to_nat (num_buckets vm))%nat.
Proof.
  intros [Hnb Hwrap Hms Hmcs Hin Hout Hh].
  unfold vitemap_compress, store_u32.
  destruct (store (output vm) 0 (le_split 4 size)) as [ob|] eqn:Hst.
  2:{ rewrite store_Some in Hst by (rewrite length_le_split; lia).
      discriminate. }
  pose proof (store_length _ _ _ _ Hst) as Hlob.
  pose proof (store_firstn _ _ _ _ 4%nat Hst) as Hfob.
  rewrite length_le_split in Hfob. specialize (Hfob (le_n _)).
  rewrite firstn_O in Hfob. cbn [app Nat.add] in Hfob.
  replace (firstn 4 (le_split 4 size)) with (le_split 4 size) in Hfob
    by (symmetry; apply firstn_all2; rewrite length_le_split; lia).
  set (st0 := {| c_input := 0; c_output := 4; c_result_size := u32 (0 + 4);
                 c_outbuf := ob; c_helper := helper_bucket vm |}).
  destruct (compress_loop_spec (Z.to_nat (num_buckets vm)) (input vm) st0 4)
    as (st' & Hrun & Hl & Ho & Hle & Hrs & Hf & Hh');
    [cbn; lia | cbn [st0 c_output c_outbuf]; lia | assumption | reflexivity |].
  cbn [st0 c_input c_output c_outbuf skipn] in *.
  fold (chunks_in vm) in *. fold (records_of vm) in *.
  rewrite Hrun. eexists. split; [|split].
  - rewrite Hrs. do 2 f_equal. unfold u32. apply Z.mod_small. lia.
  - unfold frame_of. cbn [fst snd output].
    replace (Z.to_nat (4 + Z.of_nat (length (records_of vm))))
      with (4 + length (records_of vm))%nat by lia.
    rewrite <- Ho, Hf, Hfob. reflexivity.
  - cbn [input max_size num_buckets max_compressed_size output_size output
         helper_bucket].
    repeat split; try lia; try assumption.
Qed.

(** ** The lookup table and the scatter primitive *)

Lemma position_of_lt (p : byte) : (position_of p < 256)%nat.
Proof.
  unfold position_of. pose proof (byte.unsigned_range p).
  change (2 ^ 8) with 256 in *. lia.
Qed.

Lemma position_of_byte (q : nat) :
  (q < 256)%nat -> position_of (position_byte q) = q.
Proof.
  intros Hq. unfold position_of, position_byte.
  rewrite byte.unsigned_of_Z. unfold byte.wrap.
  change (2 ^ 8) with 256. rewrite Z.mod_small by lia. lia.
Qed.

Lemma bit_lookup_at_row (p : byte) :
  bit_lookup_at p = bit_lookup_row (position_of p).
Proof.
  unfold bit_lookup_at, bit_lookup. fold (position_of p).
  pose proof (position_of_lt p) as Hp.
  change (Z.to_nat BUCKET_SIZE) with 256%nat.
  rewrite (nth_indep _ _ (bit_lookup_row 0))
    by (rewrite length_map, length_seq; assumption).
  rewrite map_nth, seq_nth by assumption. reflexivity.
Qed.

Lemma bit_lookup_row_length (n : nat) : length (bit_lookup_row n) = 4%nat.
Proof.
  unfold bit_lookup_row.
  destruct (n / 64)%nat as [|[|[|[|k]]]]; reflexivity.
Qed.

Lemma bit_lookup_row_testbit (n l i : nat) :
  (n < 256)%nat -> (l < 4)%nat ->
  Z.testbit (nth l (bit_lookup_row n) 0) (Z.of_nat i) =
  ((n / 64 =? l)%nat && (n mod 64 =? i)%nat)%bool.
Proof.
  intros Hn Hl. unfold bit_lookup_row.
  assert (Hd : (n / 64 < 4)%nat) by (apply Nat.Div0.div_lt_upper_bound; lia).
  assert (Hb : Z.testbit (Z.shiftl 1 (Z.of_nat (n mod 64))) (Z.of_nat i) =
               (n mod 64 =? i)%nat).
  { rewrite Z.shiftl_1_l, Z.pow2_bits_eqb by lia.
    destruct (Nat.eqb_spec (n mod 64) i); [apply Z.eqb_eq | apply Z.eqb_neq];
      lia. }
  generalize dependent (Z.shiftl 1 (Z.of_nat (n mod 64))). intros x Hb.
  destruct (n / 64)%nat as [|[|[|[|k]]]]; [| | | |lia];
    destruct l as [|[|[|[|l]]]]; try lia; cbn [set_lane nth Nat.eqb andb];
    first [exact Hb | apply Z.testbit_0_l].
Qed.

Lemma lanewise_length (f : Z -> Z -> Z) (a b : list Z) :
  length a = length b -> length (lanewise f a b) = length a.
Proof.
  revert b. induction a as [|x a IH]; intros [|y b] H; try discriminate;
    cbn [lanewise length]; [reflexivity|].
  f_equal. apply IH. now injection H.
Qed.

Lemma lanewise_nth (f : Z -> Z -> Z) (a b : list Z) (l : nat) :
  length a = length b -> (l < length a)%nat ->
  nth l (lanewise f a b) 0 = f (nth l a 0) (nth l b 0).
Proof.
  revert b l. induction a as [|x a IH]; intros [|y b] l H Hl;
    try discriminate; cbn [length] in *; [lia|].
  destruct l as [|l]; cbn [lanewise nth]; [reflexivity|].
  apply IH; [now injection H | lia].
Qed.

Lemma scatter_lanes_length (P : list byte) (r : m256) :
  length r = 4%nat -> length (scatter_lanes P r) = 4%nat.
Proof.
  revert r. induction P as [|p P IH]; intros r Hr; [assumption|].
  cbn [scatter_lanes fold_left]. apply IH.
  unfold mm256_or_si256. rewrite lanewise_length; [assumption|].
  now rewrite bit_lookup_at_row, bit_lookup_row_length.
Qed.

(** Bit [i] of lane [l] after the scatter: it was there before, or some
    payload byte names it. *)
Lemma scatter_lanes_testbit (P : list byte) :
  forall (r : m256) (l i : nat),
    length r = 4%nat -> (l < 4)%nat ->
    Z.testbit (nth l (scatter_lanes P r) 0) (Z.of_nat i) =
    (Z.testbit (nth l r 0) (Z.of_nat i) ||
     existsb (fun p => (position_of p / 64 =? l)%nat &&
                       (position_of p mod 64 =? i)%nat) P)%bool.
Proof.
  induction P as [|p P IH]; intros r l i Hr Hl.
  - cbn [scatter_lanes fold_left existsb]. now rewrite orb_false_r.
  - cbn [scatter_lanes fold_left existsb].
    change (fold_left _ P ?x) with (scatter_lanes P x).
    assert (Hrow : length (bit_lookup_at p) = 4%nat)
      by now rewrite bit_lookup_at_row, bit_lookup_row_length.
    rewrite IH; [|unfold mm256_or_si256; rewrite lanewise_length; lia|lia].
    unfold mm256_or_si256. rewrite lanewise_nth by lia.
    rewrite Z.lor_spec, bit_lookup_at_row.
    rewrite bit_lookup_row_testbit by (apply position_of_lt || lia).
    now rewrite orb_assoc.
Qed.

Lemma existsb_positions (c : list byte) (l i : nat) :
  (l < 4)%nat ->
  existsb (fun p => (position_of p / 64 =? l)%nat &&
                    (position_of p mod 64 =? i)%nat) (set_positions c) =
  ((i <? 64)%nat && chunk_bit c (i + 64 * l))%bool.
Proof.
  intros Hl. apply eq_true_iff_eq.
  rewrite existsb_exists, andb_true_iff, Nat.ltb_lt. unfold set_positions.
  split.
  - intros (p & Hin & Hp). apply in_map_iff in Hin as (q & <- & Hq).
    apply filter_In in Hq as (Hq & Hbit). apply in_seq in Hq.
    rewrite position_of_byte in Hp by lia.
    apply andb_true_iff in Hp as (Hd & Hm).
    apply Nat.eqb_eq in Hd, Hm.
    pose proof (Nat.div_mod_eq q 64) as Hq'.
    pose proof (Nat.mod_upper_bound q 64 ltac:(lia)) as Hlt.
    replace (i + 64 * l)%nat with q by lia. split; [lia | assumption].
  - intros (Hi & Hbit). exists (position_byte (i + 64 * l)).
    split.
    + apply in_map, filter_In. split; [apply in_seq; lia | assumption].
    + rewrite position_of_byte by lia.
      apply andb_true_iff. split; apply Nat.eqb_eq.
      * rewrite Nat.mul_comm, Nat.div_add by lia.
        rewrite Nat.div_small by lia. reflexivity.
      * rewrite Nat.mul_comm, Nat.Div0.mod_add.
        now apply Nat.mod_small.
Qed.

(** Scattering the positions of the set bits of a chunk gives back its
    four lanes. *)
Lemma scatter_set_positions (c : list byte) :
  scatter_lanes (set_positions c) mm256_setzero_si256 = lanes_of_bytes 4 c.
Proof.
  pose proof (scatter_lanes_length (set_positions c) mm256_setzero_si256
                eq_refl) as Hlen.
  assert (Hbits : forall l, (l < 4)%nat ->
            nth l (scatter_lanes (set_positions c) mm256_setzero_si256) 0 =
            chunk_lane c l).
  { intros l Hl. apply Z.bits_inj'. intros z Hz.
    rewrite <- (Z2Nat.id z Hz).
    rewrite scatter_lanes_testbit by (reflexivity || assumption).
    rewrite existsb_positions by assumption.
    replace (Z.testbit (nth l mm256_setzero_si256 0) (Z.of_nat (Z.to_nat z)))
      with false
      by (destruct l as [|[|[|[|l]]]]; [| | | |lia];
          cbn [nth mm256_setzero_si256]; now rewrite Z.testbit_0_l).
    cbn [orb].
    destruct (Nat.ltb_spec (Z.to_nat z) 64) as [Hlt|Hge]; cbn [andb].
    - symmetry. now apply chunk_lane_testbit.
    - symmetry. apply chunk_lane_testbit_high. lia. }
  rewrite lanes_of_bytes_4.
  pose proof (Hbits 0%nat ltac:(lia)) as H0.
  pose proof (Hbits 1%nat ltac:(lia)) as H1.
  pose proof (Hbits 2%nat ltac:(lia)) as H2.
  pose proof (Hbits 3%nat ltac:(lia)) as H3.
  revert Hlen H0 H1 H2 H3.
  generalize (scatter_lanes (set_positions c) mm256_setzero_si256).
  intros v Hlen.
  destruct v as [|a [|b [|c0 [|d [|e v]]]]]; try discriminate.
  cbn [nth]. now intros -> -> -> ->.
Qed.

(** ** [expand_and_scatter_256] *)

Lemma skipn_nth_cons {A} (l : list A) (i : nat) (d : A) :
  (i < length l)%nat -> skipn i l = nth i l d :: skipn (S i) l.
Proof.
  revert i. induction l as [|x l IH]; intros i Hi; cbn [length] in Hi; [lia|].
  destruct i as [|i]; [reflexivity|].
  cbn [skipn nth]. apply IH. lia.
Qed.

Lemma scatter_lanes_cons (p : byte) (P : list byte) (r : m256) :
  scatter_lanes (p :: P) r =
  scatter_lanes P (mm256_or_si256 r (bit_lookup_at p)).
Proof. reflexivity. Qed.

(** The two loops read a payload [P] that lies at [src] in [srcbuf]. *)
Section ScatterLoops.
Variable srcbuf : buffer.
Variable src : nat.
Variable P : list byte.
Hypothesis payload_at : load srcbuf src (length P) = Some P.

Lemma lookup_src_spec (i : nat) :
  (i < length P)%nat ->
  lookup_src srcbuf src i = Some (bit_lookup_at (nth i P Byte.x00)).
Proof.
  intros Hi. pose proof (load_inv _ _ _ _ payload_at) as (Hle & HPeq & _).
  unfold lookup_src. rewrite load_Some by lia.
  rewrite (skipn_nth_cons srcbuf (src + i) Byte.x00) by lia.
  cbn [firstn hd]. do 2 f_equal.
  rewrite HPeq. symmetry. apply nth_firstn_skipn. exact Hi.
Qed.

(** The unrolled loop stops at some [i'] with the rest of the work
    unchanged. *)
Lemma scatter_unrolled_spec (fuel : nat) :
  forall i r,
    (i <= length P)%nat -> (length P - i <= 4 * fuel + 3)%nat ->
    exists i' r',
      scatter_unrolled fuel srcbuf src (length P) i r = Some (i', r') /\
      (i' <= length P)%nat /\
      scatter_lanes (skipn i' P) r' = scatter_lanes (skipn i P) r.
Proof.
  induction fuel as [|fuel IH]; intros i r Hi Hfuel.
  - cbn [scatter_unrolled].
    destruct (Nat.leb_spec (i + 4) (length P)); [lia|].
    exists i, r. repeat split; lia.
  - cbn [scatter_unrolled].
    destruct (Nat.leb_spec (i + 4) (length P)) as [Hle|Hgt].
    + rewrite !lookup_src_spec by lia.
      destruct (IH (i + 4)%nat
                  (mm256_or_si256
                     (mm256_or_si256
                        (mm256_or_si256
                           (mm256_or_si256 r
                              (bit_lookup_at (nth i P Byte.x00)))
                           (bit_lookup_at (nth (i + 1) P Byte.x00)))
                        (bit_lookup_at (nth (i + 2) P Byte.x00)))
                     (bit_lookup_at (nth (i + 3) P Byte.x00))))
        as (i' & r' & Hrun & Hi' & Heq); [lia | lia |].
      exists i', r'. rewrite Hrun. repeat split; try lia.
      rewrite Heq.
      rewrite (skipn_nth_cons P i Byte.x00) by lia.
      rewrite (skipn_nth_cons P (S i) Byte.x00) by lia.
      rewrite (skipn_nth_cons P (S (S i)) Byte.x00) by lia.
      rewrite (skipn_nth_cons P (S (S (S i))) Byte.x00) by lia.
      rewrite !scatter_lanes_cons.
      replace (i + 1)%nat with (S i) by lia.
      replace (i + 2)%nat with (S (S i)) by lia.
      replace (i + 3)%nat with (S (S (S i))) by lia.
      replace (i + 4)%nat with (S (S (S (S i)))) by lia.
      reflexivity.
    + exists i, r. repeat split; lia.
Qed.

Lemma scatter_tail_spec (fuel : nat) :
  forall i r,
    (i <= length P)%nat -> (length P - i <= fuel)%nat ->
    scatter_tail fuel srcbuf src (length P) i r =
    Some (scatter_lanes (skipn i P) r).
Proof.
  induction fuel as [|fuel IH]; intros i r Hi Hfuel.
  - cbn [scatter_tail].
    destruct (Nat.ltb_spec i (length P)); [lia|].
    rewrite skipn_all2 by lia. reflexivity.
  - cbn [scatter_tail].
    destruct (Nat.ltb_spec i (length P)) as [Hlt|Hge].
    + rewrite lookup_src_spec by lia.
      rewrite IH by lia.
      rewrite (skipn_nth_cons P i Byte.x00) by lia.
      rewrite scatter_lanes_cons.
      replace (i + 1)%nat with (S i) by lia. reflexivity.
    + rewrite skipn_all2 by lia. reflexivity.
Qed.

(** With [bucket_size] rounds of fuel neither loop stops early: the
    chunk stored is the scatter of the whole payload. *)
Lemma expand_and_scatter_256_spec (dstbuf : buffer) (dst : nat) :
  expand_and_scatter_256 srcbuf src (length P) dstbuf dst =
  mm256_storeu_si256 dstbuf dst (scatter_lanes P mm256_setzero_si256).
Proof.
  unfold expand_and_scatter_256.
  destruct (scatter_unrolled_spec (length P) 0%nat mm256_setzero_si256)
    as (i' & r' & Hrun & Hi' & Heq); [lia | lia |].
  rewrite Hrun, scatter_tail_spec by lia.
  rewrite Heq. reflexivity.
Qed.
End ScatterLoops.

(** ** Header bytes *)

Lemma header_byte_unsigned (cat len : Z) :
  0 <= cat < 4 -> 0 <= len < 64 ->
  byte.unsigned (header_byte cat len) = cat * 64 + len.
Proof.
  intros Hc Hl. unfold header_byte.
  rewrite byte.unsigned_of_Z. unfold byte.wrap.
  change (2 ^ 8) with 256. apply Z.mod_small. lia.
Qed.

Lemma header_category_byte (cat len : Z) :
  0 <= cat < 4 -> 0 <= len < 64 ->
  header_category (header_byte cat len) = cat.
Proof.
  intros Hc Hl. unfold header_category.
  rewrite header_byte_unsigned by assumption.
  rewrite Z.shiftr_div_pow2 by lia. change (2 ^ 6) with 64.
  rewrite Z.div_add_l by lia. rewrite Z.div_small by lia. lia.
Qed.

Lemma header_length_byte (cat len : Z) :
  0 <= cat < 4 -> 0 <= len < 64 ->
  header_length (header_byte cat len) = len.
Proof.
  intros Hc Hl. unfold header_length.
  rewrite header_byte_unsigned by assumption.
  change 0x3F with (Z.ones 6). rewrite Z.land_ones by lia.
  change (2 ^ 6) with 64.
  rewrite Z.add_comm, Z.mod_add by lia. apply Z.mod_small. lia.
Qed.

(** ** One round of [vitemap_decompress] *)

Lemma load_cons data pos h P :
  load data pos (length (h :: P)) = Some (h :: P) ->
  load data pos 1 = Some [h] /\ load data (pos + 1) (length P) = Some P.
Proof.
  intros H. apply load_inv in H as (Hle & Heq & _). cbn [length] in *.
  rewrite !load_Some by lia.
  replace (pos + 1)%nat with (1 + pos)%nat by lia. rewrite <- skipn_skipn.
  destruct (skipn pos data) as [|x X'] eqn:HX; [discriminate|].
  cbn [firstn skipn] in *. injection Heq as Hh HP. subst h.
  split; [reflexivity | now rewrite <- HP].
Qed.

(** The round, once the header byte is known. *)
Lemma decompress_bucket_header data pos h out opos :
  load data pos 1 = Some [h] ->
  decompress_bucket data pos out opos =
  (out' <- match header_category h with
           | 0 => expand_and_scatter_256 data (pos + 1)
                    (Z.to_nat (header_length h)) out opos
           | 1 =>
               out1 <- expand_and_scatter_256 data (pos + 1)
                         (Z.to_nat (header_length h)) out opos ;;
               src_vec <- mm256_loadu_si256 out1 opos ;;
               mm256_storeu_si256 out1 opos
                 (mm256_xor_si256 src_vec (mm256_set1_epi8 0xFF))
           | 2 => memcpy out opos data (pos + 1) (Z.to_nat BUCKET_SIZE_U8)
           | _ => Some out
           end ;;
   Some ((pos + 1 + Z.to_nat (header_length h))%nat, out')).
Proof. intros H. unfold decompress_bucket. rewrite H. reflexivity. Qed.

Lemma store_store m off bs bs' m1 :
  length bs = length bs' ->
  store m off bs = Some m1 ->
  store m1 off bs' = store m off bs'.
Proof.
  intros Hl H. pose proof (store_length _ _ _ _ H) as Hlen.
  pose proof (store_inv _ _ _ _ H) as (Hle & _).
  rewrite !store_Some by lia. f_equal.
  rewrite (store_firstn_before _ _ _ _ off H) by lia.
  rewrite <- Hl, (store_skipn _ _ _ _ H). reflexivity.
Qed.

Lemma load_store m off bs m1 :
  store m off bs = Some m1 -> load m1 off (length bs) = Some bs.
Proof.
  intros H. pose proof (store_inv _ _ _ _ H) as (Hle & ->).
  assert (Hl : length (firstn off m) = off) by (rewrite length_firstn; lia).
  pose proof (load_app_skip (firstn off m) bs (skipn (off + length bs) m))
    as Hld.
  now rewrite Hl in Hld.
Qed.

Lemma lxor_lxor (a b : Z) : Z.lxor (Z.lxor a b) b = a.
Proof. now rewrite Z.lxor_assoc, Z.lxor_nilpotent, Z.lxor_0_r. Qed.

Lemma store_chunk out opos c :
  length c = 32%nat -> (opos + 32 <= length out)%nat ->
  store out opos c = Some (firstn opos out ++ c ++ skipn (opos + 32) out).
Proof. intros Hc Ho. rewrite store_Some by lia. now rewrite Hc. Qed.

(** Decoding the record of a chunk writes the chunk. *)
Lemma decompress_bucket_record data pos c out opos :
  length c = 32%nat ->
  load data pos (length (chunk_record c)) = Some (chunk_record c) ->
  (opos + 32 <= length out)%nat ->
  decompress_bucket data pos out opos =
  Some ((pos + length (chunk_record c))%nat,
        firstn opos out ++ c ++ skipn (opos + 32) out).
Proof.
  intros Hc Hrec Ho. revert Hrec. unfold chunk_record.
  pose proof (popcount_range c) as Hn.
  pose proof (set_positions_length c) as Hset.
  pose proof (clear_positions_length c) as Hclr.
  pose proof (scatter_set_positions c) as Hsc.
  pose proof (scatter_set_positions (inverted_chunk c)) as Hsci.
  rewrite inverted_chunk_positions, inverted_chunk_lanes in Hsci.
  pose proof (inverted_chunk_lanes c) as Hil.
  pose proof (inverted_chunk_length c) as Hic.
  pose proof (bytes_of_lanes_of_bytes 4 c Hc) as Hbl.
  pose proof (bytes_of_lanes_of_bytes 4 (inverted_chunk c) Hic) as Hbli.
  rewrite Hil in Hbli. rewrite lanes_of_bytes_4 in Hbl.
  revert Hn Hset Hclr Hsc Hsci Hil Hic Hbl Hbli.
  rewrite lanes_of_bytes_4.
  generalize (popcount c) (set_positions c) (clear_positions c)
             (inverted_chunk c)
             (chunk_lane c 0) (chunk_lane c 1) (chunk_lane c 2)
             (chunk_lane c 3).
  intros n sp cp ic l0 l1 l2 l3 Hn Hset Hclr Hsc Hsci Hil Hic Hbl Hbli.
  destruct (Z.ltb_spec n 32) as [Hlt|Hge]; [|destruct (Z.ltb_spec 224 n)].
  - (* sparse *)
    intros Hrec. apply load_cons in Hrec as (Hh & HP).
    rewrite (decompress_bucket_header _ _ _ _ _ Hh).
    rewrite header_category_byte, header_length_byte by lia.
    replace (Z.to_nat n) with (length sp) by lia.
    rewrite (expand_and_scatter_256_spec _ _ _ HP), Hsc.
    unfold mm256_storeu_si256. rewrite Hbl, store_chunk by assumption.
    cbn [length]. do 2 f_equal. lia.
  - (* dense *)
    intros Hrec. apply load_cons in Hrec as (Hh & HP).
    rewrite (decompress_bucket_header _ _ _ _ _ Hh).
    rewrite header_category_byte, header_length_byte by lia.
    replace (Z.to_nat (256 - n)) with (length cp) by lia.
    rewrite (expand_and_scatter_256_spec _ _ _ HP), Hsci.
    unfold mm256_storeu_si256. rewrite Hbli.
    destruct (store out opos ic) as [out1|] eqn:Hst1.
    2:{ rewrite store_Some in Hst1 by lia. discriminate. }
    unfold mm256_loadu_si256.
    pose proof (load_store _ _ _ _ Hst1) as Hld. rewrite Hic in Hld.
    rewrite Hld, Hil, all_ones_lanes.
    cbn [mm256_xor_si256 lanewise]. rewrite !lxor_lxor, Hbl.
    rewrite (store_store _ _ _ _ _ (eq_trans Hic (eq_sym Hc)) Hst1).
    rewrite store_chunk by assumption.
    cbn [length]. do 2 f_equal. lia.
  - (* raw *)
    intros Hrec. apply load_cons in Hrec as (Hh & HP).
    rewrite (decompress_bucket_header _ _ _ _ _ Hh).
    rewrite header_category_byte, header_length_byte by lia.
    unfold memcpy, BUCKET_SIZE_U8. change (Z.to_nat 32) with 32%nat.
    rewrite Hc in HP. rewrite HP, store_chunk by assumption.
    cbn [length]. rewrite Hc. change (Z.to_nat 32) with 32%nat.
    do 2 f_equal. lia.
Qed.

(** ** The loop of [vitemap_decompress] *)

(** The fuel never runs out: the cursor moves forward every round. *)
Lemma decompress_bucket_advances data pos out opos pos' out' :
  decompress_bucket data pos out opos = Some (pos', out') ->
  (pos < pos')%nat.
Proof.
  unfold decompress_bucket.
  destruct (load data pos 1) as [hb|]; [|discriminate].
  match goal with
  | |- match ?e with _ => _ end = _ -> _ => destruct e; [|discriminate]
  end.
  intros [= <- _]. lia.
Qed.

Lemma decompress_loop_fuel (fuel fuel' : nat) :
  forall data end_ pos out opos,
    (end_ - pos <= fuel)%nat -> (end_ - pos <= fuel')%nat ->
    decompress_loop fuel data end_ pos out opos =
    decompress_loop fuel' data end_ pos out opos.
Proof.
  revert fuel'. induction fuel as [|fuel IH]; intros fuel' data end_ pos out
    opos H H'.
  - destruct fuel'; cbn [decompress_loop];
      destruct (Nat.ltb_spec pos end_); (lia || reflexivity).
  - destruct fuel' as [|fuel']; cbn [decompress_loop];
      destruct (Nat.ltb_spec pos end_); try (lia || reflexivity).
    destruct (decompress_bucket data pos out opos) as [[pos' out']|] eqn:Hb;
      [|reflexivity].
    apply decompress_bucket_advances in Hb.
    apply IH; lia.
Qed.

Lemma app_inj_length {A} (a a' b b' : list A) :
  length a = length a' -> a ++ b = a' ++ b' -> a = a' /\ b = b'.
Proof.
  revert a'. induction a as [|x a IH]; intros [|y a'] Hl H;
    try discriminate; cbn [app] in *; [auto|].
  injection H as -> H. injection Hl as Hl.
  destruct (IH a' Hl H) as [-> ->]. auto.
Qed.

Lemma load_app_l data pos (r rest : list byte) :
  load data pos (length (r ++ rest)) = Some (r ++ rest) ->
  load data pos (length r) = Some r /\
  load data (pos + length r) (length rest) = Some rest.
Proof.
  intros H. apply load_inv in H as (Hle & Heq & _).
  rewrite length_app in *. rewrite !load_Some by lia.
  rewrite <- (firstn_skipn (length r) (skipn pos data)) in Heq at 1.
  assert (Hl : length (firstn (length r) (skipn pos data)) = length r)
    by (rewrite length_firstn, length_skipn; lia).
  rewrite firstn_app, Hl, firstn_firstn, skipn_skipn in Heq.
  replace (Nat.min (length r + length rest) (length r)) with (length r)
    in Heq by lia.
  replace (length r + length rest - length r)%nat with (length rest)
    in Heq by lia.
  apply app_inj_length in Heq; [|now rewrite Hl].
  replace (pos + length r)%nat with (length r + pos)%nat by lia.
  destruct Heq as [Hr Hrest]. now rewrite <- Hr, <- Hrest.
Qed.

Lemma flat_map_cons_eq {A B} (f : A -> list B) (x : A) (l : list A) :
  flat_map f (x :: l) = f x ++ flat_map f l.
Proof. reflexivity. Qed.

Lemma decompress_loop_step fuel data end_ pos out opos pos' out1 :
  (pos < end_)%nat ->
  decompress_bucket data pos out opos = Some (pos', out1) ->
  decompress_loop (S fuel) data end_ pos out opos =
  decompress_loop fuel data end_ pos' out1 (opos + 32).
Proof.
  intros Hlt Hb. cbn [decompress_loop].
  destruct (Nat.ltb_spec pos end_); [|lia].
  now rewrite Hb.
Qed.

Lemma decompress_loop_done fuel data end_ pos out opos :
  (end_ <= pos)%nat ->
  decompress_loop fuel data end_ pos out opos = Some (out, opos).
Proof.
  intros Hge. destruct fuel; cbn [decompress_loop];
    destruct (Nat.ltb_spec pos end_); (lia || reflexivity).
Qed.

Lemma splice_chunk (out c : list byte) (opos k : nat) (rest : list byte) :
  length c = 32%nat -> (opos + 32 <= length out)%nat ->
  let out1 := firstn opos out ++ c ++ skipn (opos + 32) out in
  firstn (opos + 32) out1 ++ rest ++ skipn (opos + 32 + k) out1 =
  firstn opos out ++ (c ++ rest) ++ skipn (opos + (32 + k)) out.
Proof.
  intros Hc Ho out1. subst out1.
  assert (Hlo : length (firstn opos out) = opos)
    by (rewrite length_firstn; lia).
  rewrite (app_assoc (firstn opos out) c).
  rewrite firstn_app, firstn_all2 by (rewrite length_app; lia).
  rewrite length_app, Hlo, Hc.
  replace (opos + 32 - (opos + 32))%nat with 0%nat by lia.
  rewrite firstn_O, app_nil_r.
  rewrite skipn_app, skipn_all2 by (rewrite length_app; lia).
  rewrite length_app, Hlo, Hc, skipn_skipn. cbn [app].
  rewrite <- !app_assoc. do 4 f_equal. lia.
Qed.

Lemma decompress_loop_spec (chunks : list (list byte)) :
  forall fuel data pos out opos,
    Forall (fun c => length c = 32%nat) chunks ->
    load data pos (length (flat_map chunk_record chunks)) =
      Some (flat_map chunk_record chunks) ->
    (length (flat_map chunk_record chunks) <= fuel)%nat ->
    (opos + 32 * length chunks <= length out)%nat ->
    decompress_loop fuel data
      (pos + length (flat_map chunk_record chunks)) pos out opos =
    Some (firstn opos out ++ concat chunks ++
            skipn (opos + 32 * length chunks) out,
          (opos + 32 * length chunks)%nat).
Proof.
  induction chunks as [|c chunks IH];
    intros fuel data pos out opos Hall Hload Hfuel Hroom.
  - rewrite decompress_loop_done by (cbn; lia).
    cbn [length concat app].
    rewrite ?Nat.mul_0_r, ?Nat.add_0_r, firstn_skipn. reflexivity.
  - inversion Hall as [|? ? Hc Hcs]; subst.
    rewrite flat_map_cons_eq in *. rewrite concat_cons, length_cons in *.
    pose proof (chunk_record_length c Hc) as Hrl.
    apply load_app_l in Hload as (Hl1 & Hl2).
    pose proof (decompress_bucket_record data pos c out opos Hc Hl1
                  ltac:(lia)) as Hb.
    rewrite length_app in *.
    specialize (fun fuel => IH fuel data (pos + length (chunk_record c))%nat
                              (firstn opos out ++ c ++ skipn (opos + 32) out)
                              (opos + 32)%nat Hcs Hl2).
    revert Hrl Hb Hfuel IH.
    generalize (chunk_record c) (flat_map chunk_record chunks).
    intros r rest Hrl Hb Hfuel IH.
    destruct fuel as [|fuel]; [lia|].
    assert (Hlt : (pos < pos + (length r + length rest))%nat) by lia.
    rewrite (decompress_loop_step _ _ _ _ _ _ _ _ Hlt Hb).
    replace (pos + (length r + length rest))%nat
      with (pos + length r + length rest)%nat by lia.
    rewrite IH;
      [| lia | rewrite !length_app, length_firstn, length_skipn; lia].
    f_equal. f_equal; [|lia].
    pose proof (splice_chunk out c opos (32 * length chunks)
                  (concat chunks) Hc ltac:(lia)) as Hs.
    cbv zeta in Hs. rewrite Hs. do 3 f_equal. lia.
Qed.

(** ** Contexts *)

Lemma ceil32_spec (n : Z) :
  0 <= n ->
  n / 32 + (if 0 <? n mod 32 then 1 else 0) = ceil32 n.
Proof.
  intros Hn. unfold ceil32.
  pose proof (Z.div_mod n 32 ltac:(lia)) as Hdm.
  pose proof (Z.mod_pos_bound n 32 ltac:(lia)) as Hb.
  destruct (Z.ltb_spec 0 (n mod 32)) as [Hpos|Hz].
  - apply (Z.div_unique _ _ _ (n mod 32 - 1)); lia.
  - apply (Z.div_unique _ _ _ 31); lia.
Qed.

Lemma ceil32_bounds (n : Z) :
  0 <= n -> n <= 32 * ceil32 n < n + 32.
Proof.
  intros Hn. unfold ceil32.
  pose proof (Z.div_mod (n + 31) 32 ltac:(lia)) as Hdm.
  pose proof (Z.mod_pos_bound (n + 31) 32 ltac:(lia)) as Hb.
  lia.
Qed.

Lemma calloc_length (n : Z) : length (calloc n) = Z.to_nat n.
Proof. apply repeat_length. Qed.

Lemma vitemap_create_num_buckets (size : Z) :
  0 <= size -> 64 * ceil32 size + 36 < 2 ^ 32 ->
  num_buckets (vitemap_create size) = ceil32 size.
Proof.
  intros Hs Hw. pose proof (ceil32_bounds size Hs) as Hb.
  unfold vitemap_create. cbn [num_buckets]. unfold BUCKET_SIZE_U8.
  rewrite ceil32_spec by assumption.
  unfold u32. apply Z.mod_small. lia.
Qed.


Lemma u32_small (z : Z) : 0 <= z < 2 ^ 32 -> u32 z = z.
Proof. apply Z.mod_small. Qed.

Lemma wf_vitemap_create (size : Z) :
  0 <= size -> 64 * ceil32 size + 36 < 2 ^ 32 ->
  wf_vitemap (vitemap_create size).
Proof.
  intros Hs Hw. pose proof (ceil32_bounds size Hs) as Hb.
  pose proof (vitemap_create_num_buckets size Hs Hw) as Hnb.
  unfold vitemap_create in *. cbn [num_buckets] in Hnb.
  unfold BUCKET_SIZE_U8 in *.
  assert (E1 : u32 (ceil32 size * 32) = 32 * ceil32 size)
    by (rewrite u32_small; lia).
  assert (E2 : u32 (4 + 32 * ceil32 size) = 4 + 32 * ceil32 size)
    by (rewrite u32_small; lia).
  assert (E3 : u32 (4 + 32 * ceil32 size + 32 * ceil32 size)
               = 4 + 64 * ceil32 size)
    by (rewrite u32_small; lia).
  assert (E4 : u32 (4 + 64 * ceil32 size + 32) = 4 + 64 * ceil32 size + 32)
    by (rewrite u32_small; lia).
  split; cbn [num_buckets max_size max_compressed_size input output
              helper_bucket];
    rewrite ?Hnb, ?calloc_length, ?E1, ?E2, ?E3, ?E4; lia.
Qed.

Lemma write_input_fields (vm vm' : Vitemap) (data : list byte) :
  write_input vm data = Some vm' ->
  max_size vm' = max_size vm /\
  num_buckets vm' = num_buckets vm /\
  output vm' = output vm /\
  max_compressed_size vm' = max_compressed_size vm /\
  output_size vm' = output_size vm /\
  helper_bucket vm' = helper_bucket vm /\
  length (input vm') = length (input vm).
Proof.
  unfold write_input.
  destruct (store (input vm) 0 data) as [inbuf|] eqn:Hst; [|discriminate].
  intros [= <-]. cbn. repeat split. now apply store_length in Hst.
Qed.

Lemma wf_write_input (vm vm' : Vitemap) (data : list byte) :
  wf_vitemap vm -> write_input vm data = Some vm' -> wf_vitemap vm'.
Proof.
  intros [H1 H2 H3 H4 H5 H6 H7] Hw.
  destruct (write_input_fields vm vm' data Hw)
    as (E1 & E2 & E3 & E4 & E5 & E6 & E7).
  split; rewrite ?E1, ?E2, ?E3, ?E4, ?E6, ?E7; assumption.
Qed.

Lemma context_with_fields (size : Z) (data : list byte) :
  max_size (context_with size data) = max_size (vitemap_create size) /\
  num_buckets (context_with size data) = num_buckets (vitemap_create size) /\
  length (input (context_with size data)) =
    length (input (vitemap_create size)).
Proof.
  unfold context_with. cbv zeta.
  destruct (write_input (vitemap_create size) data) as [vm'|] eqn:Hw;
    [|auto].
  destruct (write_input_fields _ _ _ Hw) as (E1 & E2 & _ & _ & _ & _ & E7).
  auto.
Qed.

(** For data that fits, [context_with] is the context the copy leaves. *)
Lemma context_with_fits (size : Z) (data : list byte) :
  (length data <= length (input (vitemap_create size)))%nat ->
  write_input (vitemap_create size) data = Some (context_with size data).
Proof.
  intros Hl. unfold context_with, write_input. cbv zeta.
  now rewrite store_Some by lia.
Qed.

Lemma wf_context_with (size : Z) (data : list byte) :
  wf_vitemap (vitemap_create size) -> wf_vitemap (context_with size data).
Proof.
  intros Hwf. unfold context_with. cbv zeta.
  destruct (write_input (vitemap_create size) data) as [vm'|] eqn:Hw;
    [|assumption].
  exact (wf_write_input _ _ _ Hwf Hw).
Qed.

Lemma chunks_of_concat (n : nat) :
  forall bs, length bs = (32 * n)%nat -> concat (chunks_of n bs) = bs.
Proof.
  induction n as [|n IH]; intros bs Hl.
  - destruct bs; [reflexivity | discriminate].
  - cbn [chunks_of]. rewrite concat_cons.
    rewrite IH by (rewrite length_skipn; lia).
    apply firstn_skipn.
Qed.

Lemma chunks_of_Forall (n : nat) :
  forall bs, length bs = (32 * n)%nat ->
             Forall (fun c => length c = 32%nat) (chunks_of n bs).
Proof.
  induction n as [|n IH]; intros bs Hl; cbn [chunks_of]; constructor.
  - rewrite length_firstn. lia.
  - apply IH. rewrite length_skipn. lia.
Qed.

Lemma chunks_of_length (n : nat) (bs : list byte) :
  length (chunks_of n bs) = n.
Proof.
  revert bs. induction n as [|n IH]; intros bs; cbn [chunks_of length];
    [reflexivity | now rewrite IH].
Qed.

(** ** Round trip over a whole context *)

Lemma load_of_prefix (m A B : list byte) :
  firstn (length A + length B) m = A ++ B ->
  load m (length A) (length B) = Some B.
Proof.
  intros H.
  assert (Hle : (length A + length B <= length m)%nat).
  { apply (f_equal (@length _)) in H.
    rewrite length_firstn, length_app in H. lia. }
  rewrite (load_in_prefix m (length A + length B)) by lia.
  rewrite H. pose proof (load_app_skip A B []) as Hl.
  now rewrite app_nil_r in Hl.
Qed.

(** Whatever size is declared, the frame decodes to the whole input
    buffer of the context: [32 * num_buckets] bytes are written. *)
Lemma roundtrip_context (vm : Vitemap) (size : Z) (out : buffer) :
  wf_vitemap vm ->
  (length (input vm) <= length out)%nat ->
  exists vm' sz,
    vitemap_compress vm size = Some (vm', sz) /\
    vitemap_decompress (output vm') sz out =
      Some (input vm ++ skipn (length (input vm)) out, length (input vm)).
Proof.
  intros Hwf Hout.
  destruct (vitemap_compress_spec vm size Hwf)
    as (vm' & Hrun & Hframe & _ & _ & _ & _ & _ & _ & _ & Hle).
  destruct Hwf as [Hnb Hwrap Hms Hmcs Hin Hlo Hh].
  exists vm', (4 + Z.of_nat (length (records_of vm))).
  split; [assumption|].
  unfold frame_of in Hframe. cbn [fst snd] in Hframe.
  replace (Z.to_nat (4 + Z.of_nat (length (records_of vm))))
    with (4 + length (records_of vm))%nat in Hframe by lia.
  change 4%nat with (length (le_split 4 size)) in Hframe at 1.
  apply load_of_prefix in Hframe. rewrite length_le_split in Hframe.
  unfold vitemap_decompress.
  replace (Z.to_nat (4 + Z.of_nat (length (records_of vm))))
    with (4 + length (records_of vm))%nat by lia.
  assert (Hlen : length (input vm) = (32 * Z.to_nat (num_buckets vm))%nat)
    by lia.
  pose proof (chunks_of_concat _ _ Hlen) as Hcat.
  pose proof (chunks_of_Forall _ _ Hlen) as Hall.
  pose proof (chunks_of_length (Z.to_nat (num_buckets vm)) (input vm)) as Hcl.
  unfold records_of, chunks_in in *.
  rewrite (decompress_loop_spec _ _ _ 4%nat out 0%nat Hall Hframe);
    [| lia | rewrite Hcl; lia].
  rewrite Hcat, Hcl, <- Hlen. reflexivity.
Qed.

(** ** Payloads: order and meaning of the positions *)

Lemma seq_StronglySorted (a n : nat) : StronglySorted lt (seq a n).
Proof.
  revert a. induction n as [|n IH]; intros a; cbn [seq]; constructor.
  - apply IH.
  - apply Forall_forall. intros x Hx. apply in_seq in Hx. lia.
Qed.

Lemma filter_StronglySorted {A} (R : A -> A -> Prop) (f : A -> bool) l :
  StronglySorted R l -> StronglySorted R (filter f l).
Proof.
  induction 1 as [|a l Hs IH Hall]; cbn [filter]; [constructor|].
  destruct (f a); [|assumption].
  constructor; [assumption|].
  apply Forall_forall. intros x Hx. apply filter_In in Hx as [Hx _].
  rewrite Forall_forall in Hall. now apply Hall.
Qed.

Lemma positions_of_filter (f : nat -> bool) :
  map position_of (map position_byte (filter f (seq 0 256))) =
  filter f (seq 0 256).
Proof.
  rewrite map_map. rewrite <- (map_id (filter f (seq 0 256))) at 2.
  apply map_ext_in. intros q Hq. apply filter_In in Hq as [Hq _].
  apply in_seq in Hq. apply position_of_byte. lia.
Qed.

Lemma set_positions_sorted (c : list byte) :
  StronglySorted lt (map position_of (set_positions c)).
Proof.
  unfold set_positions. rewrite positions_of_filter.
  apply filter_StronglySorted, seq_StronglySorted.
Qed.

Lemma clear_positions_sorted (c : list byte) :
  StronglySorted lt (map position_of (clear_positions c)).
Proof.
  unfold clear_positions. rewrite positions_of_filter.
  apply filter_StronglySorted, seq_StronglySorted.
Qed.

Lemma chunk_bit_byte (c : list byte) (i j : nat) :
  (j < 8)%nat ->
  chunk_bit c (8 * i + j) =
  Z.testbit (byte.unsigned (nth i c Byte.x00)) (Z.of_nat j).
Proof.
  intros Hj. unfold chunk_bit, byte_bit.
  replace (8 * i + j)%nat with (j + i * 8)%nat by lia.
  rewrite Nat.div_add, Nat.Div0.mod_add by lia.
  rewrite Nat.div_small, Nat.mod_small by lia. reflexivity.
Qed.

Lemma set_positions_In (c : list byte) (p : nat) :
  In p (map position_of (set_positions c)) <->
  (p < 256)%nat /\ chunk_bit c p = true.
Proof.
  unfold set_positions. rewrite positions_of_filter, filter_In, in_seq.
  intuition lia.
Qed.

Lemma clear_positions_In (c : list byte) (p : nat) :
  In p (map position_of (clear_positions c)) <->
  (p < 256)%nat /\ chunk_bit c p = false.
Proof.
  unfold clear_positions. rewrite positions_of_filter, filter_In, in_seq.
  rewrite negb_true_iff. intuition lia.
Qed.

(** ** Complement of bytes and chunks *)

Lemma byte_not_bit (b : byte) (j : nat) :
  (j < 8)%nat -> byte_bit (byte_not b) j = negb (byte_bit b j).
Proof.
  intros Hj. unfold byte_bit, byte_not, byte.xor.
  rewrite byte.unsigned_of_Z. unfold byte.wrap.
  rewrite Z.mod_pow2_bits_low by lia.
  rewrite Z.lxor_spec.
  change (byte.unsigned Byte.xff) with (Z.ones 8).
  rewrite Z.ones_spec_low by lia. apply xorb_true_r.
Qed.

Lemma chunk_not_length (c : list byte) : length (chunk_not c) = length c.
Proof. apply length_map. Qed.

Lemma chunk_not_bit (c : list byte) (p : nat) :
  (p < 8 * length c)%nat ->
  chunk_bit (chunk_not c) p = negb (chunk_bit c p).
Proof.
  intros Hp. unfold chunk_bit, chunk_not.
  assert (Hd : (p / 8 < length c)%nat)
    by (apply Nat.Div0.div_lt_upper_bound; lia).
  rewrite (nth_indep _ Byte.x00 (byte_not Byte.x00))
    by (rewrite length_map; exact Hd).
  rewrite map_nth. apply byte_not_bit. apply Nat.mod_upper_bound. lia.
Qed.

Lemma byte_ext (a b : byte) :
  (forall j, (j < 8)%nat -> byte_bit a j = byte_bit b j) -> a = b.
Proof.
  intros H. apply byte.unsigned_inj, Z.bits_inj'. intros z Hz.
  destruct (Z.lt_ge_cases z 8) as [Hlt|Hge].
  - specialize (H (Z.to_nat z) ltac:(lia)). unfold byte_bit in H.
    now rewrite Z2Nat.id in H by lia.
  - now rewrite !byte_testbit_high by lia.
Qed.

(** Two 32-byte chunks with the same 256 bits are equal. *)
Lemma chunk_ext (a b : list byte) :
  length a = 32%nat -> length b = 32%nat ->
  (forall p, (p < 256)%nat -> chunk_bit a p = chunk_bit b p) -> a = b.
Proof.
  intros Ha Hb H. apply (nth_ext a b Byte.x00 Byte.x00); [lia|].
  intros i Hi. apply byte_ext. intros j Hj.
  specialize (H (8 * i + j)%nat ltac:(lia)).
  now rewrite !chunk_bit_byte in H by assumption.
Qed.

Lemma lor_range (a b : Z) :
  0 <= a < 2 ^ 64 -> 0 <= b < 2 ^ 64 -> 0 <= Z.lor a b < 2 ^ 64.
Proof.
  intros [Ha0 Ha1] [Hb0 Hb1].
  assert (Hn : 0 <= Z.lor a b) by (apply Z.lor_nonneg; lia).
  split; [assumption|].
  destruct (Z.eq_dec (Z.lor a b) 0) as [->|Hne]; [reflexivity|].
  apply Z.log2_lt_pow2; [lia|].
  rewrite Z.log2_lor by lia.
  apply Z.max_lub_lt.
  - destruct (Z.eq_dec a 0) as [->|Hx]; [reflexivity|].
    apply Z.log2_lt_pow2; lia.
  - destruct (Z.eq_dec b 0) as [->|Hx]; [reflexivity|].
    apply Z.log2_lt_pow2; lia.
Qed.

Lemma bit_lookup_row_range (n : nat) :
  Forall (fun x => 0 <= x < 2 ^ 64) (bit_lookup_row n).
Proof.
  unfold bit_lookup_row.
  assert (Hb : 0 <= Z.shiftl 1 (Z.of_nat (n mod 64)) < 2 ^ 64).
  { rewrite Z.shiftl_1_l.
    pose proof (Nat.mod_upper_bound n 64 ltac:(lia)).
    split; [apply Z.pow_nonneg; lia|].
    apply Z.pow_lt_mono_r; lia. }
  generalize dependent (Z.shiftl 1 (Z.of_nat (n mod 64))). intros x Hx.
  assert (H0 : 0 <= 0 < 2 ^ 64) by (split; [lia | reflexivity]).
  destruct (n / 64)%nat as [|[|[|[|k]]]]; cbn [set_lane];
    repeat constructor; (exact H0 || exact Hx || lia).
Qed.

Lemma lanewise_lor_range (a b : list Z) :
  Forall (fun x => 0 <= x < 2 ^ 64) a ->
  Forall (fun x => 0 <= x < 2 ^ 64) b ->
  Forall (fun x => 0 <= x < 2 ^ 64) (lanewise Z.lor a b).
Proof.
  intros Ha. revert b. induction Ha as [|x a Hx Ha IH]; intros b Hb;
    [constructor|].
  destruct Hb as [|y b Hy Hb]; cbn [lanewise]; constructor.
  - now apply lor_range.
  - now apply IH.
Qed.

Lemma scatter_lanes_range (P : list byte) (r : m256) :
  Forall (fun x => 0 <= x < 2 ^ 64) r ->
  Forall (fun x => 0 <= x < 2 ^ 64) (scatter_lanes P r).
Proof.
  revert r. induction P as [|p P IH]; intros r Hr; [assumption|].
  rewrite scatter_lanes_cons. apply IH.
  apply lanewise_lor_range; [assumption|].
  rewrite bit_lookup_at_row. apply bit_lookup_row_range.
Qed.

Lemma chunk_lane_of_lanes (v : list Z) (l : nat) :
  length v = 4%nat -> Forall (fun x => 0 <= x < 2 ^ 64) v -> (l < 4)%nat ->
  chunk_lane (bytes_of_lanes v) l = nth l v 0.
Proof.
  intros Hl Hv Hlt. pose proof (lanes_of_bytes_of_lanes v Hv) as H.
  rewrite Hl, lanes_of_bytes_4 in H.
  destruct v as [|a [|b [|c [|d [|e v]]]]]; try discriminate.
  injection H as H0 H1 H2 H3.
  destruct l as [|[|[|[|l]]]]; cbn [nth]; (assumption || lia).
Qed.

(** Storing the complemented lanes stores the complemented bytes. *)
Lemma bytes_of_lanes_xor (v : list Z) :
  length v = 4%nat -> Forall (fun x => 0 <= x < 2 ^ 64) v ->
  bytes_of_lanes (mm256_xor_si256 v (mm256_set1_epi8 0xFF)) =
  chunk_not (bytes_of_lanes v).
Proof.
  intros Hl Hv. rewrite all_ones_lanes.
  destruct v as [|a [|b [|c [|d [|e v]]]]]; try discriminate.
  inversion Hv as [|? ? Ha Hv1]; subst.
  inversion Hv1 as [|? ? Hb Hv2]; subst.
  inversion Hv2 as [|? ? Hc Hv3]; subst.
  inversion Hv3 as [|? ? Hd _]; subst.
  cbn [mm256_xor_si256 lanewise].
  assert (Hx : Forall (fun x => 0 <= x < 2 ^ 64)
                 [Z.lxor a (Z.ones 64); Z.lxor b (Z.ones 64);
                  Z.lxor c (Z.ones 64); Z.lxor d (Z.ones 64)])
    by (repeat constructor; now apply lxor_ones_range).
  apply chunk_ext.
  - now rewrite bytes_of_lanes_length.
  - now rewrite chunk_not_length, bytes_of_lanes_length.
  - intros p Hp.
    rewrite chunk_not_bit by (rewrite bytes_of_lanes_length; cbn; lia).
    rewrite !chunk_bit_lane.
    assert (Hq : (p / 64 < 4)%nat)
      by (apply Nat.Div0.div_lt_upper_bound; lia).
    assert (Hm : (p mod 64 < 64)%nat) by (apply Nat.mod_upper_bound; lia).
    rewrite !chunk_lane_of_lanes by (reflexivity || assumption).
    destruct (p / 64)%nat as [|[|[|[|q]]]]; [| | | |lia]; cbn [nth];
      rewrite Z.lxor_spec, Z.ones_spec_low by lia; apply xorb_true_r.
Qed.

(** ** The record of a chunk, case by case *)

Lemma chunks_in_Forall (vm : Vitemap) :
  wf_vitemap vm -> Forall (fun c => length c = 32%nat) (chunks_in vm).
Proof.
  intros [Hnb _ Hms _ Hin _ _]. apply chunks_of_Forall. lia.
Qed.

Lemma chunk_record_sparse (c : list byte) :
  popcount c < 32 ->
  chunk_record c = header_byte 0 (popcount c) :: set_positions c.
Proof.
  intros H. unfold chunk_record.
  destruct (Z.ltb_spec (popcount c) 32); [reflexivity | lia].
Qed.

Lemma chunk_record_dense (c : list byte) :
  224 < popcount c ->
  chunk_record c = header_byte 1 (256 - popcount c) :: clear_positions c.
Proof.
  intros H. unfold chunk_record.
  destruct (Z.ltb_spec (popcount c) 32); [lia|].
  destruct (Z.ltb_spec 224 (popcount c)); [reflexivity | lia].
Qed.

Lemma chunk_record_raw (c : list byte) :
  32 <= popcount c <= 224 -> chunk_record c = header_byte 2 32 :: c.
Proof.
  intros H. unfold chunk_record.
  destruct (Z.ltb_spec (popcount c) 32); [lia|].
  destruct (Z.ltb_spec 224 (popcount c)); [lia | reflexivity].
Qed.

Lemma chunk_record_header (c : list byte) :
  length c = 32%nat ->
  exists h payload,
    chunk_record c = h :: payload /\
    Z.of_nat (length payload) = header_length h /\
    0 <= header_length h <= 32 /\
    0 <= header_category h <= 2.
Proof.
  intros Hc. pose proof (popcount_range c) as Hn.
  pose proof (set_positions_length c) as Hs.
  pose proof (clear_positions_length c) as Hd.
  destruct (Z.lt_ge_cases (popcount c) 32) as [Hlt|Hge];
    [|destruct (Z.lt_ge_cases 224 (popcount c)) as [Hgt|Hle]].
  - exists (header_byte 0 (popcount c)), (set_positions c).
    rewrite chunk_record_sparse by assumption.
    rewrite header_length_byte, header_category_byte by lia.
    repeat split; lia.
  - exists (header_byte 1 (256 - popcount c)), (clear_positions c).
    rewrite chunk_record_dense by assumption.
    rewrite header_length_byte, header_category_byte by lia.
    repeat split; lia.
  - exists (header_byte 2 32), c.
    rewrite chunk_record_raw by lia.
    rewrite header_length_byte, header_category_byte by lia.
    repeat split; lia.
Qed.

(** ** The size prefix *)

Lemma some_inj {A} (x y : A) : Some x = Some y -> x = y.
Proof. now intros [= ->]. Qed.

Lemma extract_and_compact_loop_S n srcbuf src moving_indices dstbuf dst :
  extract_and_compact_loop (S n) srcbuf src moving_indices dstbuf dst =
  (indices_vector <- mm512_loadu_si512 indices moving_indices ;;
   lane <- load_u64 srcbuf src ;;
   let compact := mm512_maskz_compress_epi8 lane indices_vector in
   dstbuf' <- mm512_storeu_epi8 dstbuf dst compact ;;
   extract_and_compact_loop n srcbuf (src + 8) (moving_indices + 64)
     dstbuf' (dst + Z.to_nat (mm_popcnt_u64 lane))).
Proof. reflexivity. Qed.

(** Nothing before [dst] is written by [extract_and_compact_256]. *)
Lemma extract_and_compact_loop_before (n : nat) :
  forall srcbuf src moving_indices dstbuf dst dstbuf' k,
    extract_and_compact_loop n srcbuf src moving_indices dstbuf dst =
      Some dstbuf' ->
    (k <= dst)%nat ->
    firstn k dstbuf' = firstn k dstbuf.
Proof.
  induction n as [|n IH];
    intros srcbuf src moving_indices dstbuf dst dstbuf' k.
  - cbn [extract_and_compact_loop]. now intros [= <-].
  - rewrite extract_and_compact_loop_S.
    destruct (mm512_loadu_si512 indices moving_indices) as [iv|];
      [|discriminate].
    destruct (load_u64 srcbuf src) as [lane|]; [|discriminate].
    cbv zeta. unfold mm512_storeu_epi8.
    destruct (store dstbuf dst (mm512_maskz_compress_epi8 lane iv))
      as [d1|] eqn:Hst; [|discriminate].
    intros Hrun Hk.
    rewrite (IH _ _ _ _ _ _ k Hrun) by lia.
    exact (store_firstn_before _ _ _ _ k Hst Hk).
Qed.

(** A bucket writes at the output cursor and after it, and moves the
    cursor forward. *)
Lemma compress_bucket_before inbuf st st' k :
  compress_bucket inbuf st = Some st' ->
  (k <= c_output st)%nat ->
  firstn k (c_outbuf st') = firstn k (c_outbuf st) /\
  (c_output st <= c_output st')%nat.
Proof.
  unfold compress_bucket. intros H Hk.
  destruct (popcount_256 inbuf (c_input st)) as [count|]; [|discriminate].
  destruct (count <? BUCKET_SIZE_U8).
  - destruct (store (c_outbuf st) (c_output st) [byte.of_Z count])
      as [ob|] eqn:Hst; [|discriminate].
    destruct (extract_and_compact_256 inbuf (c_input st) ob
                (c_output st + 1)) as [ob'|] eqn:Hex; [|discriminate].
    injection H as <-. cbn [c_outbuf c_output].
    split; [|lia].
    unfold extract_and_compact_256 in Hex.
    rewrite (extract_and_compact_loop_before _ _ _ _ _ _ _ k Hex) by lia.
    exact (store_firstn_before _ _ _ _ k Hst Hk).
  - destruct (u64 (BUCKET_SIZE - count) <? BUCKET_SIZE_U8).
    + destruct (store (c_outbuf st) (c_output st) _) as [ob|] eqn:Hst;
        [|discriminate].
      destruct (invert_256 inbuf (c_input st) (c_helper st) 0) as [hb|];
        [|discriminate].
      destruct (extract_and_compact_256 hb 0 ob (c_output st + 1))
        as [ob'|] eqn:Hex; [|discriminate].
      injection H as <-. cbn [c_outbuf c_output].
      split; [|lia].
      unfold extract_and_compact_256 in Hex.
      rewrite (extract_and_compact_loop_before _ _ _ _ _ _ _ k Hex) by lia.
      exact (store_firstn_before _ _ _ _ k Hst Hk).
    + destruct (store (c_outbuf st) (c_output st) _) as [ob|] eqn:Hst;
        [|discriminate].
      unfold memcpy in H.
      destruct (load inbuf (c_input st) (Z.to_nat BUCKET_SIZE_U8))
        as [bs|]; [|discriminate].
      destruct (store ob (c_output st + 1) bs) as [ob'|] eqn:Hst2;
        [|discriminate].
      injection H as <-. cbn [c_outbuf c_output].
      split; [|lia].
      rewrite (store_firstn_before _ _ _ _ k Hst2) by lia.
      exact (store_firstn_before _ _ _ _ k Hst Hk).
Qed.

Lemma compress_loop_before (n : nat) :
  forall inbuf st st' k,
    compress_loop n inbuf st = Some st' ->
    (k <= c_output st)%nat ->
    firstn k (c_outbuf st') = firstn k (c_outbuf st).
Proof.
  induction n as [|n IH]; intros inbuf st st' k; cbn [compress_loop].
  - now intros [= <-].
  - destruct (compress_bucket inbuf st) as [st1|] eqn:Hb; [|discriminate].
    intros Hrun Hk.
    destruct (compress_bucket_before _ _ _ k Hb Hk) as (Hf & Hle).
    rewrite (IH _ _ _ k Hrun) by lia. exact Hf.
Qed.

(** Whatever the context, a compression that returns leaves the declared
    size in the first four bytes of the output buffer. *)
Lemma vitemap_compress_prefix (vm vm' : Vitemap) (size sz : Z) :
  vitemap_compress vm size = Some (vm', sz) ->
  load (output vm') 0 4 = Some (le_split 4 size).
Proof.
  unfold vitemap_compress, store_u32.
  destruct (store (output vm) 0 (le_split 4 size)) as [ob|] eqn:Hst;
    [|discriminate].
  destruct (compress_loop _ _ _) as [st|] eqn:Hloop; [|discriminate].
  intros H. apply some_inj in H. apply pair_equal_spec in H as [<- _].
  cbn [output].
  apply compress_loop_before with (k := 4%nat) in Hloop;
    [|cbn [c_output]; lia].
  cbn [c_outbuf] in Hloop.
  pose proof (load_store _ _ _ _ Hst) as Hld.
  rewrite length_le_split in Hld.
  apply load_inv in Hld as (Hle & Heq & _).
  pose proof (store_length _ _ _ _ Hst) as Hl.
  assert (Hlst : (4 <= length (c_outbuf st))%nat).
  { apply (f_equal (@length byte)) in Hloop.
    rewrite !length_firstn in Hloop. lia. }
  rewrite load_Some by lia. cbn [skipn] in *. now rewrite Hloop, Heq.
Qed.

Lemma u32_times_32 (c : Z) : u32 (32 * c) mod 32 = 0.
Proof.
  unfold u32. change (2 ^ 32) with (32 * 2 ^ 27).
  rewrite Z.mul_mod_distr_l by lia.
  rewrite Z.mul_comm. apply Z.mod_mul. lia.
Qed.

(** The capacity [vitemap_create] computes is a 32-bit multiple of 32,
    whatever the size asked for. *)
Lemma max_size_vitemap_create (size : Z) :
  0 <= max_size (vitemap_create size) < 2 ^ 32 /\
  max_size (vitemap_create size) mod 32 = 0.
Proof.
  unfold vitemap_create. cbn [max_size]. unfold BUCKET_SIZE_U8.
  split; [unfold u32; apply Z.mod_pos_bound; lia|].
  rewrite (Z.mul_comm _ 32). apply u32_times_32.
Qed.

Lemma extract_sizes_of_prefix (data : buffer) (N : Z) :
  0 <= N <= 2 ^ 32 - 32 ->
  load data 0 4 = Some (le_split 4 N) ->
  vitemap_extract_decompressed_sizes data = Some (N, 32 * ceil32 N).
Proof.
  intros HN Hld. pose proof (ceil32_bounds N ltac:(lia)) as Hb.
  unfold vitemap_extract_decompressed_sizes, load_u32. rewrite Hld.
  rewrite le_combine_split. change (Z.of_nat 4 * 8) with 32.
  rewrite Z.mod_small by lia. unfold BUCKET_SIZE_U8.
  rewrite ceil32_spec by lia.
  rewrite (u32_small (ceil32 N)) by lia.
  rewrite u32_small by lia. do 2 f_equal. lia.
Qed.

(** ** The claims about compression *)

(** C2.  Classifier partition.  A well-formed context compresses to the
    size prefix followed by exactly one record per 32-byte chunk, in
    input order; the record of a chunk with popcount [n] has category 00,
    length [n] and the positions of the set bits as payload when
    [n < 32]; category 01, length [256 - n] and the positions of the
    clear bits when [n > 224]; category 10, length 32 and the chunk
    itself otherwise. *)
Theorem classifier_partition (vm : Vitemap) (size : Z) :
  wf_vitemap vm ->
  exists vm' sz,
    vitemap_compress vm size = Some (vm', sz) /\
    frame_of (vm', sz) =
      le_split 4 size ++ flat_map chunk_record (chunks_in vm) /\
    forall c, In c (chunks_in vm) ->
      exists h payload,
        chunk_record c = h :: payload /\
        (popcount c < 32 ->
           header_category h = 0 /\ header_length h = popcount c /\
           Z.of_nat (length payload) = popcount c /\
           payload = set_positions c) /\
        (224 < popcount c ->
           header_category h = 1 /\ header_length h = 256 - popcount c /\
           Z.of_nat (length payload) = 256 - popcount c /\
           payload = clear_positions c /\
           forall p, In p (map position_of payload) <->
                     (p < 256)%nat /\ chunk_bit c p = false) /\
        (32 <= popcount c <= 224 ->
           header_category h = 2 /\ header_length h = 32 /\
           length payload = 32%nat /\ payload = c).
Proof.
  intros Hwf.
  destruct (vitemap_compress_spec vm size Hwf) as (vm' & Hrun & Hframe & _).
  pose proof (chunks_in_Forall vm Hwf) as Hall.
  rewrite Forall_forall in Hall.
  exists vm', (4 + Z.of_nat (length (records_of vm))).
  split; [assumption|]. split; [assumption|].
  intros c Hin. specialize (Hall c Hin).
  pose proof (popcount_range c) as Hn.
  pose proof (set_positions_length c) as Hs.
  pose proof (clear_positions_length c) as Hd.
  destruct (Z.lt_ge_cases (popcount c) 32) as [Hlt|Hge];
    [|destruct (Z.lt_ge_cases 224 (popcount c)) as [Hgt|Hle]].
  - exists (header_byte 0 (popcount c)), (set_positions c).
    rewrite chunk_record_sparse by assumption.
    rewrite header_length_byte, header_category_byte by lia.
    split; [reflexivity|]. split; [|split; lia].
    intros _. split; [lia|]. split; [lia|]. split; [lia|]. reflexivity.
  - exists (header_byte 1 (256 - popcount c)), (clear_positions c).
    rewrite chunk_record_dense by assumption.
    rewrite header_length_byte, header_category_byte by lia.
    split; [reflexivity|]. split; [lia|]. split; [|lia].
    intros _. split; [lia|]. split; [lia|]. split; [lia|].
    split; [reflexivity|]. intros p. apply clear_positions_In.
  - exists (header_byte 2 32), c.
    rewrite chunk_record_raw by lia.
    rewrite header_length_byte, header_category_byte by lia.
    split; [reflexivity|]. split; [lia|]. split; [lia|].
    intros _. split; [lia|]. split; [lia|]. split; [assumption|].
    reflexivity.
Qed.

(** C9.  Per-chunk size bound.  Every record of the frame is a header
    byte and a payload of as many bytes as the length field of the header
    says; that field is in [0, 32], so a record is at most 33 bytes. *)
Theorem chunk_record_bound (vm : Vitemap) (size : Z) :
  wf_vitemap vm ->
  exists vm' sz,
    vitemap_compress vm size = Some (vm', sz) /\
    frame_of (vm', sz) =
      le_split 4 size ++ flat_map chunk_record (chunks_in vm) /\
    forall c, In c (chunks_in vm) ->
      exists h payload,
        chunk_record c = h :: payload /\
        Z.of_nat (length payload) = header_length h /\
        0 <= header_length h <= 32 /\
        (length (chunk_record c) <= 33)%nat.
Proof.
  intros Hwf.
  destruct (vitemap_compress_spec vm size Hwf) as (vm' & Hrun & Hframe & _).
  pose proof (chunks_in_Forall vm Hwf) as Hall.
  rewrite Forall_forall in Hall.
  exists vm', (4 + Z.of_nat (length (records_of vm))).
  split; [assumption|]. split; [assumption|].
  intros c Hin. specialize (Hall c Hin).
  destruct (chunk_record_header c Hall) as (h & payload & Hr & Hl & Hb & _).
  pose proof (chunk_record_length c Hall) as Hlen.
  exists h, payload. repeat split; (assumption || lia).
Qed.

Lemma cons_inj {A} (x y : A) (l l' : list A) :
  x :: l = y :: l' -> x = y /\ l = l'.
Proof. intros H. now injection H. Qed.

(** C7.  Sparse payload ordering and bit convention.  In the frame of a
    well-formed context, the record of every chunk with fewer than 32 set
    bits is a category-00 header followed by the positions of the set
    bits: strictly ascending, each below 256, position [8 * i + j]
    present exactly when bit [j] (least significant bit first) of byte
    [i] is set.  The input that is zero except byte 15 = 0x10 compresses
    to 20 00 00 00, 01, 7C. *)
Theorem sparse_payload_positions (vm : Vitemap) (size : Z) :
  wf_vitemap vm ->
  (exists vm' sz,
     vitemap_compress vm size = Some (vm', sz) /\
     frame_of (vm', sz) =
       le_split 4 size ++ flat_map chunk_record (chunks_in vm) /\
     forall c h payload,
       In c (chunks_in vm) -> chunk_record c = h :: payload ->
       header_category h = 0 ->
       StronglySorted lt (map position_of payload) /\
       (forall p, In p (map position_of payload) -> (p < 256)%nat) /\
       (forall i j, (i < 32)%nat -> (j < 8)%nat ->
          (In (8 * i + j)%nat (map position_of payload) <->
           Z.testbit (byte.unsigned (nth i c Byte.x00)) (Z.of_nat j)
             = true))) /\
  compressed_frame (context_with 32 single_bit_input) 32 =
    Some (bytes [0x20; 0x00; 0x00; 0x00; 0x01; 0x7C]).
Proof.
  intros Hwf. split; [|vm_compute; reflexivity].
  destruct (vitemap_compress_spec vm size Hwf) as (vm' & Hrun & Hframe & _).
  exists vm', (4 + Z.of_nat (length (records_of vm))).
  split; [assumption|]. split; [assumption|].
  intros c h payload Hin Hrec Hcat. pose proof (popcount_range c) as Hn.
  assert (Hlt : popcount c < 32).
  { destruct (Z.lt_ge_cases (popcount c) 32) as [Hlt|Hge]; [assumption|].
    exfalso.
    destruct (Z.lt_ge_cases 224 (popcount c)) as [Hgt|Hle].
    - rewrite chunk_record_dense in Hrec by assumption.
      apply cons_inj in Hrec as [<- _].
      rewrite header_category_byte in Hcat by lia. discriminate.
    - rewrite chunk_record_raw in Hrec by lia.
      apply cons_inj in Hrec as [<- _].
      rewrite header_category_byte in Hcat by lia. discriminate. }
  rewrite chunk_record_sparse in Hrec by assumption.
  apply cons_inj in Hrec as [_ <-].
  split; [apply set_positions_sorted|].
  split.
  - intros p Hp. now apply set_positions_In in Hp.
  - intros i j Hi Hj. rewrite set_positions_In, chunk_bit_byte by assumption.
    split; [now intros [_ H] | intros H; split; [lia | assumption]].
Qed.

(** C4 (as the code has it).  [vitemap_compress] compares [size] with
    nothing: for a well-formed context and a size above [max_size] it
    runs like any other call, writes the size into the prefix and one
    record per chunk of the input buffer, and returns the frame length;
    the input buffer is unchanged and the context stays well formed. *)
Theorem compress_oversize_not_rejected (vm : Vitemap) (size : Z) :
  wf_vitemap vm ->
  max_size vm < size ->
  exists vm' sz,
    vitemap_compress vm size = Some (vm', sz) /\
    sz = 4 + Z.of_nat (length (records_of vm)) /\
    frame_of (vm', sz) = le_split 4 size ++ records_of vm /\
    input vm' = input vm /\
    wf_vitemap vm'.
Proof.
  intros Hwf _.
  destruct (vitemap_compress_spec vm size Hwf)
    as (vm' & Hrun & Hframe & Hi & Hm & Hn & Hc & Ho & Hlo & Hh & _).
  exists vm', (4 + Z.of_nat (length (records_of vm))).
  repeat (split; [assumption || reflexivity|]).
  destruct Hwf as [H1 H2 H3 H4 H5 H6 H7].
  split; rewrite ?Hi, ?Hm, ?Hn, ?Hc, ?Hlo; assumption.
Qed.

(** C4, the claim as stated fails: a context of capacity 32 asked to
    compress 33 bytes is not rejected, and its output buffer is written
    (the prefix becomes 21 00 00 00). *)
Lemma compress_oversize_counterexample :
  let vm := vitemap_create 32 in
  max_size vm < 33 /\
  exists vm',
    vitemap_compress vm 33 = Some (vm', 5) /\
    firstn 5 (output vm') = bytes [0x21; 0x00; 0x00; 0x00; 0x00] /\
    output vm' <> output vm.
Proof.
  cbv zeta. split; [vm_compute; reflexivity|].
  eexists. split; [vm_compute; reflexivity|].
  split; [vm_compute; reflexivity|].
  intros H. apply (f_equal (fun l => hd Byte.x00 l)) in H.
  vm_compute in H. discriminate H.
Qed.

(** C6.  Size prefix and peek.  For a declared size [N] that does not
    exceed [max_size], as vite.h asks: a well-formed context compresses,
    the first four bytes of the frame are [N] as a little-endian 32-bit
    integer, and [vitemap_extract_decompressed_sizes] on the frame
    returns [N] and [32 * ceil(N / 32)].  And on any context whose
    [max_size] is a 32-bit multiple of 32, which is what
    [vitemap_create] computes for every size, a compression that returns
    leaves a prefix with the same two properties at the start of the
    output buffer. *)
Theorem size_prefix_and_peek (vm : Vitemap) (N : Z) :
  0 <= N <= max_size vm ->
  (wf_vitemap vm ->
   exists vm' sz,
     vitemap_compress vm N = Some (vm', sz) /\
     load_u32 (frame_of (vm', sz)) 0 = Some N /\
     vitemap_extract_decompressed_sizes (frame_of (vm', sz)) =
       Some (N, 32 * ceil32 N)) /\
  (max_size vm < 2 ^ 32 -> max_size vm mod 32 = 0 ->
   forall vm' sz,
     vitemap_compress vm N = Some (vm', sz) ->
     load_u32 (output vm') 0 = Some N /\
     vitemap_extract_decompressed_sizes (output vm') =
       Some (N, 32 * ceil32 N)) /\
  (forall size,
     0 <= max_size (vitemap_create size) < 2 ^ 32 /\
     max_size (vitemap_create size) mod 32 = 0).
Proof.
  intros HN.
  assert (Hval : 0 <= N <= 2 ^ 32 - 32 -> le_combine (le_split 4 N) = N).
  { intros HN'. rewrite le_combine_split. apply Z.mod_small.
    change (Z.of_nat 4 * 8) with 32. lia. }
  split; [|split].
  - intros Hwf.
    assert (HN' : 0 <= N <= 2 ^ 32 - 32) by (destruct Hwf; lia).
    destruct (vitemap_compress_spec vm N Hwf) as (vm' & Hrun & Hframe & _).
    exists vm', (4 + Z.of_nat (length (records_of vm))).
    split; [assumption|].
    assert (Hpre : load (frame_of (vm', 4 + Z.of_nat (length (records_of vm))))
                     0 4 = Some (le_split 4 N)).
    { rewrite Hframe.
      pose proof (load_app_skip [] (le_split 4 N) (records_of vm)) as H.
      now rewrite length_le_split in H. }
    split; [unfold load_u32; now rewrite Hpre, Hval|].
    now apply extract_sizes_of_prefix.
  - intros Hms Hmod vm' sz Hrun.
    assert (HN' : 0 <= N <= 2 ^ 32 - 32).
    { apply Z.mod_divide in Hmod; [|lia]. destruct Hmod as [q Hq]. lia. }
    pose proof (vitemap_compress_prefix _ _ _ _ Hrun) as Hpre.
    split; [unfold load_u32; now rewrite Hpre, Hval|].
    now apply extract_sizes_of_prefix.
  - apply max_size_vitemap_create.
Qed.

(** C5 (as the code has it).  Thirty-two bytes of 0xAA compress to the
    37-byte frame 20 00 00 00, A0, then the 32 bytes 0xAA: the header of
    a raw record is [32 | 0b10000000 = 0xA0]. *)
Theorem raw_chunk_frame :
  compressed_frame (context_with 32 (repeat Byte.xaa 32)) 32 =
    Some (bytes [0x20; 0x00; 0x00; 0x00; 0xA0] ++ repeat Byte.xaa 32) /\
  length (bytes [0x20; 0x00; 0x00; 0x00; 0xA0] ++ repeat Byte.xaa 32)
    = 37%nat /\
  header_category Byte.xa0 = 2 /\ header_length Byte.xa0 = 32.
Proof. repeat split; vm_compute; reflexivity. Qed.

(** C5, the claim as stated fails: the frame is not the one with header
    byte 0x9F. *)
Lemma raw_chunk_frame_counterexample :
  compressed_frame (context_with 32 (repeat Byte.xaa 32)) 32 <>
    Some (bytes [0x20; 0x00; 0x00; 0x00; 0x9F] ++ repeat Byte.xaa 32).
Proof. vm_compute. discriminate. Qed.

(** ** The claims about decompression *)

(** C3 (as the code has it).  [vitemap_decompress] returns nothing and
    signals no error.  On a record whose header has category bits 11 the
    round writes nothing, moves the input cursor past the header and the
    number of bytes in its length field, moves the output cursor by 32,
    and the loop goes on. *)
Theorem reserved_category_skipped (fuel : nat) (data : buffer)
    (end_ pos : nat) (h : byte) (out : buffer) (opos : nat) :
  (pos < end_)%nat ->
  load data pos 1 = Some [h] ->
  header_category h = 3 ->
  decompress_bucket data pos out opos =
    Some ((pos + 1 + Z.to_nat (header_length h))%nat, out) /\
  decompress_loop (S fuel) data end_ pos out opos =
    decompress_loop fuel data end_
      (pos + 1 + Z.to_nat (header_length h)) out (opos + 32).
Proof.
  intros Hlt Hh Hcat.
  assert (Hb : decompress_bucket data pos out opos =
               Some ((pos + 1 + Z.to_nat (header_length h))%nat, out))
    by (rewrite (decompress_bucket_header _ _ _ _ _ Hh), Hcat; reflexivity).
  split; [exact Hb|].
  now apply decompress_loop_step.
Qed.

(** C3, the claim as stated fails: in the seven-byte stream whose first
    record has header 0xC0 (category 11, length 0) and whose second
    record is 01 7C, the first record raises no error; the call returns
    with the first 32 output bytes as they were and the second record
    decoded into the next 32. *)
Lemma reserved_category_counterexample :
  header_category Byte.xc0 = 3 /\
  vitemap_decompress (bytes [0x00; 0x00; 0x00; 0x00; 0xC0; 0x01; 0x7C]) 7
    (repeat Byte.xff 64) =
  Some (repeat Byte.xff 32 ++ single_bit_input, 64%nat).
Proof. split; vm_compute; reflexivity. Qed.

Lemma existsb_ext_eq {A} (f g : A -> bool) (l : list A) :
  (forall x, f x = g x) -> existsb f l = existsb g l.
Proof.
  intros H. induction l as [|x l IH]; cbn [existsb]; [reflexivity|].
  now rewrite H, IH.
Qed.

(** The chunk [expand_and_scatter_256] stores for a payload has exactly
    the bits the payload names. *)
Lemma scattered_chunk_bit (P : list byte) (p : nat) :
  (p < 256)%nat ->
  chunk_bit (bytes_of_lanes (scatter_lanes P mm256_setzero_si256)) p =
  existsb (fun q => (position_of q =? p)%nat) P.
Proof.
  intros Hp.
  assert (Hq : (p / 64 < 4)%nat) by (apply Nat.Div0.div_lt_upper_bound; lia).
  assert (Hr : Forall (fun x => 0 <= x < 2 ^ 64) mm256_setzero_si256)
    by (repeat constructor; lia).
  rewrite chunk_bit_lane, chunk_lane_of_lanes;
    [| now apply scatter_lanes_length
     | now apply scatter_lanes_range | assumption].
  rewrite scatter_lanes_testbit by (reflexivity || assumption).
  replace (Z.testbit (nth (p / 64) mm256_setzero_si256 0)
             (Z.of_nat (p mod 64))) with false
    by (destruct (p / 64)%nat as [|[|[|[|l]]]]; [| | | |lia];
        cbn [nth mm256_setzero_si256]; now rewrite Z.testbit_0_l).
  cbn [orb]. apply existsb_ext_eq. intros q.
  pose proof (Nat.div_mod_eq (position_of q) 64).
  pose proof (Nat.div_mod_eq p 64).
  destruct (Nat.eqb_spec (position_of q) p) as [->|Hne].
  - now rewrite !Nat.eqb_refl.
  - destruct (Nat.eqb_spec (position_of q / 64) (p / 64));
      destruct (Nat.eqb_spec (position_of q mod 64) (p mod 64));
      cbn [andb]; (reflexivity || lia).
Qed.

(** C8.  Commutativity of inversion.  For a payload [P] of at most 31
    positions, the round that decodes the record with category bits 00
    and payload [P] writes the chunk [c0] that has exactly the bits named
    by [P]; the round that decodes the record with category bits 01 and
    the same payload writes the bitwise complement of [c0]. *)
Theorem inversion_commutes (data0 data1 : buffer) (pos : nat)
    (P : list byte) (out : buffer) (opos : nat) :
  (length P <= 31)%nat ->
  load data0 pos (S (length P)) =
    Some (header_byte 0 (Z.of_nat (length P)) :: P) ->
  load data1 pos (S (length P)) =
    Some (header_byte 1 (Z.of_nat (length P)) :: P) ->
  (opos + 32 <= length out)%nat ->
  exists c0,
    length c0 = 32%nat /\
    (forall p, (p < 256)%nat ->
       chunk_bit c0 p = existsb (fun q => (position_of q =? p)%nat) P) /\
    decompress_bucket data0 pos out opos =
      Some ((pos + 1 + length P)%nat,
            firstn opos out ++ c0 ++ skipn (opos + 32) out) /\
    decompress_bucket data1 pos out opos =
      Some ((pos + 1 + length P)%nat,
            firstn opos out ++ chunk_not c0 ++ skipn (opos + 32) out).
Proof.
  intros Hk H0 H1 Ho.
  apply (load_cons data0 pos _ P) in H0 as (Hh0 & HP0).
  apply (load_cons data1 pos _ P) in H1 as (Hh1 & HP1).
  set (v := scatter_lanes P mm256_setzero_si256).
  assert (Hvl : length v = 4%nat) by now apply scatter_lanes_length.
  assert (Hvr : Forall (fun x => 0 <= x < 2 ^ 64) v)
    by (apply scatter_lanes_range; repeat constructor; lia).
  assert (Hc0 : length (bytes_of_lanes v) = 32%nat)
    by (rewrite bytes_of_lanes_length, Hvl; reflexivity).
  exists (bytes_of_lanes v).
  split; [assumption|].
  split; [intros p Hp; now apply scattered_chunk_bit|].
  split.
  - rewrite (decompress_bucket_header _ _ _ _ _ Hh0).
    rewrite header_category_byte, header_length_byte by lia.
    rewrite Nat2Z.id, (expand_and_scatter_256_spec _ _ _ HP0).
    fold v. unfold mm256_storeu_si256.
    now rewrite store_chunk by assumption.
  - rewrite (decompress_bucket_header _ _ _ _ _ Hh1).
    rewrite header_category_byte, header_length_byte by lia.
    rewrite Nat2Z.id, (expand_and_scatter_256_spec _ _ _ HP1).
    fold v. unfold mm256_storeu_si256.
    destruct (store out opos (bytes_of_lanes v)) as [out1|] eqn:Hst.
    2:{ rewrite store_Some in Hst by lia. discriminate. }
    unfold mm256_loadu_si256.
    pose proof (load_store _ _ _ _ Hst) as Hld. rewrite Hc0 in Hld.
    rewrite Hld.
    pose proof (lanes_of_bytes_of_lanes v Hvr) as Hlv.
    rewrite Hvl in Hlv. rewrite Hlv, bytes_of_lanes_xor by assumption.
    assert (Hlen : length (bytes_of_lanes v) =
                   length (chunk_not (bytes_of_lanes v)))
      by now rewrite chunk_not_length.
    rewrite (store_store _ _ _ _ _ Hlen Hst).
    now rewrite store_chunk
      by (assumption || now rewrite chunk_not_length).
Qed.

(** ** Round trip *)

(** X13.  Round trip.  When the declared size fills the last chunk of
    the context ([ceil(N / 32) = num_buckets]) the frame decodes to
    exactly [32 * ceil(N / 32)] bytes: the input, then its zero
    padding. *)
Theorem roundtrip_exact_context (vm : Vitemap) (x : list byte)
    (out : buffer) :
  wf_vitemap vm ->
  ceil32 (Z.of_nat (length x)) = num_buckets vm ->
  input vm =
    x ++ repeat Byte.x00
           (Z.to_nat (32 * ceil32 (Z.of_nat (length x))) - length x) ->
  (Z.to_nat (32 * ceil32 (Z.of_nat (length x))) <= length out)%nat ->
  exists vm' sz,
    vitemap_compress vm (Z.of_nat (length x)) = Some (vm', sz) /\
    vitemap_decompress (output vm') sz out =
      Some (x ++
            repeat Byte.x00
              (Z.to_nat (32 * ceil32 (Z.of_nat (length x))) - length x) ++
            skipn (Z.to_nat (32 * ceil32 (Z.of_nat (length x)))) out,
            Z.to_nat (32 * ceil32 (Z.of_nat (length x)))).
Proof.
  intros Hwf Hnb Hin Hout.
  assert (Hlen : length (input vm)
                 = Z.to_nat (32 * ceil32 (Z.of_nat (length x)))).
  { destruct Hwf as [H1 H2 H3 H4 H5 H6 H7]. lia. }
  destruct (roundtrip_context vm (Z.of_nat (length x)) out Hwf
              ltac:(lia)) as (vm' & sz & Hrun & Hdec).
  exists vm', sz. split; [assumption|].
  rewrite Hdec, Hlen. rewrite Hin at 1. now rewrite <- app_assoc.
Qed.

(** C1, on a context larger than the input.  A context created for 64
    bytes holds the one-byte input 01; compressing with declared size 1
    gives the 7-byte frame 01 00 00 00, 01 00, 00 with one record for
    each of the two chunks of the context.  The peek reports a decode
    buffer of 32 bytes, yet decoding writes 64 bytes: it faults on a
    32-byte buffer and overwrites all of a 64-byte one. *)
Theorem roundtrip_oversized_context :
  let vm := context_with 64 [Byte.x01] in
  1 <= max_size vm /\
  32 * ceil32 1 = 32 /\
  exists vm',
    vitemap_compress vm 1 = Some (vm', 7) /\
    frame_of (vm', 7) = bytes [0x01; 0x00; 0x00; 0x00; 0x01; 0x00; 0x00] /\
    vitemap_extract_decompressed_sizes (output vm') = Some (1, 32) /\
    vitemap_decompress (output vm') 7 (repeat Byte.xff 32) = None /\
    vitemap_decompress (output vm') 7 (repeat Byte.xff 64) =
      Some (Byte.x01 :: repeat Byte.x00 63, 64%nat).
Proof.
  cbv zeta. split; [vm_compute; discriminate|].
  split; [reflexivity|].
  eexists. split; [vm_compute; reflexivity|].
  repeat split; vm_compute; reflexivity.
Qed.

(** * Further properties of the code

    The theorems from here on are about the functions the claims above
    leave aside: the two tables, the bit primitives, [vitemap_create],
    the decoder on arbitrary streams, and the two calling programs. *)

(** ** More on loads, stores and lists *)

Lemma store_None m off bs :
  (length m < off + length bs)%nat -> store m off bs = None.
Proof.
  intros H. unfold store.
  destruct (Nat.leb_spec (off + length bs) (length m)); [lia | reflexivity].
Qed.

Lemma store_skipn_after m off bs m' k :
  store m off bs = Some m' -> (off + length bs <= k)%nat ->
  skipn k m' = skipn k m.
Proof.
  intros H Hk. pose proof (store_skipn _ _ _ _ H) as Hs.
  replace k with ((k - (off + length bs)) + (off + length bs))%nat by lia.
  rewrite <- (skipn_skipn (k - (off + length bs)) (off + length bs) m').
  rewrite <- (skipn_skipn (k - (off + length bs)) (off + length bs) m).
  now rewrite Hs.
Qed.

Lemma store_whole (m bs : list byte) :
  length bs = length m -> store m 0 bs = Some bs.
Proof.
  intros H. rewrite store_Some by lia. cbn [firstn app Nat.add].
  rewrite skipn_all2 by lia. now rewrite app_nil_r.
Qed.

Lemma store_chunk_if out opos c :
  length c = 32%nat ->
  store out opos c =
  if (opos + 32 <=? length out)%nat
  then Some (firstn opos out ++ c ++ skipn (opos + 32) out) else None.
Proof.
  intros Hc. destruct (Nat.leb_spec (opos + 32) (length out)).
  - now apply store_chunk.
  - apply store_None. lia.
Qed.

Lemma load_after_prefix (pre body : list byte) (off len : nat) :
  (length pre <= off)%nat ->
  load (pre ++ body) off len = load body (off - length pre) len.
Proof.
  intros H. unfold load. rewrite length_app.
  destruct (Nat.leb_spec (off + len) (length pre + length body));
    destruct (Nat.leb_spec (off - length pre + len) (length body)); try lia;
    [|reflexivity].
  rewrite skipn_app, skipn_all2 by lia. reflexivity.
Qed.

Lemma skipn_repeat {A} (b : A) (k n : nat) :
  skipn k (repeat b n) = repeat b (n - k).
Proof.
  revert n. induction k as [|k IH]; intros n.
  - now rewrite Nat.sub_0_r.
  - destruct n as [|n]; [reflexivity|]. cbn [repeat skipn]. apply IH.
Qed.

Lemma firstn_padded (x : list byte) (k : nat) :
  firstn (length x) (x ++ repeat Byte.x00 k) = x.
Proof.
  rewrite firstn_app, firstn_all, Nat.sub_diag, firstn_O. apply app_nil_r.
Qed.

Lemma chunk_bit_beyond (c : list byte) (p : nat) :
  (8 * length c <= p)%nat -> chunk_bit c p = false.
Proof.
  intros H. unfold chunk_bit.
  rewrite nth_overflow.
  - unfold byte_bit. change (byte.unsigned Byte.x00) with 0.
    apply Z.testbit_0_l.
  - apply Nat.div_le_lower_bound; lia.
Qed.

(** ** The lookup table *)

Lemma bit_lookup_at_length (b : byte) : length (bit_lookup_at b) = 4%nat.
Proof. rewrite bit_lookup_at_row. apply bit_lookup_row_length. Qed.

Lemma bit_lookup_at_range (b : byte) :
  Forall (fun x => 0 <= x < 2 ^ 64) (bit_lookup_at b).
Proof. rewrite bit_lookup_at_row. apply bit_lookup_row_range. Qed.

Lemma eqb_div_mod_64 (n p : nat) :
  ((n / 64 =? p / 64)%nat && (n mod 64 =? p mod 64)%nat)%bool = (p =? n)%nat.
Proof.
  pose proof (Nat.div_mod_eq n 64). pose proof (Nat.div_mod_eq p 64).
  destruct (Nat.eqb_spec p n) as [->|Hne].
  - now rewrite !Nat.eqb_refl.
  - destruct (Nat.eqb_spec (n / 64) (p / 64));
      destruct (Nat.eqb_spec (n mod 64) (p mod 64));
      cbn [andb]; (reflexivity || lia).
Qed.

(** X1.  The table filled by [init_bit_lookup].  The row of a byte value
    [b], laid out in memory as the 256-bit loads read it, is a 32-byte
    chunk with exactly one bit set: bit [b]. *)
Theorem bit_lookup_single_bit (b : byte) (p : nat) :
  length (bytes_of_lanes (bit_lookup_at b)) = 32%nat /\
  chunk_bit (bytes_of_lanes (bit_lookup_at b)) p = (p =? position_of b)%nat.
Proof.
  pose proof (bit_lookup_at_length b) as Hl.
  assert (H32 : length (bytes_of_lanes (bit_lookup_at b)) = 32%nat)
    by (rewrite bytes_of_lanes_length, Hl; reflexivity).
  split; [exact H32|].
  pose proof (position_of_lt b) as Hb.
  destruct (Nat.lt_ge_cases p 256) as [Hp|Hp].
  - assert (Hq : (p / 64 < 4)%nat) by (apply Nat.Div0.div_lt_upper_bound; lia).
    rewrite chunk_bit_lane, chunk_lane_of_lanes
      by (assumption || apply bit_lookup_at_range).
    rewrite bit_lookup_at_row, bit_lookup_row_testbit by assumption.
    apply eqb_div_mod_64.
  - rewrite chunk_bit_beyond by lia.
    symmetry. apply Nat.eqb_neq. lia.
Qed.

(** ** The bit primitives *)

(** X2.  [popcount_256] returns the number of set bits among the 256 bits
    at [ptr], a value between 0 and 256; it reads 32 bytes, and faults
    exactly when fewer than 32 bytes are left from [ptr]. *)
Theorem popcount_256_counts_bits (m : buffer) (ptr : nat) :
  popcount_256 m ptr =
    (if (ptr + 32 <=? length m)%nat
     then Some (popcount (firstn 32 (skipn ptr m))) else None) /\
  0 <= popcount (firstn 32 (skipn ptr m)) <= 256.
Proof.
  split; [|apply popcount_range].
  destruct (Nat.leb_spec (ptr + 32) (length m)) as [Hle|Hgt].
  - apply popcount_256_spec. now apply load_Some.
  - unfold popcount_256, mm256_loadu_si256, load.
    destruct (Nat.leb_spec (ptr + 32) (length m)); [lia | reflexivity].
Qed.

(** The chunk [c] lies at [src] in [srcbuf]: what the loop leaves in the
    destination, byte for byte. *)
Section ChunkAtExact.
Variable srcbuf : buffer.
Variable src : nat.
Variable c : list byte.
Hypothesis chunk_at : load srcbuf src 32 = Some c.

Lemma extract_and_compact_loop_exact (n : nat) :
  forall l out dst,
    (l + S n = 4)%nat ->
    extract_and_compact_loop (S n) srcbuf (src + 8 * l) (64 * l) out dst =
    if (dst + length (positions_from c l n) + 64 <=? length out)%nat
    then Some (firstn dst out ++ positions_from c l (S n) ++
               repeat Byte.x00 (64 - length (lane_positions c 3)) ++
               skipn (dst + length (positions_from c l n) + 64) out)
    else None.
Proof.
  induction n as [|n IH]; intros l out dst Hl.
  - assert (l = 3)%nat by lia. subst l.
    cbn [extract_and_compact_loop].
    rewrite indices_lane by lia.
    rewrite (load_lane srcbuf src c chunk_at) by lia.
    unfold mm512_maskz_compress_epi8. rewrite compress_lane.
    pose proof (lane_positions_le c 3) as Hle.
    change (positions_from c 3 0) with (@nil byte).
    change (positions_from c 3 1) with (lane_positions c 3 ++ []).
    generalize dependent (lane_positions c 3). intros sel Hle.
    cbn [length]. rewrite Nat.add_0_r, app_nil_r.
    unfold mm512_storeu_epi8.
    assert (Hlen : length (sel ++ repeat Byte.x00 (64 - length sel)) = 64%nat)
      by (rewrite length_app, repeat_length; lia).
    destruct (Nat.leb_spec (dst + 64) (length out)) as [Hroom|Hno].
    + rewrite store_Some by lia. rewrite Hlen, <- app_assoc. reflexivity.
    + rewrite store_None by lia. reflexivity.
  - rewrite extract_and_compact_loop_S.
    rewrite indices_lane by lia.
    rewrite (load_lane srcbuf src c chunk_at) by lia.
    cbv zeta.
    unfold mm512_maskz_compress_epi8. rewrite compress_lane.
    pose proof (lane_positions_le c l) as Hle.
    rewrite <- lane_positions_length, Nat2Z.id.
    rewrite (positions_from_S c l (S n)), (positions_from_S c l n).
    rewrite length_app.
    replace (src + 8 * l + 8)%nat with (src + 8 * S l)%nat by lia.
    replace (64 * l + 64)%nat with (64 * S l)%nat by lia.
    specialize (IH (S l)).
    revert IH.
    generalize (positions_from c (S l) (S n)) (positions_from c (S l) n)
               (repeat Byte.x00 (64 - length (lane_positions c 3))).
    generalize dependent (lane_positions c l).
    intros sel Hle pS pn zs IH.
    unfold mm512_storeu_epi8.
    assert (Hlen : length (sel ++ repeat Byte.x00 (64 - length sel)) = 64%nat)
      by (rewrite length_app, repeat_length; lia).
    destruct (store out dst (sel ++ repeat Byte.x00 (64 - length sel)))
      as [out1|] eqn:Hst.
    + pose proof (store_length _ _ _ _ Hst) as Hl1.
      pose proof (store_inv _ _ _ _ Hst) as (Hroom & _).
      rewrite IH by lia. rewrite Hl1.
      replace (dst + (length sel + length pn) + 64)%nat
        with (dst + length sel + length pn + 64)%nat by lia.
      destruct (Nat.leb_spec (dst + length sel + length pn + 64) (length out));
        [|reflexivity].
      rewrite (store_firstn _ _ _ _ (length sel) Hst) by lia.
      rewrite firstn_app, firstn_all, Nat.sub_diag, firstn_O, app_nil_r.
      rewrite (store_skipn_after _ _ _ _ _ Hst) by lia.
      rewrite <- !app_assoc. reflexivity.
    + destruct (Nat.leb_spec (dst + (length sel + length pn) + 64)
                  (length out)) as [Hroom|]; [|reflexivity].
      rewrite store_Some in Hst by lia. discriminate.
Qed.
End ChunkAtExact.

(** X3.  The whole effect of [extract_and_compact_256], with the table
    of [init_indices].  The positions of the set bits of the chunk are
    written from [dst] on, in ascending order; the last of the four
    64-byte stores, the one for bits 192 to 255, starts after the
    positions of bits 0 to 191 and zeroes what follows the positions up
    to its own end; nothing else changes.  The call faults exactly when
    the destination ends before the end of that last store. *)
Theorem extract_and_compact_256_effect (srcbuf : buffer) (src : nat)
    (c : list byte) (out : buffer) (dst : nat) :
  load srcbuf src 32 = Some c ->
  extract_and_compact_256 srcbuf src out dst =
    if (dst + length (positions_from c 0 3) + 64 <=? length out)%nat
    then Some (firstn dst out ++ set_positions c ++
               repeat Byte.x00 (64 - length (lane_positions c 3)) ++
               skipn (dst + length (positions_from c 0 3) + 64) out)
    else None.
Proof.
  intros Hc. rewrite set_positions_lanes.
  unfold extract_and_compact_256, BUCKET_SIZE_U64.
  pose proof (extract_and_compact_loop_exact srcbuf src c Hc 3 0 out dst
                eq_refl) as H.
  replace (src + 8 * 0)%nat with src in H by lia. exact H.
Qed.

Lemma compress_select_length_le (k i : Z) (a : list byte) :
  (length (compress_select k i a) <= length a)%nat.
Proof.
  revert i. induction a as [|x a IH]; intros i; cbn [compress_select length];
    [lia|].
  destruct (Z.testbit k i); cbn [length]; specialize (IH (i + 1)); lia.
Qed.

Lemma mm512_maskz_compress_epi8_length (k : Z) (a : m512) :
  length a = 64%nat -> length (mm512_maskz_compress_epi8 k a) = 64%nat.
Proof.
  intros Ha. unfold mm512_maskz_compress_epi8.
  pose proof (compress_select_length_le k 0 a).
  rewrite length_app, repeat_length. lia.
Qed.

(** The first store of [extract_and_compact_256] needs 64 bytes at
    [dst]. *)
Lemma extract_and_compact_256_no_room srcbuf src dstbuf dst :
  (length dstbuf < dst + 64)%nat ->
  extract_and_compact_256 srcbuf src dstbuf dst = None.
Proof.
  intros H. unfold extract_and_compact_256, BUCKET_SIZE_U64.
  rewrite extract_and_compact_loop_S.
  destruct (mm512_loadu_si512 indices 0) as [iv|] eqn:Hiv; [|reflexivity].
  destruct (load_u64 srcbuf src) as [lane|]; [|reflexivity].
  cbv zeta. unfold mm512_storeu_epi8.
  apply load_inv in Hiv as (_ & _ & Hlen).
  rewrite store_None; [reflexivity|].
  rewrite mm512_maskz_compress_epi8_length by assumption. lia.
Qed.

Lemma scattered_chunk_length (P : list byte) :
  length (bytes_of_lanes (scatter_lanes P mm256_setzero_si256)) = 32%nat.
Proof.
  rewrite bytes_of_lanes_length, scatter_lanes_length; reflexivity.
Qed.

Lemma scattered_chunk_bit_all (P : list byte) (p : nat) :
  chunk_bit (bytes_of_lanes (scatter_lanes P mm256_setzero_si256)) p =
  existsb (fun q => (position_of q =? p)%nat) P.
Proof.
  destruct (Nat.lt_ge_cases p 256) as [Hp|Hp].
  - now apply scattered_chunk_bit.
  - rewrite chunk_bit_beyond by (rewrite scattered_chunk_length; lia).
    symmetry. apply not_true_is_false. intros H.
    apply existsb_exists in H as (q & _ & Hq).
    apply Nat.eqb_eq in Hq. pose proof (position_of_lt q). lia.
Qed.

Lemma existsb_same_elements {A} (f : A -> bool) (P Q : list A) :
  (forall q, In q P <-> In q Q) -> existsb f P = existsb f Q.
Proof.
  intros H. apply eq_true_iff_eq. rewrite !existsb_exists.
  split; intros (q & Hin & Hq); exists q; (split; [now apply H | assumption]).
Qed.

(** X4.  [expand_and_scatter_256] on a payload of any length.  It
    replaces the 32 bytes at [dst] by the chunk whose set bits are
    exactly the positions the payload lists, and touches nothing else; it
    faults exactly when fewer than 32 bytes are left at [dst].  Order and
    repetition in the payload do not matter: two payloads that list the
    same positions give the same result. *)
Theorem expand_and_scatter_256_bits (srcbuf : buffer) (src : nat)
    (P : list byte) (dstbuf : buffer) (dst : nat) :
  load srcbuf src (length P) = Some P ->
  exists c,
    length c = 32%nat /\
    (forall p, chunk_bit c p =
               existsb (fun q => (position_of q =? p)%nat) P) /\
    expand_and_scatter_256 srcbuf src (length P) dstbuf dst =
      (if (dst + 32 <=? length dstbuf)%nat
       then Some (firstn dst dstbuf ++ c ++ skipn (dst + 32) dstbuf)
       else None) /\
    forall srcbuf' src' Q,
      load srcbuf' src' (length Q) = Some Q ->
      (forall q, In q P <-> In q Q) ->
      expand_and_scatter_256 srcbuf' src' (length Q) dstbuf dst =
      expand_and_scatter_256 srcbuf src (length P) dstbuf dst.
Proof.
  intros HP.
  exists (bytes_of_lanes (scatter_lanes P mm256_setzero_si256)).
  split; [apply scattered_chunk_length|].
  split; [apply scattered_chunk_bit_all|].
  split.
  - rewrite (expand_and_scatter_256_spec _ _ _ HP).
    unfold mm256_storeu_si256. apply store_chunk_if, scattered_chunk_length.
  - intros srcbuf' src' Q HQ Hsame.
    rewrite (expand_and_scatter_256_spec _ _ _ HP).
    rewrite (expand_and_scatter_256_spec _ _ _ HQ).
    unfold mm256_storeu_si256. f_equal. apply chunk_ext;
      try apply scattered_chunk_length.
    intros p _. rewrite !scattered_chunk_bit_all.
    symmetry. now apply existsb_same_elements.
Qed.

(** X5.  The two primitives are inverse to each other on every chunk,
    whatever its number of set bits: scattering the positions
    [extract_and_compact_256] wrote, with the popcount as their number,
    gives the chunk back. *)
Theorem extract_then_scatter_roundtrip (srcbuf : buffer) (src : nat)
    (c : list byte) (mid : buffer) (dst : nat) (out : buffer) (opos : nat) :
  load srcbuf src 32 = Some c ->
  (dst + length (set_positions c) + 64 <= length mid)%nat ->
  (opos + 32 <= length out)%nat ->
  exists mid',
    extract_and_compact_256 srcbuf src mid dst = Some mid' /\
    expand_and_scatter_256 mid' dst (Z.to_nat (popcount c)) out opos =
      Some (firstn opos out ++ c ++ skipn (opos + 32) out).
Proof.
  intros Hc Hroom Ho.
  pose proof (load_inv _ _ _ _ Hc) as (_ & _ & Hlc).
  destruct (extract_and_compact_256_spec srcbuf src c Hc mid dst Hroom)
    as (mid' & Hrun & Hlen & Hpre).
  exists mid'. split; [exact Hrun|].
  pose proof (set_positions_length c) as Hk.
  pose proof (scatter_set_positions c) as Hsc.
  pose proof (bytes_of_lanes_of_bytes 4 c Hlc) as Hbl.
  revert Hroom Hpre Hk Hsc.
  generalize (set_positions c) (popcount c). intros P n Hroom Hpre Hk Hsc.
  replace (Z.to_nat n) with (length P) by lia.
  assert (HP : load mid' dst (length P) = Some P).
  { assert (Hd : length (firstn dst mid) = dst)
      by (rewrite length_firstn; lia).
    rewrite <- Hd at 1. apply load_of_prefix. now rewrite Hd. }
  rewrite (expand_and_scatter_256_spec _ _ _ HP), Hsc.
  unfold mm256_storeu_si256. rewrite Hbl.
  now apply store_chunk.
Qed.

Lemma byte_not_involutive (b : byte) : byte_not (byte_not b) = b.
Proof.
  apply byte_ext. intros j Hj.
  rewrite !byte_not_bit by assumption. apply negb_involutive.
Qed.

Lemma chunk_not_involutive (c : list byte) : chunk_not (chunk_not c) = c.
Proof.
  unfold chunk_not. rewrite map_map. rewrite <- (map_id c) at 2.
  apply map_ext. intros b. apply byte_not_involutive.
Qed.

Lemma inverted_chunk_not (c : list byte) :
  length c = 32%nat -> inverted_chunk c = chunk_not c.
Proof.
  intros Hc. unfold inverted_chunk.
  rewrite bytes_of_lanes_xor.
  - now rewrite (bytes_of_lanes_of_bytes 4 c Hc).
  - now rewrite lanes_of_bytes_4.
  - rewrite lanes_of_bytes_4.
    repeat constructor; apply chunk_lane_range.
Qed.

Lemma popcount_chunk_not (c : list byte) :
  length c = 32%nat -> popcount (chunk_not c) = 256 - popcount c.
Proof.
  intros Hc. rewrite <- clear_positions_length.
  unfold popcount, clear_positions. rewrite length_map. do 2 f_equal.
  apply filter_ext_in. intros p Hp. apply in_seq in Hp.
  apply chunk_not_bit. lia.
Qed.

Lemma clear_positions_chunk_not (c : list byte) :
  length c = 32%nat -> clear_positions (chunk_not c) = set_positions c.
Proof.
  intros Hc. unfold clear_positions, set_positions. f_equal.
  apply filter_ext_in. intros p Hp. apply in_seq in Hp.
  rewrite chunk_not_bit by lia. apply negb_involutive.
Qed.

(** X6.  [invert_256] writes the bitwise complement of the 32 source
    bytes at [dst] and nothing else.  The complement flips each of the
    256 bits, has [256 - n] set bits when the source has [n], and
    complementing twice gives the source back. *)
Theorem invert_256_complement (srcbuf : buffer) (src : nat) (c : list byte)
    (dstbuf : buffer) (dst : nat) :
  load srcbuf src 32 = Some c ->
  (dst + 32 <= length dstbuf)%nat ->
  invert_256 srcbuf src dstbuf dst =
    Some (firstn dst dstbuf ++ chunk_not c ++ skipn (dst + 32) dstbuf) /\
  (forall p, (p < 256)%nat ->
     chunk_bit (chunk_not c) p = negb (chunk_bit c p)) /\
  popcount (chunk_not c) = 256 - popcount c /\
  chunk_not (chunk_not c) = c.
Proof.
  intros Hc Hd.
  pose proof (load_inv _ _ _ _ Hc) as (_ & _ & Hlc).
  split; [|split; [|split]].
  - unfold invert_256, mm256_loadu_si256. rewrite Hc.
    unfold mm256_storeu_si256. fold (inverted_chunk c).
    rewrite inverted_chunk_not by assumption.
    apply store_chunk; [now rewrite chunk_not_length | assumption].
  - intros p Hp. apply chunk_not_bit. lia.
  - now apply popcount_chunk_not.
  - apply chunk_not_involutive.
Qed.

(** ** [vitemap_create] *)

Lemma vitemap_create_fields (size : Z) :
  0 <= size -> 32 * ceil32 size < 2 ^ 32 ->
  vitemap_create size =
  {| input := calloc (32 * ceil32 size);
     max_size := 32 * ceil32 size;
     num_buckets := ceil32 size;
     output := calloc (u32 (u32 (4 + 64 * ceil32 size) + 32));
     max_compressed_size := u32 (4 + 64 * ceil32 size);
     output_size := 0;
     helper_bucket := calloc 32 |}.
Proof.
  intros Hs Hw. pose proof (ceil32_bounds size Hs) as Hb.
  unfold vitemap_create, BUCKET_SIZE_U8.
  rewrite ceil32_spec by assumption.
  assert (E0 : u32 (ceil32 size) = ceil32 size)
    by (apply u32_small; lia).
  rewrite E0.
  assert (E1 : u32 (ceil32 size * 32) = 32 * ceil32 size)
    by (rewrite u32_small; lia).
  rewrite E1.
  assert (E2 : u32 (u32 (4 + 32 * ceil32 size) + 32 * ceil32 size) =
               u32 (4 + 64 * ceil32 size)).
  { rewrite u32_add_l. f_equal. lia. }
  rewrite E2. reflexivity.
Qed.

(** X7.  [vitemap_create] rounds the requested size up to whole buckets.
    For a size of at most [2 ^ 32 - 32] the context has
    [ceil(size / 32)] buckets, a capacity [max_size] of 32 times that,
    which is the least multiple of 32 not below the size, and a zeroed
    input buffer of that length; the scratch bucket is 32 zero bytes and
    [output_size] is 0.  For a size of at most [2 ^ 31 - 32] the output
    capacity is [4 + 2 * max_size] and the output buffer is that many
    zero bytes and 32 more. *)
Theorem vitemap_create_rounds_up (size : Z) :
  0 <= size <= 2 ^ 32 - 32 ->
  num_buckets (vitemap_create size) = ceil32 size /\
  max_size (vitemap_create size) = 32 * ceil32 size /\
  size <= max_size (vitemap_create size) < size + 32 /\
  input (vitemap_create size) =
    repeat Byte.x00 (Z.to_nat (max_size (vitemap_create size))) /\
  helper_bucket (vitemap_create size) = repeat Byte.x00 32 /\
  output_size (vitemap_create size) = 0 /\
  (size <= 2 ^ 31 - 32 ->
   max_compressed_size (vitemap_create size) =
     4 + 2 * max_size (vitemap_create size) /\
   output (vitemap_create size) =
     repeat Byte.x00
       (Z.to_nat (max_compressed_size (vitemap_create size) + 32))).
Proof.
  intros Hs. pose proof (ceil32_bounds size ltac:(lia)) as Hb.
  rewrite vitemap_create_fields by lia.
  cbn [num_buckets max_size max_compressed_size input output helper_bucket
       output_size].
  unfold calloc.
  repeat (split; [reflexivity || lia|]).
  intros Hs'.
  assert (E3 : u32 (4 + 64 * ceil32 size) = 4 + 64 * ceil32 size)
    by (rewrite u32_small; lia).
  rewrite E3.
  assert (E4 : u32 (4 + 64 * ceil32 size + 32) = 4 + 64 * ceil32 size + 32)
    by (rewrite u32_small; lia).
  rewrite E4. split; [lia | reflexivity].
Qed.

(** A bucket needs at least 33 bytes of output. *)
Lemma compress_bucket_no_room inbuf st :
  (length (c_outbuf st) < c_output st + 33)%nat ->
  compress_bucket inbuf st = None.
Proof.
  intros H. unfold compress_bucket.
  destruct (popcount_256 inbuf (c_input st)) as [count|]; [|reflexivity].
  destruct (count <? BUCKET_SIZE_U8).
  - destruct (store (c_outbuf st) (c_output st) [byte.of_Z count])
      as [ob|] eqn:Hst; [|reflexivity].
    apply store_length in Hst.
    rewrite extract_and_compact_256_no_room by lia. reflexivity.
  - destruct (u64 (BUCKET_SIZE - count) <? BUCKET_SIZE_U8).
    + destruct (store (c_outbuf st) (c_output st) _) as [ob|] eqn:Hst;
        [|reflexivity].
      apply store_length in Hst.
      destruct (invert_256 inbuf (c_input st) (c_helper st) 0) as [hb|];
        [|reflexivity].
      rewrite extract_and_compact_256_no_room by lia. reflexivity.
    + destruct (store (c_outbuf st) (c_output st) _) as [ob|] eqn:Hst;
        [|reflexivity].
      apply store_length in Hst.
      unfold memcpy.
      destruct (load inbuf (c_input st) (Z.to_nat BUCKET_SIZE_U8))
        as [bs|] eqn:Hld; [|reflexivity].
      apply load_inv in Hld as (_ & _ & Hlen).
      rewrite store_None; [reflexivity|].
      rewrite Hlen. change (Z.to_nat BUCKET_SIZE_U8) with 32%nat. lia.
Qed.

Lemma ceil32_top (size : Z) :
  2 ^ 31 - 32 < size <= 2 ^ 31 -> ceil32 size = 2 ^ 26.
Proof.
  intros H. unfold ceil32. symmetry.
  apply (Z.div_unique _ _ _ (size + 31 - 2 ^ 31)); lia.
Qed.

(** The context of a size from [2 ^ 31 - 31] to [2 ^ 31]. *)
Lemma vitemap_create_top (size : Z) :
  2 ^ 31 - 32 < size <= 2 ^ 31 ->
  vitemap_create size =
  {| input := calloc (2 ^ 31); max_size := 2 ^ 31;
     num_buckets := 2 ^ 26; output := calloc 36;
     max_compressed_size := 4; output_size := 0;
     helper_bucket := calloc 32 |}.
Proof.
  intros Hs. pose proof (ceil32_top size Hs) as Hc.
  rewrite vitemap_create_fields by lia.
  rewrite Hc. reflexivity.
Qed.

(** With fewer than 37 bytes of output no compression gets through its
    first bucket. *)
Lemma compress_without_room (vm : Vitemap) (s : Z) :
  (length (output vm) < 37)%nat -> 0 < num_buckets vm ->
  vitemap_compress vm s = None.
Proof.
  intros Hlen Hnb. unfold vitemap_compress, store_u32.
  destruct (store (output vm) 0 (le_split 4 s)) as [ob|] eqn:Hst;
    [|reflexivity].
  apply store_length in Hst.
  destruct (Z.to_nat (num_buckets vm)) as [|n] eqn:En; [lia|].
  cbn [compress_loop].
  rewrite compress_bucket_no_room; [reflexivity|].
  cbn [c_outbuf c_output]. lia.
Qed.

(** X8.  The capacity arithmetic of [vitemap_create] wraps around.  For
    a requested size from [2 ^ 31 - 31] to [2 ^ 31] the context has
    [2 ^ 26] buckets and [max_size = 2 ^ 31], and the 32-bit sum
    [4 + max_size + 32 * num_buckets] is 4: the output buffer has 36
    bytes.  Whatever the input buffer holds, [vitemap_compress] then
    writes past the end of the output buffer in its first bucket. *)
Theorem vitemap_create_capacity_wraps (size : Z) (inbuf : buffer) (s : Z) :
  2 ^ 31 - 32 < size <= 2 ^ 31 ->
  num_buckets (vitemap_create size) = 2 ^ 26 /\
  max_size (vitemap_create size) = 2 ^ 31 /\
  max_compressed_size (vitemap_create size) = 4 /\
  length (output (vitemap_create size)) = 36%nat /\
  vitemap_compress (vitemap_create size) s = None /\
  vitemap_compress (with_input (vitemap_create size) inbuf) s = None.
Proof.
  intros Hs. rewrite (vitemap_create_top size Hs).
  cbn [num_buckets max_size max_compressed_size output].
  do 3 (split; [reflexivity|]).
  split; [reflexivity|].
  split; apply compress_without_room; cbn [with_input output num_buckets];
    [rewrite calloc_length| |rewrite calloc_length|]; lia.
Qed.

(** ** The capacity overflow and the frame effect *)

Lemma load_calloc (n : Z) :
  32 <= n -> load (calloc n) 0 32 = Some (repeat Byte.x00 32).
Proof.
  intros Hn. unfold calloc.
  replace (Z.to_nat n) with (32 + (Z.to_nat n - 32))%nat by lia.
  rewrite repeat_app.
  pose proof (load_app_skip [] (repeat Byte.x00 32)
                (repeat Byte.x00 (Z.to_nat n - 32))) as H.
  exact H.
Qed.

(** C10, where the code breaks it.  [vitemap_create(2 ^ 31)] computes
    the output capacity [4 + max_size + 32 * num_buckets] in 32 bits: it
    is 4, and the output buffer has 36 bytes.  No compression on that
    context stays inside the output buffer, whatever the input buffer
    holds and whatever size is declared.  On the context as created the
    prefix and the header of the first record are written inside the
    buffer, the chunk is read inside the input buffer, and the first
    64-byte store of [extract_and_compact_256], at offset 5, runs over
    the end of the output buffer. *)
Theorem compress_frame_effect_overrun (inbuf : buffer) (s : Z) :
  let vm := vitemap_create (2 ^ 31) in
  num_buckets vm = 2 ^ 26 /\
  max_size vm = 2 ^ 31 /\
  max_compressed_size vm = 4 /\
  length (output vm) = 36%nat /\
  vitemap_compress vm (2 ^ 31) = None /\
  vitemap_compress (with_input vm inbuf) s = None /\
  exists ob ob',
    store_u32 (output vm) 0 (2 ^ 31) = Some ob /\
    load (input vm) 0 32 = Some (repeat Byte.x00 32) /\
    popcount_256 (input vm) 0 = Some 0 /\
    store ob 4 [byte.of_Z 0] = Some ob' /\
    length ob' = 36%nat /\
    extract_and_compact_256 (input vm) 0 ob' 5 = None.
Proof.
  cbv zeta.
  rewrite (vitemap_create_top (2 ^ 31)) by lia.
  cbn [num_buckets max_size max_compressed_size output input with_input
       output_size helper_bucket].
  do 3 (split; [reflexivity|]).
  split; [reflexivity|].
  assert (Hld : load (calloc (2 ^ 31)) 0 32 = Some (repeat Byte.x00 32))
    by (apply load_calloc; lia).
  revert Hld. generalize (calloc (2 ^ 31)). intros inbuf0 Hld.
  split; [|split].
  - apply compress_without_room; cbn [output num_buckets];
      [rewrite calloc_length|]; lia.
  - apply compress_without_room; cbn [with_input output num_buckets];
      [rewrite calloc_length|]; lia.
  - destruct (store_u32 (calloc 36) 0 (2 ^ 31)) as [ob|] eqn:Hob;
      [|vm_compute in Hob; discriminate].
    pose proof Hob as Hlob. unfold store_u32 in Hlob.
    apply store_length in Hlob. rewrite calloc_length in Hlob.
    destruct (store ob 4 [byte.of_Z 0]) as [ob'|] eqn:Hob'.
    2:{ rewrite store_Some in Hob' by (cbn [length]; lia). discriminate. }
    pose proof (store_length _ _ _ _ Hob') as Hlob'.
    exists ob, ob'.
    split; [reflexivity|]. split; [exact Hld|].
    split; [exact (popcount_256_spec _ _ _ Hld)|].
    split; [exact Hob'|]. split; [lia|].
    apply extract_and_compact_256_no_room. lia.
Qed.

(** ** More on [vitemap_compress] *)

Lemma compressed_frame_spec (vm : Vitemap) (size : Z) :
  wf_vitemap vm ->
  compressed_frame vm size = Some (le_split 4 size ++ records_of vm).
Proof.
  intros Hwf.
  destruct (vitemap_compress_spec vm size Hwf) as (vm' & Hrun & Hframe & _).
  unfold compressed_frame. rewrite Hrun. now rewrite Hframe.
Qed.

Lemma flat_map_length_ge {A} (f : A -> list byte) (l : list A) :
  (forall x, In x l -> (1 <= length (f x))%nat) ->
  (length l <= length (flat_map f l))%nat.
Proof.
  induction l as [|x l IH]; intros H; cbn [flat_map length]; [lia|].
  rewrite length_app.
  pose proof (H x (or_introl eq_refl)).
  assert ((length l <= length (flat_map f l))%nat)
    by (apply IH; intros y Hy; apply H; now right).
  lia.
Qed.

(** X9.  The size [vitemap_compress] returns.  On a well-formed context
    it is the length of the frame, at least [4 + num_buckets] (one byte a
    bucket) and at most [4 + 33 * num_buckets] (33 bytes a bucket), and
    it never exceeds the [max_compressed_size] the context was created
    with. *)
Theorem compressed_size_bounds (vm : Vitemap) (size : Z) :
  wf_vitemap vm ->
  exists vm' sz,
    vitemap_compress vm size = Some (vm', sz) /\
    4 + num_buckets vm <= sz <= 4 + 33 * num_buckets vm /\
    sz <= max_compressed_size vm /\
    length (frame_of (vm', sz)) = Z.to_nat sz.
Proof.
  intros Hwf.
  destruct (vitemap_compress_spec vm size Hwf)
    as (vm' & Hrun & Hframe & _ & _ & _ & _ & _ & Hlo & _ & Hle).
  pose proof (chunks_in_Forall vm Hwf) as Hall.
  rewrite Forall_forall in Hall.
  assert (Hge : (length (chunks_in vm) <= length (records_of vm))%nat).
  { apply flat_map_length_ge. intros c Hc.
    apply chunk_record_length. now apply Hall. }
  unfold chunks_in in Hge at 1. rewrite chunks_of_length in Hge.
  destruct Hwf as [Hnb Hwrap Hms Hmcs Hin Hout Hh].
  exists vm', (4 + Z.of_nat (length (records_of vm))).
  split; [assumption|].
  split; [lia|]. split; [lia|].
  rewrite Hframe, length_app, length_le_split. lia.
Qed.

Lemma chunks_of_repeat (b : byte) (n : nat) :
  chunks_of n (repeat b (32 * n)) = repeat (repeat b 32) n.
Proof.
  induction n as [|n IH]; [reflexivity|].
  replace (32 * S n)%nat with (32 + 32 * n)%nat by lia.
  rewrite repeat_app. cbn [chunks_of].
  change (repeat (repeat b 32) (S n))
    with (repeat b 32 :: repeat (repeat b 32) n).
  assert (Hl : length (repeat b 32) = 32%nat) by apply repeat_length.
  remember (repeat b 32) as r eqn:Er. clear Er.
  rewrite firstn_app, firstn_all2 by lia.
  rewrite skipn_app, skipn_all2 by lia.
  rewrite Hl, Nat.sub_diag. cbn [firstn skipn app].
  rewrite app_nil_r, IH. reflexivity.
Qed.

Lemma flat_map_repeat_singleton {A B} (f : A -> list B) (x : A) (y : B) n :
  f x = [y] -> flat_map f (repeat x n) = repeat y n.
Proof.
  intros H. induction n as [|n IH]; [reflexivity|].
  cbn [repeat]. rewrite flat_map_cons_eq, H, IH. reflexivity.
Qed.

Lemma chunk_record_zeros : chunk_record (repeat Byte.x00 32) = [Byte.x00].
Proof. vm_compute. reflexivity. Qed.

Lemma chunk_record_ones : chunk_record (repeat Byte.xff 32) = [Byte.x40].
Proof. vm_compute. reflexivity. Qed.

Lemma write_input_whole (vm : Vitemap) (data : list byte) :
  length data = length (input vm) ->
  write_input vm data = Some (with_input vm data).
Proof.
  intros Hl. unfold write_input.
  rewrite store_Some by lia. cbn [firstn app Nat.add].
  rewrite skipn_all2 by lia. now rewrite app_nil_r.
Qed.

Lemma context_with_whole (size : Z) (data : list byte) :
  length data = length (input (vitemap_create size)) ->
  input (context_with size data) = data.
Proof.
  intros Hl. unfold context_with. cbv zeta.
  now rewrite write_input_whole.
Qed.

Lemma records_of_uniform (vm : Vitemap) (b h : byte) :
  0 <= num_buckets vm ->
  input vm = repeat b (Z.to_nat (32 * num_buckets vm)) ->
  chunk_record (repeat b 32) = [h] ->
  records_of vm = repeat h (Z.to_nat (num_buckets vm)).
Proof.
  intros Hnb Hin Hrec. unfold records_of, chunks_in. rewrite Hin.
  replace (Z.to_nat (32 * num_buckets vm))
    with (32 * Z.to_nat (num_buckets vm))%nat by lia.
  rewrite chunks_of_repeat. now apply flat_map_repeat_singleton.
Qed.

(** X10.  The two extreme bitmaps.  A context that was just created
    (its input all zero) compresses to the size prefix followed by one
    byte 0x00 for each bucket; a context filled with 0xFF compresses to
    the prefix followed by one byte 0x40 for each bucket. *)
Theorem uniform_bitmap_frame (size s : Z) :
  0 <= size <= 2 ^ 31 - 32 ->
  compressed_frame (vitemap_create size) s =
    Some (le_split 4 s ++ repeat Byte.x00 (Z.to_nat (ceil32 size))) /\
  compressed_frame
    (context_with size (repeat Byte.xff (Z.to_nat (32 * ceil32 size)))) s =
    Some (le_split 4 s ++ repeat Byte.x40 (Z.to_nat (ceil32 size))).
Proof.
  intros Hs. pose proof (ceil32_bounds size ltac:(lia)) as Hb.
  assert (Hw : 64 * ceil32 size + 36 < 2 ^ 32) by lia.
  pose proof (wf_vitemap_create size ltac:(lia) Hw) as Hwf.
  pose proof (vitemap_create_num_buckets size ltac:(lia) Hw) as Hnb.
  assert (Hin : input (vitemap_create size) =
                repeat Byte.x00 (Z.to_nat (32 * ceil32 size))).
  { destruct Hwf as [_ _ Hms _ Hlen _ _]. rewrite Hnb in Hms.
    unfold vitemap_create in *. cbn [input max_size] in *.
    unfold calloc. now rewrite Hms. }
  split.
  - rewrite compressed_frame_spec by assumption.
    rewrite (records_of_uniform _ Byte.x00 Byte.x00), Hnb;
      [reflexivity | lia | now rewrite Hnb | exact chunk_record_zeros].
  - pose proof (wf_context_with size
                  (repeat Byte.xff (Z.to_nat (32 * ceil32 size))) Hwf) as Hwf'.
    destruct (context_with_fields size
                (repeat Byte.xff (Z.to_nat (32 * ceil32 size))))
      as (_ & Hnb' & _).
    rewrite compressed_frame_spec by assumption.
    rewrite (records_of_uniform _ Byte.xff Byte.x40), Hnb', Hnb;
      [reflexivity | lia | | exact chunk_record_ones].
    rewrite Hnb', Hnb. apply context_with_whole.
    now rewrite Hin, !repeat_length.
Qed.

Lemma one_bucket_context (c : list byte) :
  length c = 32%nat ->
  wf_vitemap (context_with 32 c) /\
  records_of (context_with 32 c) = chunk_record c.
Proof.
  intros Hc.
  assert (Hwf : wf_vitemap (vitemap_create 32))
    by (apply wf_vitemap_create; [lia | vm_compute; reflexivity]).
  split; [now apply wf_context_with|].
  unfold records_of, chunks_in.
  destruct (context_with_fields 32 c) as (_ & Hnb & _).
  rewrite Hnb.
  change (Z.to_nat (num_buckets (vitemap_create 32))) with 1%nat.
  rewrite context_with_whole by (rewrite Hc; reflexivity).
  cbn [chunks_of]. rewrite flat_map_cons_eq.
  rewrite firstn_all2 by lia. cbn [flat_map]. apply app_nil_r.
Qed.

(** X11.  Complementing a sparse bucket only flips the category.  For a
    32-byte input with [n < 32] set bits the frame is the prefix, the
    header [n] and the positions of the set bits; for its bitwise
    complement the frame is the prefix, the header [n | 0x40] and the
    same positions. *)
Theorem complement_flips_category (c : list byte) :
  length c = 32%nat -> popcount c < 32 ->
  compressed_frame (context_with 32 c) 32 =
    Some (le_split 4 32 ++ header_byte 0 (popcount c) :: set_positions c) /\
  compressed_frame (context_with 32 (chunk_not c)) 32 =
    Some (le_split 4 32 ++ header_byte 1 (popcount c) :: set_positions c).
Proof.
  intros Hc Hn. pose proof (popcount_range c) as Hr.
  destruct (one_bucket_context c Hc) as (Hwf & Hrec).
  destruct (one_bucket_context (chunk_not c)
              ltac:(now rewrite chunk_not_length)) as (Hwf' & Hrec').
  rewrite !compressed_frame_spec by assumption.
  rewrite Hrec, Hrec'.
  rewrite chunk_record_sparse by assumption.
  rewrite chunk_record_dense by (rewrite popcount_chunk_not; lia).
  rewrite popcount_chunk_not, clear_positions_chunk_not by assumption.
  replace (256 - (256 - popcount c)) with (popcount c) by lia.
  split; reflexivity.
Qed.

Lemma le_split_4_inj (a b : Z) :
  0 <= a < 2 ^ 32 -> 0 <= b < 2 ^ 32 -> le_split 4 a = le_split 4 b -> a = b.
Proof.
  intros Ha Hb H. apply (f_equal le_combine) in H.
  rewrite !le_combine_split in H.
  change (Z.of_nat 4 * 8) with 32 in H.
  now rewrite !Z.mod_small in H by assumption.
Qed.

(** Decoding a frame that stands on its own: a prefix and the records of
    a context. *)
Lemma decode_records (vm : Vitemap) (pre : list byte) (out : buffer) :
  wf_vitemap vm -> length pre = 4%nat ->
  (length (input vm) <= length out)%nat ->
  vitemap_decompress (pre ++ records_of vm)
    (Z.of_nat (length (pre ++ records_of vm))) out =
  Some (input vm ++ skipn (length (input vm)) out, length (input vm)).
Proof.
  intros Hwf Hpre Hout.
  destruct Hwf as [Hnb Hwrap Hms Hmcs Hin Hlo Hh].
  assert (Hlen : length (input vm) = (32 * Z.to_nat (num_buckets vm))%nat)
    by lia.
  pose proof (chunks_of_concat _ _ Hlen) as Hcat.
  pose proof (chunks_of_Forall _ _ Hlen) as Hall.
  pose proof (chunks_of_length (Z.to_nat (num_buckets vm)) (input vm)) as Hcl.
  unfold vitemap_decompress. rewrite Nat2Z.id, length_app, Hpre.
  pose proof (load_app_skip pre (records_of vm) []) as Hld.
  rewrite app_nil_r, Hpre in Hld.
  unfold records_of, chunks_in in *.
  rewrite (decompress_loop_spec _ _ _ 4%nat out 0%nat Hall Hld);
    [| lia | rewrite Hcl; lia].
  rewrite Hcat, Hcl, <- Hlen. reflexivity.
Qed.

(** X12.  Compression loses nothing.  Two well-formed contexts that
    compress to the same frame hold the same input buffer, and the sizes
    declared for them are the same. *)
Theorem compress_injective (vm1 vm2 : Vitemap) (s1 s2 : Z) :
  wf_vitemap vm1 -> wf_vitemap vm2 ->
  0 <= s1 < 2 ^ 32 -> 0 <= s2 < 2 ^ 32 ->
  compressed_frame vm1 s1 = compressed_frame vm2 s2 ->
  compressed_frame vm1 s1 <> None /\ input vm1 = input vm2 /\ s1 = s2.
Proof.
  intros Hwf1 Hwf2 Hs1 Hs2 Heq.
  rewrite (compressed_frame_spec vm1 s1 Hwf1) in *.
  rewrite (compressed_frame_spec vm2 s2 Hwf2) in Heq.
  split; [discriminate|].
  apply some_inj in Heq.
  pose proof Heq as Heq'.
  apply app_inj_length in Heq' as [Hp Hr];
    [|now rewrite !length_le_split].
  split; [|now apply le_split_4_inj].
  set (out := repeat Byte.x00 (length (input vm1) + length (input vm2))).
  pose proof (decode_records vm1 (le_split 4 s1) out Hwf1
                (length_le_split _ _)
                ltac:(subst out; rewrite repeat_length; lia)) as H1.
  pose proof (decode_records vm2 (le_split 4 s2) out Hwf2
                (length_le_split _ _)
                ltac:(subst out; rewrite repeat_length; lia)) as H2.
  rewrite Heq in H1. rewrite H1 in H2.
  injection H2 as Hbuf Hlen.
  apply app_inj_length in Hbuf as [Hin _]; assumption.
Qed.

(** X23.  The frame depends on the input buffer and the declared size
    only.  Two well-formed contexts with the same input buffer compress
    to the same frame, whatever their output buffers and scratch buckets
    held before: nothing a previous compression left behind shows in the
    frame. *)
Theorem compress_ignores_stale_buffers (vm1 vm2 : Vitemap) (s : Z) :
  wf_vitemap vm1 -> wf_vitemap vm2 ->
  input vm1 = input vm2 ->
  compressed_frame vm1 s <> None /\
  compressed_frame vm1 s = compressed_frame vm2 s.
Proof.
  intros Hwf1 Hwf2 Hin.
  rewrite (compressed_frame_spec vm1 s Hwf1).
  rewrite (compressed_frame_spec vm2 s Hwf2).
  split; [discriminate|].
  assert (Hnb : num_buckets vm1 = num_buckets vm2).
  { destruct Hwf1 as [_ _ Hm1 _ Hl1 _ _], Hwf2 as [_ _ Hm2 _ Hl2 _ _].
    rewrite Hin in Hl1. lia. }
  unfold records_of, chunks_in. now rewrite Hin, Hnb.
Qed.

(** ** [vitemap_extract_decompressed_sizes] on any stream *)

Lemma u32_buffer_size (N : Z) :
  0 <= N ->
  u32 (u32 (N / 32 + (if 0 <? N mod 32 then 1 else 0)) * 32) =
  u32 (32 * ceil32 N).
Proof.
  intros HN. rewrite ceil32_spec by assumption.
  unfold u32. rewrite Z.mul_mod_idemp_l by lia. f_equal. lia.
Qed.

Lemma ceil32_last (N : Z) :
  2 ^ 32 - 32 < N < 2 ^ 32 -> ceil32 N = 2 ^ 27.
Proof.
  intros H. unfold ceil32. symmetry.
  apply (Z.div_unique _ _ _ (N + 31 - 2 ^ 32)); lia.
Qed.

(** X24.  The peek on any stream.  [vitemap_extract_decompressed_sizes]
    reads the first four bytes and nothing else, and reads out of bounds
    exactly when the stream is shorter than that.  With [N] the
    little-endian value of those bytes it returns [N] and a buffer size
    that is always a multiple of 32: the least multiple of 32 not below
    [N] when [N <= 2 ^ 32 - 32], and 0 for the 31 larger values of
    [N]. *)
Theorem peek_on_any_stream (data : buffer) :
  let N := le_combine (firstn 4 data) in
  vitemap_extract_decompressed_sizes data =
    (if (4 <=? length data)%nat then Some (N, u32 (32 * ceil32 N))
     else None) /\
  0 <= N < 2 ^ 32 /\
  u32 (32 * ceil32 N) mod 32 = 0 /\
  (N <= 2 ^ 32 - 32 -> N <= u32 (32 * ceil32 N) < N + 32) /\
  (2 ^ 32 - 32 < N -> u32 (32 * ceil32 N) = 0).
Proof.
  intros N.
  assert (HN : 0 <= N < 2 ^ 32).
  { subst N. pose proof (le_combine_bound (firstn 4 data)) as [H0 H1].
    split; [assumption|].
    eapply Z.lt_le_trans; [exact H1|].
    apply Z.pow_le_mono_r; [lia|].
    pose proof (firstn_le_length 4 data). lia. }
  split; [|split; [exact HN|split; [apply u32_times_32|split]]].
  - unfold vitemap_extract_decompressed_sizes, load_u32, load.
    cbn [Nat.add skipn].
    destruct (4 <=? length data)%nat; [|reflexivity].
    fold N. unfold BUCKET_SIZE_U8.
    now rewrite u32_buffer_size by lia.
  - intros Hle. pose proof (ceil32_bounds N ltac:(lia)) as Hb.
    rewrite u32_small by lia. exact Hb.
  - intros Hgt. rewrite ceil32_last by lia. reflexivity.
Qed.

(** ** More on [vitemap_decompress] *)

(** X14.  The empty bitmap.  A context created for 0 bytes has no bucket:
    it compresses to the four bytes of the declared size and nothing
    more, and decoding that frame writes nothing.  More generally a call
    of [vitemap_decompress] with a size of 4 or less reads nothing and
    leaves the output as it was. *)
Theorem empty_bitmap_roundtrip (s : Z) (out : buffer) :
  exists vm',
    vitemap_compress (vitemap_create 0) s = Some (vm', 4) /\
    frame_of (vm', 4) = le_split 4 s /\
    vitemap_decompress (output vm') 4 out = Some (out, 0%nat) /\
    forall data size,
      size <= 4 -> vitemap_decompress data size out = Some (out, 0%nat).
Proof.
  assert (Hwf : wf_vitemap (vitemap_create 0))
    by (apply wf_vitemap_create; [lia | vm_compute; reflexivity]).
  destruct (vitemap_compress_spec (vitemap_create 0) s Hwf)
    as (vm' & Hrun & Hframe & _).
  change (4 + Z.of_nat (length (records_of (vitemap_create 0)))) with 4
    in Hrun, Hframe.
  change (records_of (vitemap_create 0)) with (@nil byte) in Hframe.
  rewrite app_nil_r in Hframe.
  exists vm'. split; [exact Hrun|]. split; [exact Hframe|].
  assert (Hdone : forall data size,
            size <= 4 -> vitemap_decompress data size out = Some (out, 0%nat)).
  { intros data size Hs. unfold vitemap_decompress.
    apply decompress_loop_done. lia. }
  split; [apply Hdone; lia | exact Hdone].
Qed.

(** Two streams that agree from offset [lo] on are read alike by the
    decoder once its cursor is at [lo] or beyond. *)
Section SameTail.
Variables d1 d2 : buffer.
Variable lo : nat.
Hypothesis same_loads :
  forall off len, (lo <= off)%nat -> load d1 off len = load d2 off len.

Lemma lookup_src_same (src i : nat) :
  (lo <= src)%nat -> lookup_src d1 src i = lookup_src d2 src i.
Proof. intros H. unfold lookup_src. rewrite same_loads by lia. reflexivity. Qed.

Lemma scatter_unrolled_same (fuel : nat) :
  forall src bucket_size i r,
    (lo <= src)%nat ->
    scatter_unrolled fuel d1 src bucket_size i r =
    scatter_unrolled fuel d2 src bucket_size i r.
Proof.
  induction fuel as [|fuel IH]; intros src bucket_size i r Hsrc;
    cbn [scatter_unrolled]; [reflexivity|].
  rewrite !(lookup_src_same src) by assumption.
  destruct (i + 4 <=? bucket_size)%nat; [|reflexivity].
  destruct (lookup_src d2 src i); [|reflexivity].
  destruct (lookup_src d2 src (i + 1)); [|reflexivity].
  destruct (lookup_src d2 src (i + 2)); [|reflexivity].
  destruct (lookup_src d2 src (i + 3)); [|reflexivity].
  now apply IH.
Qed.

Lemma scatter_tail_same (fuel : nat) :
  forall src bucket_size i r,
    (lo <= src)%nat ->
    scatter_tail fuel d1 src bucket_size i r =
    scatter_tail fuel d2 src bucket_size i r.
Proof.
  induction fuel as [|fuel IH]; intros src bucket_size i r Hsrc;
    cbn [scatter_tail]; [reflexivity|].
  rewrite !(lookup_src_same src) by assumption.
  destruct (i <? bucket_size)%nat; [|reflexivity].
  destruct (lookup_src d2 src i); [|reflexivity].
  now apply IH.
Qed.

Lemma expand_and_scatter_256_same src bucket_size dstbuf dst :
  (lo <= src)%nat ->
  expand_and_scatter_256 d1 src bucket_size dstbuf dst =
  expand_and_scatter_256 d2 src bucket_size dstbuf dst.
Proof.
  intros Hsrc. unfold expand_and_scatter_256.
  rewrite scatter_unrolled_same by assumption.
  destruct (scatter_unrolled bucket_size d2 src bucket_size 0
              mm256_setzero_si256) as [[i r]|]; [|reflexivity].
  now rewrite scatter_tail_same.
Qed.

Lemma decompress_bucket_same pos out opos :
  (lo <= pos)%nat ->
  decompress_bucket d1 pos out opos = decompress_bucket d2 pos out opos.
Proof.
  intros Hpos. unfold decompress_bucket, memcpy.
  rewrite same_loads by lia.
  destruct (load d2 pos 1) as [hb|]; [|reflexivity].
  rewrite !(expand_and_scatter_256_same (pos + 1)) by lia.
  rewrite (same_loads (pos + 1)%nat) by lia.
  reflexivity.
Qed.

Lemma decompress_loop_same (fuel : nat) :
  forall end_ pos out opos,
    (lo <= pos)%nat ->
    decompress_loop fuel d1 end_ pos out opos =
    decompress_loop fuel d2 end_ pos out opos.
Proof.
  induction fuel as [|fuel IH]; intros end_ pos out opos Hpos;
    cbn [decompress_loop]; [reflexivity|].
  destruct (pos <? end_)%nat; [|reflexivity].
  rewrite decompress_bucket_same by assumption.
  destruct (decompress_bucket d2 pos out opos) as [[pos' out']|] eqn:Hb;
    [|reflexivity].
  apply decompress_bucket_advances in Hb.
  apply IH. lia.
Qed.
End SameTail.

(** X15.  [vitemap_decompress] never reads the size prefix.  Two streams
    that differ only in their first four bytes decode alike, for every
    declared size and every output buffer, faults included. *)
Theorem decompress_ignores_prefix (pre1 pre2 body : list byte) (size : Z)
    (out : buffer) :
  length pre1 = 4%nat -> length pre2 = 4%nat ->
  vitemap_decompress (pre1 ++ body) size out =
  vitemap_decompress (pre2 ++ body) size out.
Proof.
  intros H1 H2. unfold vitemap_decompress.
  apply (decompress_loop_same _ _ 4%nat); [|lia].
  intros off len Hoff.
  rewrite !load_after_prefix by lia. now rewrite H1, H2.
Qed.

Lemma or_row_length (r : m256) (p : byte) :
  length r = 4%nat -> length (mm256_or_si256 r (bit_lookup_at p)) = 4%nat.
Proof.
  intros Hr. unfold mm256_or_si256.
  rewrite lanewise_length; [assumption|].
  now rewrite bit_lookup_at_row, bit_lookup_row_length.
Qed.

Lemma scatter_unrolled_length (fuel : nat) :
  forall srcbuf src bucket_size i r i' r',
    scatter_unrolled fuel srcbuf src bucket_size i r = Some (i', r') ->
    length r = 4%nat -> length r' = 4%nat.
Proof.
  induction fuel as [|fuel IH]; intros srcbuf src bucket_size i r i' r';
    cbn [scatter_unrolled].
  - destruct (i + 4 <=? bucket_size)%nat; [discriminate|].
    now intros [= <- <-].
  - destruct (i + 4 <=? bucket_size)%nat; [|now intros [= <- <-]].
    unfold lookup_src.
    destruct (load srcbuf (src + i) 1) as [b1|]; [|discriminate].
    destruct (load srcbuf (src + (i + 1)) 1) as [b2|]; [|discriminate].
    destruct (load srcbuf (src + (i + 2)) 1) as [b3|]; [|discriminate].
    destruct (load srcbuf (src + (i + 3)) 1) as [b4|]; [|discriminate].
    intros Hrun Hr. apply (IH _ _ _ _ _ _ _ Hrun).
    now repeat apply or_row_length.
Qed.

Lemma scatter_tail_length (fuel : nat) :
  forall srcbuf src bucket_size i r r',
    scatter_tail fuel srcbuf src bucket_size i r = Some r' ->
    length r = 4%nat -> length r' = 4%nat.
Proof.
  induction fuel as [|fuel IH]; intros srcbuf src bucket_size i r r';
    cbn [scatter_tail].
  - destruct (i <? bucket_size)%nat; [discriminate|].
    now intros [= <-].
  - destruct (i <? bucket_size)%nat; [|now intros [= <-]].
    unfold lookup_src.
    destruct (load srcbuf (src + i) 1) as [b1|]; [|discriminate].
    intros Hrun Hr. apply (IH _ _ _ _ _ _ Hrun).
    now apply or_row_length.
Qed.

Lemma slot_written_refl out opos : slot_written out out opos.
Proof. repeat split. Qed.

Lemma slot_written_store out opos bs out' :
  length bs = 32%nat -> store out opos bs = Some out' ->
  slot_written out out' opos.
Proof.
  intros Hl H. split; [|split].
  - now apply store_length in H.
  - apply (store_firstn_before _ _ _ _ opos H). lia.
  - rewrite <- Hl. apply (store_skipn _ _ _ _ H).
Qed.

Lemma slot_written_trans out out1 out2 opos :
  slot_written out out1 opos -> slot_written out1 out2 opos ->
  slot_written out out2 opos.
Proof.
  intros (H1 & H2 & H3) (H4 & H5 & H6). repeat split; congruence.
Qed.

Lemma expand_and_scatter_256_slot srcbuf src bucket_size out opos out' :
  expand_and_scatter_256 srcbuf src bucket_size out opos = Some out' ->
  slot_written out out' opos.
Proof.
  unfold expand_and_scatter_256.
  destruct (scatter_unrolled bucket_size srcbuf src bucket_size 0
              mm256_setzero_si256) as [[i r]|] eqn:H1; [|discriminate].
  destruct (scatter_tail bucket_size srcbuf src bucket_size i r)
    as [r'|] eqn:H2; [|discriminate].
  unfold mm256_storeu_si256. apply slot_written_store.
  rewrite bytes_of_lanes_length.
  apply scatter_unrolled_length in H1; [|reflexivity].
  apply scatter_tail_length in H2; [|assumption].
  now rewrite H2.
Qed.

(** Whatever the header byte says, a round changes at most the slot at
    [opos]. *)
Lemma decompress_bucket_slot data pos out opos pos' out' :
  decompress_bucket data pos out opos = Some (pos', out') ->
  slot_written out out' opos.
Proof.
  unfold decompress_bucket.
  destruct (load data pos 1) as [hb|]; [|discriminate].
  assert (Hcat0 : forall o,
            expand_and_scatter_256 data (pos + 1)
              (Z.to_nat (Z.land (byte.unsigned (hd Byte.x00 hb)) 0x3F))
              out opos = Some o -> slot_written out o opos)
    by (intros o; apply expand_and_scatter_256_slot).
  assert (Hcat1 : forall o,
            (out1 <- expand_and_scatter_256 data (pos + 1)
                       (Z.to_nat (Z.land (byte.unsigned (hd Byte.x00 hb)) 0x3F))
                       out opos ;;
             src_vec <- mm256_loadu_si256 out1 opos ;;
             mm256_storeu_si256 out1 opos
               (mm256_xor_si256 src_vec (mm256_set1_epi8 0xFF))) = Some o ->
            slot_written out o opos).
  { intros o.
    destruct (expand_and_scatter_256 _ _ _ _ _) as [o1|] eqn:He;
      [|discriminate].
    unfold mm256_loadu_si256.
    destruct (load o1 opos 32) as [bs|] eqn:Hv; [|discriminate].
    unfold mm256_storeu_si256. intros Hs.
    apply expand_and_scatter_256_slot in He.
    apply (slot_written_trans _ o1); [assumption|].
    refine (slot_written_store _ _ _ _ _ Hs).
    rewrite bytes_of_lanes_length. unfold mm256_xor_si256.
    rewrite lanewise_length; [reflexivity | reflexivity]. }
  assert (Hcat2 : forall o,
            memcpy out opos data (pos + 1) (Z.to_nat BUCKET_SIZE_U8) = Some o ->
            slot_written out o opos).
  { intros o. unfold memcpy.
    destruct (load data (pos + 1) (Z.to_nat BUCKET_SIZE_U8)) as [bs|] eqn:Hl;
      [|discriminate].
    intros Hs. apply load_inv in Hl as (_ & _ & Hlen).
    now apply (slot_written_store _ _ bs). }
  cbv zeta. revert Hcat0 Hcat1 Hcat2.
  generalize (expand_and_scatter_256 data (pos + 1)
                (Z.to_nat (Z.land (byte.unsigned (hd Byte.x00 hb)) 0x3F))
                out opos).
  generalize (memcpy out opos data (pos + 1) (Z.to_nat BUCKET_SIZE_U8)).
  intros m e Hcat0 Hcat1 Hcat2.
  destruct (Z.shiftr (byte.unsigned (hd Byte.x00 hb)) 6) as [|p|p];
    [| destruct p as [p|p|]; [| destruct p as [p|p|] |] |].
  all: cbv beta iota.
  all: first
         [ intros [= _ <-]; apply slot_written_refl
         | match goal with
           | |- match ?x with _ => _ end = _ -> _ =>
               destruct x as [o|] eqn:Hx; [|discriminate]
           end; intros [= _ <-]; auto ].
Qed.

Lemma decompress_loop_slots (fuel : nat) :
  forall data end_ pos out opos out' n,
    decompress_loop fuel data end_ pos out opos = Some (out', n) ->
    length out' = length out /\
    firstn opos out' = firstn opos out /\
    skipn n out' = skipn n out /\
    exists k, n = (opos + 32 * k)%nat /\ (k <= end_ - pos)%nat.
Proof.
  induction fuel as [|fuel IH]; intros data end_ pos out opos out' n;
    cbn [decompress_loop].
  - destruct (pos <? end_)%nat; [discriminate|].
    intros [= <- <-]. repeat split. exists 0%nat. lia.
  - destruct (Nat.ltb_spec pos end_) as [Hlt|Hge].
    2:{ intros [= <- <-]. repeat split. exists 0%nat. lia. }
    destruct (decompress_bucket data pos out opos) as [[pos1 out1]|] eqn:Hb;
      [|discriminate].
    intros Hrun.
    pose proof (decompress_bucket_advances _ _ _ _ _ _ Hb) as Hadv.
    apply decompress_bucket_slot in Hb as (Hl1 & Hf1 & Hs1).
    apply IH in Hrun as (Hl & Hf & Hs & k & Hn & Hk).
    change (Z.to_nat BUCKET_SIZE_U8) with 32%nat in *.
    split; [congruence|]. split; [|split].
    + apply (f_equal (firstn opos)) in Hf.
      rewrite !firstn_firstn in Hf.
      replace (Nat.min opos (opos + 32)) with opos in Hf by lia.
      congruence.
    + rewrite Hs. subst n.
      replace (opos + 32 + 32 * k)%nat with (32 * k + (opos + 32))%nat by lia.
      rewrite <- (skipn_skipn (32 * k) (opos + 32) out1).
      rewrite <- (skipn_skipn (32 * k) (opos + 32) out).
      now rewrite Hs1.
    + exists (S k). lia.
Qed.

Lemma lookup_src_inv srcbuf src i r :
  lookup_src srcbuf src i = Some r -> (src + i + 1 <= length srcbuf)%nat.
Proof.
  unfold lookup_src.
  destruct (load srcbuf (src + i) 1) as [bs|] eqn:H; [|discriminate].
  intros _. now apply load_inv in H.
Qed.

Lemma scatter_unrolled_reads (fuel : nat) :
  forall srcbuf src n i r i' r',
    scatter_unrolled fuel srcbuf src n i r = Some (i', r') ->
    (i <= n)%nat ->
    (i <= i' <= n)%nat /\ ((i < i')%nat -> (src + i' <= length srcbuf)%nat).
Proof.
  induction fuel as [|fuel IH]; intros srcbuf src n i r i' r';
    cbn [scatter_unrolled].
  - destruct (Nat.leb_spec (i + 4) n); [discriminate|].
    intros [= <- <-] Hi. lia.
  - destruct (Nat.leb_spec (i + 4) n) as [Hle|Hgt];
      [|intros [= <- <-] Hi; lia].
    destruct (lookup_src srcbuf src i) as [l1|]; [|discriminate].
    destruct (lookup_src srcbuf src (i + 1)) as [l2|]; [|discriminate].
    destruct (lookup_src srcbuf src (i + 2)) as [l3|]; [|discriminate].
    destruct (lookup_src srcbuf src (i + 3)) as [l4|] eqn:H4;
      [|discriminate].
    apply lookup_src_inv in H4.
    intros Hrun Hi. apply IH in Hrun as (Hb & Hr); [|lia].
    split; [lia|]. intros _.
    destruct (Nat.eq_dec i' (i + 4)) as [->|Hne]; [lia | apply Hr; lia].
Qed.

Lemma scatter_tail_reads (fuel : nat) :
  forall srcbuf src n i r r',
    scatter_tail fuel srcbuf src n i r = Some r' ->
    (i < n)%nat -> (src + n <= length srcbuf)%nat.
Proof.
  induction fuel as [|fuel IH]; intros srcbuf src n i r r';
    cbn [scatter_tail].
  - destruct (Nat.ltb_spec i n); [discriminate | lia].
  - destruct (Nat.ltb_spec i n) as [Hlt|Hge]; [|lia].
    destruct (lookup_src srcbuf src i) as [l1|] eqn:H1; [|discriminate].
    apply lookup_src_inv in H1.
    intros Hrun _.
    destruct (Nat.eq_dec (i + 1) n) as [<-|Hne]; [lia|].
    apply (IH _ _ _ _ _ _ Hrun). lia.
Qed.

(** A call that returns has read [bucket_size] bytes inside the source
    buffer, and stored the scatter of those bytes. *)
Lemma expand_and_scatter_256_inv srcbuf src n dstbuf dst d' :
  expand_and_scatter_256 srcbuf src n dstbuf dst = Some d' ->
  (src <= length srcbuf)%nat ->
  (src + n <= length srcbuf)%nat /\
  store dstbuf dst
    (bytes_of_lanes
       (scatter_lanes (firstn n (skipn src srcbuf)) mm256_setzero_si256)) =
    Some d'.
Proof.
  intros Hrun Hsrc.
  assert (Hin : (src + n <= length srcbuf)%nat).
  { revert Hrun. unfold expand_and_scatter_256.
    destruct (scatter_unrolled n srcbuf src n 0 mm256_setzero_si256)
      as [[i r]|] eqn:H1; [|discriminate].
    destruct (scatter_tail n srcbuf src n i r) as [r'|] eqn:H2;
      [|discriminate].
    intros _.
    apply scatter_unrolled_reads in H1 as (Hb & Hr); [|lia].
    destruct (Nat.lt_ge_cases i n) as [Hlt|Hge].
    - exact (scatter_tail_reads _ _ _ _ _ _ _ H2 Hlt).
    - destruct (Nat.eq_dec i 0) as [->|Hne]; [lia|].
      assert (i = n) by lia. subst i. apply Hr. lia. }
  split; [exact Hin|].
  pose proof (load_Some srcbuf src n Hin) as HP.
  assert (Hl : length (firstn n (skipn src srcbuf)) = n)
    by (rewrite length_firstn, length_skipn; lia).
  rewrite <- Hl in HP at 1. rewrite <- Hl in Hrun at 1.
  rewrite (expand_and_scatter_256_spec _ _ _ HP) in Hrun.
  exact Hrun.
Qed.

Lemma header_category_range (h : byte) : 0 <= header_category h < 4.
Proof.
  unfold header_category. pose proof (byte.unsigned_range h) as Hr.
  rewrite Z.shiftr_div_pow2 by lia. change (2 ^ 6) with 64.
  change (2 ^ 8) with 256 in Hr.
  split; [apply Z.div_pos; lia | apply Z.div_lt_upper_bound; lia].
Qed.

Lemma slot_of_store out opos c out1 :
  length c = 32%nat -> store out opos c = Some out1 ->
  firstn 32 (skipn opos out1) = c.
Proof.
  intros Hc Hst. apply load_store in Hst. rewrite Hc in Hst.
  apply load_inv in Hst as (_ & Heq & _). now symmetry.
Qed.

(** One round, whatever the header byte says. *)
Lemma decompress_bucket_decoded data pos out opos pos' out1 :
  decompress_bucket data pos out opos = Some (pos', out1) ->
  (pos < length data)%nat /\
  pos' = (pos + 1 +
          Z.to_nat (header_length (nth pos data Byte.x00)))%nat /\
  record_decoded data pos (firstn 32 (skipn opos out))
    (firstn 32 (skipn opos out1)).
Proof.
  intros Hrun.
  assert (Hh : load data pos 1 = Some [nth pos data Byte.x00] /\
               (pos < length data)%nat).
  { revert Hrun. unfold decompress_bucket.
    destruct (load data pos 1) as [hb|] eqn:Hl; [|discriminate].
    intros _. apply load_inv in Hl as (Hle & -> & _).
    split; [|lia].
    rewrite (skipn_nth_cons data pos Byte.x00) by lia. reflexivity. }
  destruct Hh as (Hh & Hlt).
  rewrite (decompress_bucket_header _ _ _ _ _ Hh) in Hrun.
  split; [exact Hlt|].
  unfold record_decoded. cbv zeta. revert Hrun.
  generalize (nth pos data Byte.x00). intros h.
  set (len := Z.to_nat (header_length h)).
  set (v := scatter_lanes (firstn len (skipn (pos + 1) data))
              mm256_setzero_si256).
  assert (Hvl : length v = 4%nat) by now apply scatter_lanes_length.
  assert (Hvr : Forall (fun x => 0 <= x < 2 ^ 64) v)
    by (apply scatter_lanes_range; repeat constructor; lia).
  assert (Hc0 : length (bytes_of_lanes v) = 32%nat)
    by (rewrite bytes_of_lanes_length, Hvl; reflexivity).
  fold len. fold v.
  destruct (header_category h) as [|c|c] eqn:Hcat.
  - (* sparse *)
    destruct (expand_and_scatter_256 data (pos + 1) len out opos)
      as [o|] eqn:He; [|discriminate].
    intros [= <- <-]. split; [reflexivity|].
    apply expand_and_scatter_256_inv in He as (_ & Hst); [|lia].
    fold v in Hst.
    rewrite (slot_of_store _ _ _ _ Hc0 Hst).
    split; [|split; [discriminate | split; discriminate]].
    intros _. split; [exact Hc0|].
    intros q. apply scattered_chunk_bit_all.
  - destruct c as [c|c|].
    + destruct c as [c|c|].
      * intros [= <- <-]. split; [reflexivity|].
        pose proof (header_category_range h). lia.
      * intros [= <- <-]. split; [reflexivity|].
        pose proof (header_category_range h). lia.
      * (* reserved *)
        intros [= <- <-]. split; [reflexivity|].
        split; [discriminate|]. split; [discriminate|].
        split; [discriminate|]. reflexivity.
    + destruct c as [c|c|].
      * intros [= <- <-]. split; [reflexivity|].
        pose proof (header_category_range h). lia.
      * intros [= <- <-]. split; [reflexivity|].
        pose proof (header_category_range h). lia.
      * (* raw *)
        unfold memcpy, BUCKET_SIZE_U8. change (Z.to_nat 32) with 32%nat.
        destruct (load data (pos + 1) 32) as [bs|] eqn:Hl; [|discriminate].
        destruct (store out opos bs) as [o|] eqn:Hst; [|discriminate].
        intros [= <- <-]. split; [reflexivity|].
        apply load_inv in Hl as (_ & Hbs & Hlen).
        rewrite (slot_of_store _ _ _ _ Hlen Hst).
        split; [discriminate|]. split; [discriminate|].
        split; [|discriminate].
        intros _. split; [exact Hlen | exact Hbs].
    + (* dense *)
      destruct (expand_and_scatter_256 data (pos + 1) len out opos)
        as [o1|] eqn:He; [|discriminate].
      apply expand_and_scatter_256_inv in He as (_ & Hst); [|lia].
      fold v in Hst.
      unfold mm256_loadu_si256.
      pose proof (load_store _ _ _ _ Hst) as Hld. rewrite Hc0 in Hld.
      rewrite Hld.
      pose proof (lanes_of_bytes_of_lanes v Hvr) as Hlv.
      rewrite Hvl in Hlv. rewrite Hlv. unfold mm256_storeu_si256.
      rewrite bytes_of_lanes_xor by assumption.
      destruct (store o1 opos (chunk_not (bytes_of_lanes v))) as [o|] eqn:Hst2;
        [|discriminate].
      intros [= <- <-]. split; [reflexivity|].
      assert (Hcn : length (chunk_not (bytes_of_lanes v)) = 32%nat)
        by now rewrite chunk_not_length.
      rewrite (slot_of_store _ _ _ _ Hcn Hst2).
      split; [discriminate|]. split; [|split; discriminate].
      intros _. split; [exact Hcn|].
      intros q Hq. rewrite chunk_not_bit by (rewrite Hc0; lia).
      f_equal. apply scattered_chunk_bit_all.
  - pose proof (header_category_range h). lia.
Qed.

Lemma slot_before (a b : list byte) (opos : nat) :
  firstn (opos + 32) a = firstn (opos + 32) b ->
  firstn 32 (skipn opos a) = firstn 32 (skipn opos b).
Proof.
  intros H.
  rewrite !(firstn_skipn_comm). now rewrite H.
Qed.

Lemma decompress_loop_decoded (fuel : nat) :
  forall data end_ pos out opos out' n,
    decompress_loop fuel data end_ pos out opos = Some (out', n) ->
    n = (opos + 32 * length (record_offsets fuel data end_ pos))%nat /\
    (length (record_offsets fuel data end_ pos) <= end_ - pos)%nat /\
    Forall (fun p => (p < end_)%nat /\ (p < length data)%nat)
      (record_offsets fuel data end_ pos) /\
    forall i p,
      nth_error (record_offsets fuel data end_ pos) i = Some p ->
      record_decoded data p
        (firstn 32 (skipn (opos + 32 * i) out))
        (firstn 32 (skipn (opos + 32 * i) out')).
Proof.
  induction fuel as [|fuel IH]; intros data end_ pos out opos out' n;
    cbn [decompress_loop record_offsets].
  - destruct (pos <? end_)%nat; [discriminate|].
    intros [= <- <-]. cbn [length].
    split; [lia|]. split; [lia|]. split; [constructor|].
    intros [|i] p; discriminate.
  - destruct (Nat.ltb_spec pos end_) as [Hlt|Hge].
    2:{ intros [= <- <-]. cbn [length].
        split; [lia|]. split; [lia|]. split; [constructor|].
        intros [|i] p; discriminate. }
    destruct (decompress_bucket data pos out opos) as [[pos1 out1]|] eqn:Hb;
      [|discriminate].
    intros Hrun.
    pose proof (decompress_bucket_slot _ _ _ _ _ _ Hb) as (Hl1 & Hf1 & Hs1).
    apply decompress_bucket_decoded in Hb as (Hin & -> & Hdec).
    change (Z.to_nat BUCKET_SIZE_U8) with 32%nat in Hrun.
    pose proof (decompress_loop_slots _ _ _ _ _ _ _ _ Hrun)
      as (_ & Hf & _ & _).
    apply IH in Hrun as (Hn & Hk & Hall & Hslots).
    cbn [length].
    split; [lia|]. split; [lia|].
    split; [constructor; [lia | exact Hall]|].
    intros [|i] p; cbn [nth_error].
    + intros [= <-]. rewrite Nat.mul_0_r, Nat.add_0_r.
      rewrite (slot_before out' out1 opos Hf). exact Hdec.
    + intros Hp. specialize (Hslots i p Hp).
      replace (opos + 32 * S i)%nat with (32 * i + (opos + 32))%nat by lia.
      replace (opos + 32 + 32 * i)%nat with (32 * i + (opos + 32))%nat
        in Hslots by lia.
      rewrite <- (skipn_skipn (32 * i) (opos + 32) out).
      rewrite <- (skipn_skipn (32 * i) (opos + 32) out1) in Hslots.
      now rewrite <- Hs1.
Qed.

(** A round returns exactly when the record and its slot lie inside
    their buffers. *)
Lemma decompress_bucket_fits data pos out opos :
  decompress_bucket data pos out opos <> None <->
  record_fits data pos (length out) opos.
Proof.
  unfold record_fits. cbv zeta.
  destruct (Nat.lt_ge_cases pos (length data)) as [Hlt|Hge].
  2:{ split; [|intros (H & _); lia].
      unfold decompress_bucket, load.
      destruct (Nat.leb_spec (pos + 1) (length data)); [lia|].
      intros Hne. now contradiction Hne. }
  assert (Hh : load data pos 1 = Some [nth pos data Byte.x00]).
  { rewrite load_Some by lia.
    rewrite (skipn_nth_cons data pos Byte.x00) by lia. reflexivity. }
  rewrite (decompress_bucket_header _ _ _ _ _ Hh).
  generalize (nth pos data Byte.x00). intros h.
  set (len := Z.to_nat (header_length h)).
  pose proof (header_category_range h) as Hr.
  assert (Hexp : forall o, expand_and_scatter_256 data (pos + 1) len out opos
                           = Some o ->
                 (pos + 1 + len <= length data)%nat /\
                 (opos + 32 <= length out)%nat /\ length o = length out).
  { intros o He.
    apply expand_and_scatter_256_inv in He as (Hin & Hst); [|lia].
    pose proof (store_length _ _ _ _ Hst) as Hlo.
    apply store_inv in Hst as (Hle & _).
    rewrite scattered_chunk_length in Hle. auto. }
  assert (Hexp' : (pos + 1 + len <= length data)%nat ->
                  (opos + 32 <= length out)%nat ->
                  exists o, expand_and_scatter_256 data (pos + 1) len out opos
                            = Some o /\ length o = length out).
  { intros Hin Hroom.
    pose proof (load_Some data (pos + 1) len Hin) as HP.
    assert (Hl : length (firstn len (skipn (pos + 1) data)) = len)
      by (rewrite length_firstn, length_skipn; lia).
    rewrite <- Hl in HP at 1.
    pose proof (expand_and_scatter_256_spec _ _ _ HP out opos) as Hspec.
    rewrite Hl in Hspec. rewrite Hspec.
    unfold mm256_storeu_si256.
    rewrite store_Some by (rewrite scattered_chunk_length; lia).
    eexists. split; [reflexivity|].
    rewrite !length_app, length_firstn, length_skipn,
      scattered_chunk_length. lia. }
  assert (Hinv : forall o, length o = length out ->
                 (src_vec <- mm256_loadu_si256 o opos ;;
                  mm256_storeu_si256 o opos
                    (mm256_xor_si256 src_vec (mm256_set1_epi8 0xFF))) <> None
                 <-> (opos + 32 <= length out)%nat).
  { intros o Hlo. unfold mm256_loadu_si256.
    destruct (Nat.le_gt_cases (opos + 32) (length o)) as [Hle|Hgt].
    - rewrite load_Some by lia. unfold mm256_storeu_si256.
      assert (Hl4 : length (bytes_of_lanes
                      (mm256_xor_si256
                         (lanes_of_bytes 4 (firstn 32 (skipn opos o)))
                         (mm256_set1_epi8 255))) = 32%nat).
      { rewrite bytes_of_lanes_length. unfold mm256_xor_si256.
        rewrite lanewise_length; reflexivity. }
      rewrite store_Some by (rewrite Hl4; lia).
      split; [lia | discriminate].
    - unfold load.
      destruct (Nat.leb_spec (opos + 32) (length o)); [lia|].
      split; [intros Hne; now contradiction Hne | lia]. }
  destruct (header_category h) as [|c|c] eqn:Hcat.
  - (* sparse *)
    split.
    + destruct (expand_and_scatter_256 data (pos + 1) len out opos)
        as [o|] eqn:He; [|intros Hne; now contradiction Hne].
      intros _. destruct (Hexp o eq_refl) as (H1 & H2 & _).
      split; [exact Hlt|]. split; [lia|]. split; [discriminate | lia].
    + intros (_ & H1 & _ & H2).
      destruct (Hexp' (H1 ltac:(lia)) (H2 ltac:(lia))) as (o & -> & _).
      discriminate.
  - assert (Hc : c = 1%positive \/ c = 2%positive \/ c = 3%positive) by lia.
    destruct Hc as [->|[->| ->]].
    + (* dense *)
      split.
      * destruct (expand_and_scatter_256 data (pos + 1) len out opos)
          as [o|] eqn:He; [|intros Hne; now contradiction Hne].
        destruct (Hexp o eq_refl) as (H1 & H2 & H3).
        intros _. split; [exact Hlt|]. split; [lia|].
        split; [discriminate | lia].
      * intros (_ & H1 & _ & H2).
        destruct (Hexp' (H1 ltac:(lia)) (H2 ltac:(lia))) as (o & -> & Hlo).
        pose proof (proj2 (Hinv o Hlo) (H2 ltac:(lia))) as Hne.
        destruct (src_vec <- mm256_loadu_si256 o opos ;;
                  mm256_storeu_si256 o opos
                    (mm256_xor_si256 src_vec (mm256_set1_epi8 0xFF)));
          [discriminate | now contradiction Hne].
    + (* raw *)
      unfold memcpy, BUCKET_SIZE_U8. change (Z.to_nat 32) with 32%nat.
      unfold load at 1.
      destruct (Nat.leb_spec (pos + 1 + 32) (length data)) as [Hle|Hgt].
      * unfold store. rewrite length_firstn, length_skipn.
        replace (Nat.min 32 (length data - (pos + 1))) with 32%nat by lia.
        destruct (Nat.leb_spec (opos + 32) (length out)) as [Hle2|Hgt2].
        -- split; [|discriminate].
           intros _. split; [exact Hlt|]. split; [lia|]. split; lia.
        -- split; [intros Hne; now contradiction Hne|].
           intros (_ & _ & _ & H2). specialize (H2 ltac:(lia)). lia.
      * split; [intros Hne; now contradiction Hne|].
        intros (_ & _ & H1 & _). specialize (H1 eq_refl). lia.
    + (* reserved *)
      split; [|discriminate].
      intros _. split; [exact Hlt|]. split; [lia|]. split; [discriminate|lia].
  - lia.
Qed.

Lemma decompress_loop_fits (fuel : nat) :
  forall data end_ pos out opos,
    (end_ - pos <= fuel)%nat ->
    decompress_loop fuel data end_ pos out opos <> None <->
    (forall i p,
       nth_error (record_offsets fuel data end_ pos) i = Some p ->
       record_fits data p (length out) (opos + 32 * i)).
Proof.
  induction fuel as [|fuel IH]; intros data end_ pos out opos Hfuel;
    cbn [decompress_loop record_offsets].
  - destruct (Nat.ltb_spec pos end_); [lia|].
    split; [intros _ [|i] p; discriminate | discriminate].
  - destruct (Nat.ltb_spec pos end_) as [Hlt|Hge].
    2:{ split; [intros _ [|i] p; discriminate | discriminate]. }
    split.
    + destruct (decompress_bucket data pos out opos) as [[pos1 out1]|] eqn:Hb;
        [|intros Hne; now contradiction Hne].
      intros Hrun.
      assert (Hfit : record_fits data pos (length out) opos)
        by (apply decompress_bucket_fits; rewrite Hb; discriminate).
      pose proof (decompress_bucket_advances _ _ _ _ _ _ Hb) as Hadv.
      pose proof (decompress_bucket_slot _ _ _ _ _ _ Hb) as (Hl1 & _).
      apply decompress_bucket_decoded in Hb as (_ & -> & _).
      change (Z.to_nat BUCKET_SIZE_U8) with 32%nat in Hrun.
      assert (Hf' : (end_ - (pos + 1 + Z.to_nat
                              (header_length (nth pos data Byte.x00)))
                     <= fuel)%nat) by lia.
      pose proof (proj1 (IH _ _ _ out1 (opos + 32)%nat Hf') Hrun) as Hrest.
      clear Hrun. rename Hrest into Hrun.
      intros [|i] p; cbn [nth_error].
      * intros [= <-]. now rewrite Nat.mul_0_r, Nat.add_0_r.
      * intros Hp. specialize (Hrun i p Hp). rewrite Hl1 in Hrun.
        now replace (opos + 32 * S i)%nat with (opos + 32 + 32 * i)%nat
          by lia.
    + intros Hall.
      pose proof (Hall 0%nat pos eq_refl) as Hfit.
      rewrite Nat.mul_0_r, Nat.add_0_r in Hfit.
      apply decompress_bucket_fits in Hfit.
      destruct (decompress_bucket data pos out opos) as [[pos1 out1]|] eqn:Hb;
        [|now contradiction Hfit].
      pose proof (decompress_bucket_advances _ _ _ _ _ _ Hb) as Hadv.
      pose proof (decompress_bucket_slot _ _ _ _ _ _ Hb) as (Hl1 & _).
      apply decompress_bucket_decoded in Hb as (_ & -> & _).
      change (Z.to_nat BUCKET_SIZE_U8) with 32%nat.
      assert (Hf' : (end_ - (pos + 1 + Z.to_nat
                              (header_length (nth pos data Byte.x00)))
                     <= fuel)%nat) by lia.
      apply (proj2 (IH _ _ _ out1 (opos + 32)%nat Hf')).
      intros i p Hp. specialize (Hall (S i) p Hp). rewrite Hl1.
      now replace (opos + 32 + 32 * i)%nat with (opos + 32 * S i)%nat
        by lia.
Qed.

(** The walk never runs out of fuel: every header moves the cursor
    forward. *)
Lemma record_offsets_fuel (fuel fuel' : nat) :
  forall data end_ pos,
    (end_ - pos <= fuel)%nat -> (end_ - pos <= fuel')%nat ->
    record_offsets fuel data end_ pos = record_offsets fuel' data end_ pos.
Proof.
  revert fuel'. induction fuel as [|fuel IH]; intros fuel' data end_ pos H H'.
  - destruct fuel'; cbn [record_offsets];
      destruct (Nat.ltb_spec pos end_); (lia || reflexivity).
  - destruct fuel' as [|fuel']; cbn [record_offsets];
      destruct (Nat.ltb_spec pos end_); try (lia || reflexivity).
    f_equal. apply IH; lia.
Qed.

(** X16.  [vitemap_decompress] on any stream, well formed or not.  The
    records it meets are those the header walk gives.  The call returns
    exactly when every record met, and the slot of the output buffer that
    goes with it, lie inside their buffers.  When it returns, the output
    pointer has moved by 32 bytes for each record met, at most one record
    for each byte after the prefix and every header before the declared
    end; the output buffer has the length it had; every byte from the
    final position of the pointer on is as it was; and slot [i] holds what
    record [i] decodes to: the bits its payload names, or all the others,
    or the 32 bytes after its header, or, for category 3, what the slot
    held before. *)
Theorem decompress_writes_whole_slots (data : buffer) (size : Z)
    (out : buffer) :
  let offsets := record_offsets (Z.to_nat size) data (Z.to_nat size) 4 in
  (forall fuel, (Z.to_nat size - 4 <= fuel)%nat ->
     record_offsets fuel data (Z.to_nat size) 4 = offsets) /\
  (vitemap_decompress data size out <> None <->
   forall i p, nth_error offsets i = Some p ->
               record_fits data p (length out) (32 * i)) /\
  forall out' n,
    vitemap_decompress data size out = Some (out', n) ->
    n = (32 * length offsets)%nat /\
    (length offsets <= Z.to_nat size - 4)%nat /\
    Forall (fun p => (p < Z.to_nat size)%nat) offsets /\
    length out' = length out /\
    skipn n out' = skipn n out /\
    forall i p,
      nth_error offsets i = Some p ->
      record_decoded data p
        (firstn 32 (skipn (32 * i) out)) (firstn 32 (skipn (32 * i) out')).
Proof.
  cbv zeta. unfold vitemap_decompress. split; [|split].
  - intros fuel Hfuel. apply record_offsets_fuel; lia.
  - apply (decompress_loop_fits (Z.to_nat size) data (Z.to_nat size) 4 out 0).
    lia.
  - intros out' n H.
    pose proof (decompress_loop_slots _ _ _ _ _ _ _ _ H) as (Hl & _ & Hs & _).
    apply decompress_loop_decoded in H as (Hn & Hk & Hall & Hslots).
    split; [lia|]. split; [exact Hk|].
    split; [eapply Forall_impl; [|exact Hall]; now intros p [Hp _]|].
    split; [exact Hl|]. split; [exact Hs|].
    intros i p Hp. exact (Hslots i p Hp).
Qed.

(** X17.  The decoder does not compare a payload with the declared
    size.  When the declared size ends anywhere inside the record of a
    chunk (after its header byte, before or at its last byte), the
    record is decoded in full all the same: the payload bytes beyond the
    declared end are read, and the chunk is written. *)
Theorem decompress_reads_past_declared_end (pre c rest : list byte) (s : Z)
    (out : buffer) :
  length pre = 4%nat -> length c = 32%nat -> (32 <= length out)%nat ->
  4 < s <= 4 + Z.of_nat (length (chunk_record c)) ->
  vitemap_decompress (pre ++ chunk_record c ++ rest) s out =
    Some (c ++ skipn 32 out, 32%nat).
Proof.
  intros Hpre Hc Hout Hs. unfold vitemap_decompress.
  pose proof (load_app_skip pre (chunk_record c) rest) as Hld.
  rewrite Hpre in Hld.
  pose proof (decompress_bucket_record _ 4%nat c out 0%nat Hc Hld
                ltac:(lia)) as Hb.
  revert Hs Hld Hb. generalize (chunk_record c). intros r Hs Hld Hb.
  assert (He : (4 < Z.to_nat s <= 4 + length r)%nat) by lia.
  revert He. generalize (Z.to_nat s). intros e He.
  replace (decompress_loop e) with (decompress_loop (S (e - 1)))
    by (f_equal; lia).
  assert (Hlt : (4 < e)%nat) by lia.
  rewrite (decompress_loop_step _ _ _ _ _ _ _ _ Hlt Hb).
  rewrite decompress_loop_done by lia.
  reflexivity.
Qed.

(** ** The callers *)

Lemma long_small (z : Z) : - 2 ^ 63 <= z < 2 ^ 63 -> long z = Some z.
Proof.
  intros H. unfold long.
  destruct (Z.leb_spec (- 2 ^ 63) z); [|lia].
  destruct (Z.ltb_spec z (2 ^ 63)); [reflexivity | lia].
Qed.

Ltac long_steps :=
  repeat (rewrite long_small
            by (change (2 ^ 63) with 9223372036854775808; lia);
          cbv beta iota).

Lemma calculate_time_diff_spec (start end_ : timespec) :
  valid_timespec start -> valid_timespec end_ ->
  calculate_time_diff start end_ = Some (total_ns end_ - total_ns start).
Proof.
  intros [Hs1 Hn1] [Hs2 Hn2]. unfold calculate_time_diff, total_ns.
  change (2 ^ 32) with 4294967296 in *.
  long_steps.
  destruct (Z.ltb_spec (tv_nsec end_ - tv_nsec start) 0);
    long_steps; f_equal; lia.
Qed.

(** X18.  [calculate_time_diff] on two readings of the clock returns
    the time from the first to the second in nanoseconds, with or
    without the borrow from the seconds, and no step of it overflows;
    the result is negative exactly when the second reading is the
    earlier one. *)
Theorem calculate_time_diff_total (start end_ : timespec) :
  valid_timespec start -> valid_timespec end_ ->
  calculate_time_diff start end_ = Some (total_ns end_ - total_ns start) /\
  (0 <= total_ns end_ - total_ns start <->
   tv_sec start < tv_sec end_ \/
   (tv_sec start = tv_sec end_ /\ tv_nsec start <= tv_nsec end_)).
Proof.
  intros V1 V2. split; [now apply calculate_time_diff_spec|].
  destruct V1 as [Hs1 Hn1], V2 as [Hs2 Hn2]. unfold total_ns. lia.
Qed.

Lemma bytes_eqb_refl (a : list byte) : bytes_eqb a a = true.
Proof.
  induction a as [|x a IH]; [reflexivity|].
  cbn [bytes_eqb]. now rewrite (Byte.byte_dec_lb eq_refl), IH.
Qed.

Lemma wf_with_input (vm : Vitemap) (inbuf : buffer) :
  wf_vitemap vm -> length inbuf = length (input vm) ->
  wf_vitemap (with_input vm inbuf).
Proof.
  intros [H1 H2 H3 H4 H5 H6 H7] Hl.
  split; cbn [with_input input max_size num_buckets output
              max_compressed_size helper_bucket]; try assumption.
  now rewrite Hl.
Qed.

(** The context a caller builds for the data [x]: created for its size,
    then filled by [memcpy]. *)
Lemma caller_context (x : list byte) :
  Z.of_nat (length x) <= 2 ^ 31 - 32 ->
  let N := Z.of_nat (length x) in
  let padded := x ++ repeat Byte.x00 (Z.to_nat (32 * ceil32 N) - length x) in
  memcpy (input (vitemap_create (u32 N))) 0 x 0 (Z.to_nat N) = Some padded /\
  wf_vitemap (with_input (vitemap_create (u32 N)) padded) /\
  length padded = Z.to_nat (32 * ceil32 N).
Proof.
  intros Hx N padded. subst N.
  set (N := Z.of_nat (length x)) in *.
  pose proof (ceil32_bounds N ltac:(lia)) as Hb.
  assert (Hw : 64 * ceil32 N + 36 < 2 ^ 32) by lia.
  rewrite (u32_small N) by lia.
  pose proof (wf_vitemap_create N ltac:(lia) Hw) as Hwf.
  pose proof (vitemap_create_num_buckets N ltac:(lia) Hw) as Hnb.
  assert (Hin : input (vitemap_create N) =
                repeat Byte.x00 (Z.to_nat (32 * ceil32 N))).
  { destruct Hwf as [_ _ Hms _ _ _ _]. rewrite Hnb in Hms.
    unfold vitemap_create in *. cbn [input max_size] in *.
    unfold calloc. now rewrite Hms. }
  assert (Hlp : length padded = Z.to_nat (32 * ceil32 N)).
  { subst padded. rewrite length_app, repeat_length. lia. }
  split; [|split; [|exact Hlp]].
  - unfold memcpy. subst N. rewrite Nat2Z.id.
    rewrite load_whole by reflexivity.
    rewrite store_Some by (rewrite Hin, repeat_length; lia).
    cbn [firstn app Nat.add]. rewrite Hin. f_equal. subst padded. f_equal.
    rewrite skipn_repeat. reflexivity.
  - apply wf_with_input; [assumption|].
    now rewrite Hin, repeat_length.
Qed.

(** Compression, peek and decompression as the callers chain them. *)
Lemma caller_roundtrip (x : list byte) :
  Z.of_nat (length x) <= 2 ^ 31 - 32 ->
  let N := Z.of_nat (length x) in
  let padded := x ++ repeat Byte.x00 (Z.to_nat (32 * ceil32 N) - length x) in
  exists vm' recs,
    vitemap_compress (with_input (vitemap_create (u32 N)) padded) (u32 N) =
      Some (vm', 4 + Z.of_nat (length recs)) /\
    (length recs <= 33 * Z.to_nat (ceil32 N))%nat /\
    load (output vm') 0 (4 + length recs) = Some (le_split 4 N ++ recs) /\
    vitemap_extract_decompressed_sizes (output vm') =
      Some (N, 32 * ceil32 N) /\
    vitemap_extract_decompressed_sizes (le_split 4 N ++ recs) =
      Some (N, 32 * ceil32 N) /\
    forall out,
      length out = Z.to_nat (32 * ceil32 N) ->
      vitemap_decompress (output vm') (4 + Z.of_nat (length recs)) out =
        Some (padded, length padded) /\
      vitemap_decompress (le_split 4 N ++ recs)
        (4 + Z.of_nat (length recs)) out = Some (padded, length padded).
Proof.
  intros Hx N padded.
  destruct (caller_context x Hx) as (_ & Hwf & Hlp).
  fold N in Hwf, Hlp. fold padded in Hwf, Hlp.
  pose proof (ceil32_bounds N ltac:(lia)) as Hb.
  set (vm0 := with_input (vitemap_create (u32 N)) padded) in *.
  assert (Hnb : num_buckets vm0 = ceil32 N).
  { subst vm0. cbn [with_input num_buckets]. rewrite (u32_small N) by lia.
    apply vitemap_create_num_buckets; lia. }
  destruct (vitemap_compress_spec vm0 (u32 N) Hwf)
    as (vm' & Hrun & Hframe & _ & _ & _ & _ & _ & Hlo & _ & Hle).
  rewrite (u32_small N) in Hframe by lia.
  exists vm', (records_of vm0).
  split; [exact Hrun|]. split; [now rewrite <- Hnb|].
  unfold frame_of in Hframe. cbn [fst snd] in Hframe.
  replace (Z.to_nat (4 + Z.of_nat (length (records_of vm0))))
    with (4 + length (records_of vm0))%nat in Hframe by lia.
  assert (Hload : load (output vm') 0 (4 + length (records_of vm0)) =
                  Some (le_split 4 N ++ records_of vm0)).
  { apply (load_prefix_inv _ (4 + length (records_of vm0))).
    rewrite Hframe. apply load_whole.
    now rewrite length_app, length_le_split. }
  split; [exact Hload|].
  assert (Hp4 : load (output vm') 0 4 = Some (le_split 4 N)).
  { apply (load_prefix_inv _ (4 + length (records_of vm0))).
    rewrite Hframe.
    pose proof (load_app_skip [] (le_split 4 N) (records_of vm0)) as H.
    now rewrite length_le_split in H. }
  split; [apply extract_sizes_of_prefix; [lia | exact Hp4]|].
  split.
  { apply extract_sizes_of_prefix; [lia|].
    pose proof (load_app_skip [] (le_split 4 N) (records_of vm0)) as H.
    now rewrite length_le_split in H. }
  intros out Hout.
  assert (Hin0 : input vm0 = padded) by reflexivity.
  split.
  - destruct (roundtrip_context vm0 (u32 N) out Hwf
                ltac:(rewrite Hin0; lia)) as (vm2 & sz2 & Hrun2 & Hdec).
    rewrite Hrun in Hrun2. apply some_inj in Hrun2.
    apply pair_equal_spec in Hrun2 as [E1 E2].
    rewrite <- E1, <- E2 in Hdec.
    rewrite Hdec, Hin0. rewrite skipn_all2 by lia.
    now rewrite app_nil_r.
  - pose proof (decode_records vm0 (le_split 4 N) out Hwf
                  (length_le_split _ _) ltac:(rewrite Hin0; lia)) as Hdec.
    rewrite length_app, length_le_split in Hdec.
    replace (Z.of_nat (4 + length (records_of vm0)))
      with (4 + Z.of_nat (length (records_of vm0))) in Hdec by lia.
    rewrite Hdec, Hin0. rewrite skipn_all2 by lia.
    now rewrite app_nil_r.
Qed.

(** X19.  [benchmark_vitemap] always reports success.  For a bitmap of
    at most [2 ^ 31 - 32] bytes, when the allocations succeed, the call
    returns with [verified = 1], whatever the bitmap holds and whatever
    the fresh decode buffer held; the reported length is the size
    [vitemap_compress] returns on the context that holds the bitmap,
    which is 4 plus the number of bytes of its records, between 4 and 4
    plus 33 bytes a bucket; and the two times are the differences of the
    clock readings. *)
Theorem benchmark_vitemap_verifies (w : world) (t0 t1 t2 t3 : timespec)
    (bitmap : list byte) :
  Z.of_nat (length bitmap) <= 2 ^ 31 - 32 ->
  plenty_of_memory w ->
  valid_timespec t0 -> valid_timespec t1 ->
  valid_timespec t2 -> valid_timespec t3 ->
  let N := Z.of_nat (length bitmap) in
  let vm :=
    with_input (vitemap_create N)
      (bitmap ++ repeat Byte.x00 (Z.to_nat (32 * ceil32 N) - length bitmap)) in
  exists r vm',
    benchmark_vitemap w t0 t1 t2 t3 bitmap N = Some r /\
    verified r = 1 /\
    vitemap_compress vm N = Some (vm', length_ r) /\
    length_ r = 4 + Z.of_nat (length (records_of vm)) /\
    4 <= length_ r <= 4 + 33 * ceil32 N /\
    comp_time r = total_ns t1 - total_ns t0 /\
    decomp_time r = total_ns t3 - total_ns t2.
Proof.
  intros Hx [Hc Hm] V0 V1 V2 V3 N vm.
  destruct (caller_context bitmap Hx) as (Hcpy & Hwf & Hlp).
  destruct (caller_roundtrip bitmap Hx)
    as (vm' & recs & Hrun & Hle & _ & Hpeek & _ & Hdec).
  fold N in Hcpy, Hwf, Hlp, Hrun, Hle, Hpeek, Hdec.
  pose proof (ceil32_bounds N ltac:(lia)) as Hb.
  assert (Hu : u32 N = N) by (apply u32_small; lia).
  rewrite Hu in Hcpy, Hwf, Hrun. fold vm in Hwf, Hrun.
  destruct (vitemap_compress_spec vm N Hwf) as (vm2 & Hrun2 & _).
  assert (Hsz : 4 + Z.of_nat (length recs) =
                4 + Z.of_nat (length (records_of vm))).
  { rewrite Hrun in Hrun2. apply some_inj in Hrun2.
    now apply pair_equal_spec in Hrun2 as [_ E]. }
  destruct (Hm (32 * ceil32 N)) as (block & Hblock & Hbl).
  destruct (Hdec block Hbl) as (Hd & _).
  unfold benchmark_vitemap. rewrite Hc, Hu, Hcpy. fold vm. rewrite Hrun.
  rewrite (calculate_time_diff_spec t0 t1 V0 V1), Hpeek, Hblock, Hd.
  rewrite (calculate_time_diff_spec t2 t3 V2 V3).
  unfold memcmp_eq.
  replace (Z.to_nat N) with (length bitmap) by (unfold N; lia).
  rewrite load_whole by reflexivity.
  rewrite load_Some by (rewrite Hlp; lia).
  cbn [skipn]. rewrite firstn_padded, bytes_eqb_refl, Z.eqb_refl.
  eexists. exists vm'. split; [reflexivity|].
  cbn [verified length_ comp_time decomp_time andb].
  split; [reflexivity|]. split; [reflexivity|]. split; [exact Hsz|].
  repeat split; lia.
Qed.

Lemma main_compress_run (w : world) (prog src mid m x : list byte)
    (inbuf : buffer) (vm' : Vitemap) (sz : Z) (f : list byte) :
  plenty_of_memory w ->
  fopen_rb w src = Some x -> fopen_wb w mid = true ->
  memcpy (input (vitemap_create (u32 (Z.of_nat (length x))))) 0 x 0
    (Z.to_nat (Z.of_nat (length x))) = Some inbuf ->
  vitemap_compress
    (with_input (vitemap_create (u32 (Z.of_nat (length x)))) inbuf)
    (u32 (Z.of_nat (length x))) = Some (vm', sz) ->
  load (output vm') 0 (Z.to_nat sz) = Some f ->
  main w [prog; src; mid; Byte.x63 :: m] = Some (0, Some (mid, f)).
Proof.
  intros [Hc Hm] Hsrc Hmid Hcpy Hrun Hload.
  destruct (Hm (Z.of_nat (length x))) as (block & Hblock & Hbl).
  unfold main. cbn [length Nat.eqb negb nth hd].
  rewrite Hsrc, Hblock. rewrite store_whole by lia.
  change (Byte.eqb Byte.x63 Byte.x63) with true. cbv beta iota.
  rewrite Hc. cbv zeta. rewrite Hcpy, Hrun, Hmid.
  now rewrite Hload.
Qed.

Lemma main_decompress_run (w : world) (prog mid dst m f : list byte)
    (ds bs : Z) (out' : buffer) (n : nat) (data : list byte) :
  plenty_of_memory w ->
  fopen_rb w mid = Some f -> fopen_wb w dst = true ->
  vitemap_extract_decompressed_sizes f = Some (ds, bs) ->
  (forall block, length block = Z.to_nat bs ->
     vitemap_decompress f (u32 (Z.of_nat (length f))) block =
       Some (out', n)) ->
  load out' 0 (Z.to_nat ds) = Some data ->
  main w [prog; mid; dst; Byte.x64 :: m] = Some (0, Some (dst, data)).
Proof.
  intros [Hc Hm] Hsrc Hdst Hpeek Hdec Hload.
  destruct (Hm (Z.of_nat (length f))) as (block & Hblock & Hbl).
  destruct (Hm bs) as (block2 & Hblock2 & Hbl2).
  unfold main. cbn [length Nat.eqb negb nth hd].
  rewrite Hsrc, Hblock. rewrite store_whole by lia.
  change (Byte.eqb Byte.x64 Byte.x63) with false.
  change (Byte.eqb Byte.x64 Byte.x64) with true. cbv beta iota.
  rewrite Hpeek, Hblock2, (Hdec block2 Hbl2), Hdst.
  now rewrite Hload.
Qed.

(** X20.  The command-line tool gives a file back.  For a file [x] of at
    most [2 ^ 31 - 32] bytes, when memory and the output path are
    available, the run in mode c exits with status 0 and writes a file
    [f] of at least 4 and at most 4 plus 33 bytes a bucket; and in any
    world where that file is found, the run in mode d on it exits with
    status 0 and writes exactly [x]. *)
Theorem cli_roundtrip (w1 w2 : world)
    (prog1 prog2 src mid dst m1 m2 x : list byte) :
  Z.of_nat (length x) <= 2 ^ 31 - 32 ->
  plenty_of_memory w1 -> plenty_of_memory w2 ->
  fopen_rb w1 src = Some x -> fopen_wb w1 mid = true ->
  fopen_wb w2 dst = true ->
  exists f,
    main w1 [prog1; src; mid; Byte.x63 :: m1] = Some (0, Some (mid, f)) /\
    (4 <= length f <=
       4 + 33 * Z.to_nat (ceil32 (Z.of_nat (length x))))%nat /\
    (fopen_rb w2 mid = Some f ->
     main w2 [prog2; mid; dst; Byte.x64 :: m2] = Some (0, Some (dst, x))).
Proof.
  intros Hx Hw1 Hw2 Hsrc Hmid Hdst.
  destruct (caller_context x Hx) as (Hcpy & _ & Hlp).
  destruct (caller_roundtrip x Hx)
    as (vm' & recs & Hrun & Hle & Hload & _ & Hpeek & Hdec).
  pose proof (ceil32_bounds (Z.of_nat (length x)) ltac:(lia)) as Hb.
  exists (le_split 4 (Z.of_nat (length x)) ++ recs).
  assert (Hlf : length (le_split 4 (Z.of_nat (length x)) ++ recs) =
                (4 + length recs)%nat)
    by now rewrite length_app, length_le_split.
  split; [|split; [lia|]].
  - apply (main_compress_run w1 prog1 src mid m1 x _ vm' _ _ Hw1 Hsrc Hmid
             Hcpy Hrun).
    replace (Z.to_nat (4 + Z.of_nat (length recs)))
      with (4 + length recs)%nat by lia.
    exact Hload.
  - intros Hf.
    eapply (main_decompress_run w2 prog2 mid dst m2);
      [exact Hw2 | exact Hf | exact Hdst | exact Hpeek | |].
    + intros block Hblock. rewrite Hlf.
      rewrite u32_small by lia.
      replace (Z.of_nat (4 + length recs))
        with (4 + Z.of_nat (length recs)) by lia.
      exact (proj2 (Hdec block Hblock)).
    + rewrite Nat2Z.id, load_Some by (rewrite Hlp; lia).
      cbn [skipn]. now rewrite firstn_padded.
Qed.

(** X21.  Mode d on a file of fewer than four bytes.  The tool reads the
    four bytes of the size prefix from the block it allocated for the
    file without looking at the file's length: on a file of 0 to 3 bytes
    that read leaves the block. *)
Theorem cli_decompress_short_file (w : world) (prog src dst m f : list byte)
    (block : buffer) :
  fopen_rb w src = Some f -> (length f < 4)%nat ->
  malloc w (Z.of_nat (length f)) = Some block -> length block = length f ->
  main w [prog; src; dst; Byte.x64 :: m] = None.
Proof.
  intros Hsrc Hlen Hblock Hbl.
  unfold main. cbn [length Nat.eqb negb nth hd].
  rewrite Hsrc, Hblock. rewrite store_whole by lia.
  change (Byte.eqb Byte.x64 Byte.x63) with false.
  change (Byte.eqb Byte.x64 Byte.x64) with true. cbv beta iota.
  unfold vitemap_extract_decompressed_sizes, load_u32, load.
  destruct (Nat.leb_spec (0 + 4) (length f)); [lia | reflexivity].
Qed.

Lemma byte_eqb_eq (a b : byte) : Byte.eqb a b = true -> a = b.
Proof. apply Byte.byte_dec_bl. Qed.

(** X22.  The exit status of the tool outside mode d.  For a file of at
    most [2 ^ 31 - 32] bytes and a [malloc] that gives blocks of the size
    asked for, a run in any mode but d returns.  It returns 0 exactly
    when it was given three arguments, the input file opens, the block
    for it is allocated, the mode is c, the context is created and the
    output file opens; the one file it writes is then the frame of the
    input, at the path in [argv[2]], with the length of the input in its
    first four bytes.  In every other case it returns 1 and writes
    nothing. *)
Theorem cli_exit_status (w : world) (argv : list (list byte)) :
  (forall n block, malloc w n = Some block -> length block = Z.to_nat n) ->
  (forall x, fopen_rb w (nth 1 argv []) = Some x ->
             Z.of_nat (length x) <= 2 ^ 31 - 32) ->
  hd Byte.x00 (nth 3 argv []) <> Byte.x64 ->
  let ready :=
    length argv = 4%nat /\
    (exists x, fopen_rb w (nth 1 argv []) = Some x /\
               malloc w (Z.of_nat (length x)) <> None) /\
    hd Byte.x00 (nth 3 argv []) = Byte.x63 /\
    calloc_ok w = true /\
    fopen_wb w (nth 2 argv []) = true in
  exists code written,
    main w argv = Some (code, written) /\
    (ready ->
     code = 0 /\
     exists x frame,
       fopen_rb w (nth 1 argv []) = Some x /\
       written = Some (nth 2 argv [], frame) /\
       load_u32 frame 0 = Some (Z.of_nat (length x)) /\
       compressed_frame
         (with_input (vitemap_create (Z.of_nat (length x)))
            (x ++ repeat Byte.x00
                    (Z.to_nat (32 * ceil32 (Z.of_nat (length x))) -
                     length x)))
         (Z.of_nat (length x)) = Some frame) /\
    (~ ready -> code = 1 /\ written = None).
Proof.
  intros Hmalloc Hsize Hmode ready. unfold main.
  assert (Hfail : ~ ready ->
            exists code written,
              Some (1, @None (list byte * list byte)) = Some (code, written) /\
              (ready -> code = 0 /\
                 exists x frame,
                   fopen_rb w (nth 1 argv []) = Some x /\
                   written = Some (nth 2 argv [], frame) /\
                   load_u32 frame 0 = Some (Z.of_nat (length x)) /\
                   compressed_frame
                     (with_input (vitemap_create (Z.of_nat (length x)))
                        (x ++ repeat Byte.x00
                           (Z.to_nat (32 * ceil32 (Z.of_nat (length x))) -
                            length x)))
                     (Z.of_nat (length x)) = Some frame) /\
              (~ ready -> code = 1 /\ written = None)).
  { intros Hn. exists 1, None. split; [reflexivity|].
    split; [intros Hr; now contradiction Hn | auto]. }
  destruct (Nat.eqb_spec (length argv) 4) as [Hargc|Hargc]; cbn [negb].
  2:{ apply Hfail. intros (H & _). contradiction. }
  destruct (fopen_rb w (nth 1 argv [])) as [x|] eqn:Hsrc.
  2:{ apply Hfail. intros (_ & (x & Hx & _) & _). discriminate. }
  cbv zeta.
  destruct (malloc w (Z.of_nat (length x))) as [block|] eqn:Hblock.
  2:{ apply Hfail. intros (_ & (x' & Hx & Hne) & _).
      apply some_inj in Hx. subst x'. now contradiction Hne. }
  rewrite store_whole by (rewrite (Hmalloc _ _ Hblock); lia).
  destruct (Byte.eqb (hd Byte.x00 (nth 3 argv [])) Byte.x63) eqn:Hc.
  2:{ destruct (Byte.eqb (hd Byte.x00 (nth 3 argv [])) Byte.x64) eqn:Hd.
      - apply byte_eqb_eq in Hd. contradiction.
      - apply Hfail. intros (_ & _ & Hm & _). rewrite Hm in Hc.
        discriminate. }
  apply byte_eqb_eq in Hc.
  destruct (calloc_ok w) eqn:Hcal.
  2:{ apply Hfail. intros (_ & _ & _ & H & _). discriminate. }
  pose proof (Hsize x eq_refl) as Hx.
  destruct (caller_context x Hx) as (Hcpy & Hwf & Hlp).
  destruct (caller_roundtrip x Hx)
    as (vm' & recs & Hrun & Hle & Hload & _ & _ & _).
  set (N := Z.of_nat (length x)) in *.
  pose proof (ceil32_bounds N ltac:(lia)) as Hb.
  assert (Hu : u32 N = N) by (apply u32_small; lia).
  rewrite Hu in *. rewrite Hcpy, Hrun.
  destruct (fopen_wb w (nth 2 argv [])) eqn:Hdst.
  2:{ apply Hfail. intros (_ & _ & _ & _ & H). discriminate. }
  replace (Z.to_nat (4 + Z.of_nat (length recs)))
    with (4 + length recs)%nat by lia.
  rewrite Hload.
  exists 0, (Some (nth 2 argv [], le_split 4 N ++ recs)).
  split; [reflexivity|]. split.
  - intros _. split; [reflexivity|].
    exists x, (le_split 4 N ++ recs).
    split; [reflexivity|]. split; [reflexivity|]. split.
    + fold N. unfold load_u32.
      pose proof (load_app_skip [] (le_split 4 N) recs) as H.
      rewrite length_le_split in H. cbn [length app] in H. rewrite H.
      rewrite le_combine_split. f_equal. apply Z.mod_small.
      change (Z.of_nat 4 * 8) with 32. lia.
    + fold N. unfold compressed_frame. rewrite Hrun. unfold frame_of.
      cbn [fst snd]. f_equal.
      replace (Z.to_nat (4 + Z.of_nat (length recs)))
        with (4 + length recs)%nat by lia.
      apply load_inv in Hload as (_ & -> & _). reflexivity.
  - intros Hn. contradiction Hn. unfold ready.
    split; [exact Hargc|]. split.
    + exists x. split; [reflexivity|]. fold N. rewrite Hblock. discriminate.
    + auto.
Qed.

(** ** The theorems at concrete inputs *)

Ltac wf_by_computation :=
  split; vm_compute; first [reflexivity | discriminate].

(** The classifier rule on the sample context. *)
Lemma classifier_partition_witness :
  wf_vitemap sample_context /\
  exists vm' sz,
    vitemap_compress sample_context 100 = Some (vm', sz) /\
    frame_of (vm', sz) =
      le_split 4 100 ++ flat_map chunk_record (chunks_in sample_context).
Proof.
  assert (Hwf : wf_vitemap sample_context) by wf_by_computation.
  split; [exact Hwf|].
  destruct (classifier_partition sample_context 100 Hwf)
    as (vm' & sz & Hrun & Hframe & _).
  exists vm', sz. split; assumption.
Defined.

(** The size bound on the sample context. *)
Lemma chunk_record_bound_witness :
  wf_vitemap sample_context /\
  exists vm' sz,
    vitemap_compress sample_context 100 = Some (vm', sz) /\
    forall c, In c (chunks_in sample_context) ->
              (length (chunk_record c) <= 33)%nat.
Proof.
  assert (Hwf : wf_vitemap sample_context) by wf_by_computation.
  split; [exact Hwf|].
  destruct (chunk_record_bound sample_context 100 Hwf)
    as (vm' & sz & Hrun & _ & Hall).
  exists vm', sz. split; [assumption|].
  intros c Hin. destruct (Hall c Hin) as (h & payload & _ & _ & _ & Hle).
  exact Hle.
Defined.

(** The sparse payloads of the sample context. *)
Lemma sparse_payload_positions_witness :
  wf_vitemap sample_context /\
  compressed_frame (context_with 32 single_bit_input) 32 =
    Some (bytes [0x20; 0x00; 0x00; 0x00; 0x01; 0x7C]).
Proof.
  assert (Hwf : wf_vitemap sample_context) by wf_by_computation.
  split; [exact Hwf|].
  exact (proj2 (sparse_payload_positions sample_context 100 Hwf)).
Defined.

(** A one-chunk context asked to compress 33 bytes. *)
Lemma compress_oversize_not_rejected_witness :
  wf_vitemap (vitemap_create 32) /\
  max_size (vitemap_create 32) < 33 /\
  exists vm' sz,
    vitemap_compress (vitemap_create 32) 33 = Some (vm', sz) /\
    input vm' = input (vitemap_create 32).
Proof.
  assert (Hwf : wf_vitemap (vitemap_create 32)) by wf_by_computation.
  assert (Hlt : max_size (vitemap_create 32) < 33)
    by (vm_compute; reflexivity).
  split; [exact Hwf|]. split; [exact Hlt|].
  destruct (compress_oversize_not_rejected (vitemap_create 32) 33 Hwf Hlt)
    as (vm' & sz & Hrun & _ & _ & Hin & _).
  exists vm', sz. split; assumption.
Defined.

(** The prefix of the frame of the sample context, declared size 100. *)
Lemma size_prefix_and_peek_witness :
  wf_vitemap sample_context /\
  0 <= 100 <= max_size sample_context /\
  exists vm' sz,
    vitemap_compress sample_context 100 = Some (vm', sz) /\
    load_u32 (frame_of (vm', sz)) 0 = Some 100 /\
    vitemap_extract_decompressed_sizes (frame_of (vm', sz)) =
      Some (100, 128).
Proof.
  assert (Hwf : wf_vitemap sample_context) by wf_by_computation.
  assert (HN : 0 <= 100 <= max_size sample_context)
    by (split; vm_compute; discriminate).
  split; [exact Hwf|]. split; [exact HN|].
  destruct (size_prefix_and_peek sample_context 100 HN) as (H & _).
  destruct (H Hwf) as (vm' & sz & Hrun & Hpre & Hpeek).
  exists vm', sz.
  split; [exact Hrun | split; [exact Hpre | exact Hpeek]].
Defined.

(** The reserved category on the stream 00 00 00 00 C0. *)
Lemma reserved_category_skipped_witness :
  decompress_loop 1 (bytes [0x00; 0x00; 0x00; 0x00; 0xC0]) 5 4
    (repeat Byte.xff 32) 0 =
  decompress_loop 0 (bytes [0x00; 0x00; 0x00; 0x00; 0xC0]) 5
    (4 + 1 + Z.to_nat (header_length Byte.xc0)) (repeat Byte.xff 32) (0 + 32).
Proof.
  apply (reserved_category_skipped 0
           (bytes [0x00; 0x00; 0x00; 0x00; 0xC0]) 5 4 Byte.xc0
           (repeat Byte.xff 32) 0).
  - vm_compute. lia.
  - vm_compute. reflexivity.
  - vm_compute. reflexivity.
Defined.

(** Both decodings of the payload 07 F8 (positions 7 and 248). *)
Lemma inversion_commutes_witness :
  exists c0,
    length c0 = 32%nat /\
    decompress_bucket (bytes [0x00; 0x00; 0x00; 0x00; 0x02; 0x07; 0xF8]) 4
      (repeat Byte.x00 32) 0 =
      Some ((4 + 1 + 2)%nat, firstn 0 (repeat Byte.x00 32) ++ c0 ++
                             skipn (0 + 32) (repeat Byte.x00 32)) /\
    decompress_bucket (bytes [0x00; 0x00; 0x00; 0x00; 0x42; 0x07; 0xF8]) 4
      (repeat Byte.x00 32) 0 =
      Some ((4 + 1 + 2)%nat, firstn 0 (repeat Byte.x00 32) ++ chunk_not c0 ++
                             skipn (0 + 32) (repeat Byte.x00 32)).
Proof.
  destruct (inversion_commutes
              (bytes [0x00; 0x00; 0x00; 0x00; 0x02; 0x07; 0xF8])
              (bytes [0x00; 0x00; 0x00; 0x00; 0x42; 0x07; 0xF8])
              4 (bytes [0x07; 0xF8]) (repeat Byte.x00 32) 0)
    as (c0 & Hlen & _ & H0 & H1).
  - vm_compute. lia.
  - vm_compute. reflexivity.
  - vm_compute. reflexivity.
  - vm_compute. lia.
  - exists c0. split; [exact Hlen | split; [exact H0 | exact H1]].
Defined.

(** The round trip of the sample context into a 128-byte buffer. *)
Lemma roundtrip_exact_context_witness :
  exists vm' sz,
    vitemap_compress sample_context (Z.of_nat (length sample_input))
      = Some (vm', sz) /\
    vitemap_decompress (output vm') sz (repeat Byte.xff 128) =
      Some (sample_input ++ repeat Byte.x00 28, 128%nat).
Proof.
  assert (Hwf : wf_vitemap sample_context) by wf_by_computation.
  destruct (roundtrip_exact_context sample_context sample_input
              (repeat Byte.xff 128) Hwf)
    as (vm' & sz & Hrun & Hdec).
  - vm_compute. reflexivity.
  - vm_compute. reflexivity.
  - vm_compute. lia.
  - exists vm', sz. split; [exact Hrun|].
    rewrite Hdec. vm_compute. reflexivity.
Defined.

(** ** The further properties at concrete inputs *)

Lemma sample_world_memory : plenty_of_memory sample_world.
Proof.
  split; [reflexivity|]. intros n. eexists. split; [reflexivity|].
  apply repeat_length.
Qed.

(** Compaction of the single-bit chunk into a 70-byte buffer, from
    offset 1. *)
Lemma extract_and_compact_256_effect_witness :
  extract_and_compact_256 single_bit_input 0 (repeat Byte.xff 70) 1 =
  Some (bytes [0xFF; 0x7C] ++ repeat Byte.x00 64 ++ repeat Byte.xff 4).
Proof.
  rewrite (extract_and_compact_256_effect single_bit_input 0
             single_bit_input (repeat Byte.xff 70) 1).
  - vm_compute. reflexivity.
  - vm_compute. reflexivity.
Defined.

(** The payloads 07 F8 07 and F8 07 scatter to the same chunk. *)
Lemma expand_and_scatter_256_bits_witness :
  exists c,
    length c = 32%nat /\
    expand_and_scatter_256 (bytes [0x07; 0xF8; 0x07]) 0 3
      (repeat Byte.xff 32) 0 = Some c /\
    expand_and_scatter_256 (bytes [0xF8; 0x07]) 0 2
      (repeat Byte.xff 32) 0 = Some c.
Proof.
  destruct (expand_and_scatter_256_bits (bytes [0x07; 0xF8; 0x07]) 0
              (bytes [0x07; 0xF8; 0x07]) (repeat Byte.xff 32) 0)
    as (c & Hlen & _ & Hrun & Hsame).
  - vm_compute. reflexivity.
  - exists c. split; [exact Hlen|].
    assert (Hc : expand_and_scatter_256 (bytes [0x07; 0xF8; 0x07]) 0 3
                   (repeat Byte.xff 32) 0 = Some c).
    { etransitivity; [exact Hrun|].
      change (Some ([] ++ c ++ []) = Some c). now rewrite app_nil_r. }
    split; [exact Hc|].
    etransitivity; [|exact Hc].
    apply (Hsame (bytes [0xF8; 0x07]) 0%nat (bytes [0xF8; 0x07])).
    + vm_compute. reflexivity.
    + intros q. cbn. intuition congruence.
Defined.

(** The raw chunk of the sample input, compacted and scattered back. *)
Lemma extract_then_scatter_roundtrip_witness :
  exists mid',
    extract_and_compact_256 sample_input 32 (repeat Byte.xff 200) 3
      = Some mid' /\
    expand_and_scatter_256 mid' 3
      (Z.to_nat (popcount (repeat Byte.xaa 32))) (repeat Byte.x00 40) 8 =
    Some (repeat Byte.x00 8 ++ repeat Byte.xaa 32).
Proof.
  destruct (extract_then_scatter_roundtrip sample_input 32
              (repeat Byte.xaa 32) (repeat Byte.xff 200) 3
              (repeat Byte.x00 40) 8)
    as (mid' & Hrun & Hback).
  - vm_compute. reflexivity.
  - vm_compute. lia.
  - vm_compute. lia.
  - exists mid'. split; [exact Hrun|]. rewrite Hback. vm_compute. reflexivity.
Defined.

(** The complement of the single-bit chunk. *)
Lemma invert_256_complement_witness :
  invert_256 sample_input 64 (repeat Byte.xaa 32) 0 =
    Some (repeat Byte.xff 15 ++ [Byte.xef] ++ repeat Byte.xff 16) /\
  popcount (chunk_not single_bit_input) = 255.
Proof.
  destruct (invert_256_complement sample_input 64 single_bit_input
              (repeat Byte.xaa 32) 0) as (Hrun & _ & Hpop & _).
  - vm_compute. reflexivity.
  - vm_compute. lia.
  - split; [rewrite Hrun; vm_compute; reflexivity|].
    rewrite Hpop. vm_compute. reflexivity.
Defined.

(** A context for 100 bytes has 4 buckets and room for 128 bytes. *)
Lemma vitemap_create_rounds_up_witness :
  num_buckets (vitemap_create 100) = 4 /\
  max_size (vitemap_create 100) = 128.
Proof.
  destruct (vitemap_create_rounds_up 100) as (Hnb & Hms & _).
  - split; vm_compute; discriminate.
  - split; [rewrite Hnb | rewrite Hms]; vm_compute; reflexivity.
Defined.

(** A context for [2 ^ 31] bytes. *)
Lemma vitemap_create_capacity_wraps_witness :
  length (output (vitemap_create (2 ^ 31))) = 36%nat /\
  vitemap_compress (with_input (vitemap_create (2 ^ 31)) []) 0 = None.
Proof.
  destruct (vitemap_create_capacity_wraps (2 ^ 31) [] 0)
    as (_ & _ & _ & Hlen & _ & Hrun).
  - split; [vm_compute; reflexivity | vm_compute; discriminate].
  - split; [exact Hlen | exact Hrun].
Defined.

(** The size returned for the sample context. *)
Lemma compressed_size_bounds_witness :
  exists vm' sz,
    vitemap_compress sample_context 100 = Some (vm', sz) /\
    sz <= max_compressed_size sample_context.
Proof.
  assert (Hwf : wf_vitemap sample_context) by wf_by_computation.
  destruct (compressed_size_bounds sample_context 100 Hwf)
    as (vm' & sz & Hrun & _ & Hle & _).
  exists vm', sz. split; [exact Hrun | exact Hle].
Defined.

(** A fresh context for 100 bytes compresses to 64 00 00 00 and four
    zero bytes. *)
Lemma uniform_bitmap_frame_witness :
  compressed_frame (vitemap_create 100) 100 =
    Some (bytes [0x64; 0x00; 0x00; 0x00; 0x00; 0x00; 0x00; 0x00]).
Proof.
  rewrite (proj1 (uniform_bitmap_frame 100 100
                    ltac:(split; vm_compute; discriminate))).
  vm_compute. reflexivity.
Defined.

(** The complement of the single-bit chunk compresses to header 0x41 and
    position 7C. *)
Lemma complement_flips_category_witness :
  compressed_frame (context_with 32 (chunk_not single_bit_input)) 32 =
    Some (bytes [0x20; 0x00; 0x00; 0x00; 0x41; 0x7C]).
Proof.
  destruct (complement_flips_category single_bit_input) as (_ & H).
  - vm_compute. reflexivity.
  - vm_compute. reflexivity.
  - rewrite H. vm_compute. reflexivity.
Defined.

(** The sample input in a context created for 100 bytes and in one
    created for 128 bytes: the same frame, so the same input buffer. *)
Lemma compress_injective_witness :
  input sample_context =
  input (context_with 128 (sample_input ++ repeat Byte.x00 28)).
Proof.
  assert (Hwf : wf_vitemap sample_context) by wf_by_computation.
  assert (Hwf' : wf_vitemap
                   (context_with 128 (sample_input ++ repeat Byte.x00 28)))
    by wf_by_computation.
  apply (compress_injective sample_context
           (context_with 128 (sample_input ++ repeat Byte.x00 28))
           100 100 Hwf Hwf').
  - split; vm_compute; [discriminate | reflexivity].
  - split; vm_compute; [discriminate | reflexivity].
  - vm_compute. reflexivity.
Defined.

(** The sample context, fresh and after a first compression. *)
Lemma compress_ignores_stale_buffers_witness :
  output sample_context <> output used_sample_context /\
  compressed_frame sample_context 7 = compressed_frame used_sample_context 7.
Proof.
  split.
  - intros H. apply (f_equal (fun l => hd Byte.x00 l)) in H.
    vm_compute in H. discriminate H.
  - assert (Hwf : wf_vitemap sample_context) by wf_by_computation.
    assert (Hwf' : wf_vitemap used_sample_context) by wf_by_computation.
    apply (compress_ignores_stale_buffers sample_context used_sample_context
             7 Hwf Hwf').
    vm_compute. reflexivity.
Defined.

(** The stream 01 7C behind two different prefixes. *)
Lemma decompress_ignores_prefix_witness :
  vitemap_decompress (bytes [0x00; 0x00; 0x00; 0x00] ++ bytes [0x01; 0x7C]) 6
    (repeat Byte.xff 32) =
  vitemap_decompress (bytes [0x01; 0x02; 0x03; 0x04] ++ bytes [0x01; 0x7C]) 6
    (repeat Byte.xff 32).
Proof.
  apply (decompress_ignores_prefix (bytes [0x00; 0x00; 0x00; 0x00])
           (bytes [0x01; 0x02; 0x03; 0x04]) (bytes [0x01; 0x7C]) 6
           (repeat Byte.xff 32)); reflexivity.
Defined.

(** A reserved record, then a sparse one, decoded into a 64-byte buffer:
    the first slot stays, the second holds the single-bit chunk. *)
Lemma decompress_writes_whole_slots_witness :
  vitemap_decompress (bytes [0x00; 0x00; 0x00; 0x00; 0xC0; 0x01; 0x7C]) 7
    (repeat Byte.xff 64) =
    Some (repeat Byte.xff 32 ++ single_bit_input, 64%nat) /\
  record_offsets 7 (bytes [0x00; 0x00; 0x00; 0x00; 0xC0; 0x01; 0x7C]) 7 4 =
    [4; 5]%nat /\
  record_decoded (bytes [0x00; 0x00; 0x00; 0x00; 0xC0; 0x01; 0x7C]) 4
    (repeat Byte.xff 32) (repeat Byte.xff 32) /\
  record_decoded (bytes [0x00; 0x00; 0x00; 0x00; 0xC0; 0x01; 0x7C]) 5
    (repeat Byte.xff 32) single_bit_input.
Proof.
  assert (Hrun : vitemap_decompress
                   (bytes [0x00; 0x00; 0x00; 0x00; 0xC0; 0x01; 0x7C]) 7
                   (repeat Byte.xff 64) =
                 Some (repeat Byte.xff 32 ++ single_bit_input, 64%nat))
    by (vm_compute; reflexivity).
  destruct (decompress_writes_whole_slots
              (bytes [0x00; 0x00; 0x00; 0x00; 0xC0; 0x01; 0x7C]) 7
              (repeat Byte.xff 64)) as (_ & _ & H).
  destruct (H _ _ Hrun) as (_ & _ & _ & _ & _ & Hslots).
  split; [exact Hrun|]. split; [vm_compute; reflexivity|].
  split; [exact (Hslots 0%nat 4%nat eq_refl)
         | exact (Hslots 1%nat 5%nat eq_refl)].
Defined.

(** A raw record with the declared size ending after its header. *)
Lemma decompress_reads_past_declared_end_witness :
  vitemap_decompress
    (bytes [0x20; 0x00; 0x00; 0x00] ++ chunk_record (repeat Byte.xaa 32) ++ [])
    5 (repeat Byte.x00 32) =
  Some (repeat Byte.xaa 32 ++ skipn 32 (repeat Byte.x00 32), 32%nat).
Proof.
  apply (decompress_reads_past_declared_end (bytes [0x20; 0x00; 0x00; 0x00])
           (repeat Byte.xaa 32) [] 5 (repeat Byte.x00 32)).
  - reflexivity.
  - reflexivity.
  - vm_compute. lia.
  - split; vm_compute; [reflexivity | discriminate].
Defined.

(** From 1.999999999 s to 3.000000005 s. *)
Lemma calculate_time_diff_total_witness :
  calculate_time_diff (mkTimespec 1 999999999) (mkTimespec 3 5) =
    Some 1000000006.
Proof.
  rewrite (proj1 (calculate_time_diff_total (mkTimespec 1 999999999)
                    (mkTimespec 3 5)
                    ltac:(repeat split; vm_compute; congruence)
                    ltac:(repeat split; vm_compute; congruence))).
  vm_compute. reflexivity.
Defined.

(** The benchmark on the sample input: a frame of 46 bytes. *)
Lemma benchmark_vitemap_verifies_witness :
  exists r,
    benchmark_vitemap sample_world (mkTimespec 0 0) (mkTimespec 0 10)
      (mkTimespec 0 20) (mkTimespec 0 25) sample_input
      (Z.of_nat (length sample_input)) = Some r /\
    verified r = 1 /\ length_ r = 46.
Proof.
  destruct (benchmark_vitemap_verifies sample_world (mkTimespec 0 0)
              (mkTimespec 0 10) (mkTimespec 0 20) (mkTimespec 0 25)
              sample_input) as (r & vm' & Hrun & Hv & _ & Hlen & _).
  - vm_compute. discriminate.
  - exact sample_world_memory.
  - repeat split; vm_compute; congruence.
  - repeat split; vm_compute; congruence.
  - repeat split; vm_compute; congruence.
  - repeat split; vm_compute; congruence.
  - exists r. split; [exact Hrun|]. split; [exact Hv|].
    rewrite Hlen. vm_compute. reflexivity.
Defined.

(** The tool in mode c on the file a of the sample world, writing b. *)
Lemma cli_roundtrip_witness :
  exists f,
    main sample_world [[Byte.x76]; [Byte.x61]; [Byte.x62]; [Byte.x63]] =
      Some (0, Some ([Byte.x62], f)).
Proof.
  destruct (cli_roundtrip sample_world sample_world [Byte.x76] [Byte.x76]
              [Byte.x61] [Byte.x62] [Byte.x63] [] [] sample_input)
    as (f & Hc & _).
  - vm_compute. discriminate.
  - exact sample_world_memory.
  - exact sample_world_memory.
  - reflexivity.
  - reflexivity.
  - reflexivity.
  - exists f. exact Hc.
Defined.

(** The tool in mode d on a two-byte file. *)
Lemma cli_decompress_short_file_witness :
  main short_file_world [[Byte.x76]; [Byte.x61]; [Byte.x62]; [Byte.x64]] =
    None.
Proof.
  apply (cli_decompress_short_file short_file_world [Byte.x76] [Byte.x61]
           [Byte.x62] [] [Byte.x01; Byte.x02] (repeat Byte.xaa 2)).
  - reflexivity.
  - vm_compute. lia.
  - reflexivity.
  - reflexivity.
Defined.

(** The tool in mode c on the file a of the sample world, writing b. *)
Lemma cli_exit_status_witness :
  exists frame,
    main sample_world [[]; [Byte.x61]; [Byte.x62]; [Byte.x63]] =
      Some (0, Some ([Byte.x62], frame)) /\
    load_u32 frame 0 = Some 100.
Proof.
  destruct (cli_exit_status sample_world
              [[]; [Byte.x61]; [Byte.x62]; [Byte.x63]])
    as (code & written & Hrun & Hok & _).
  - intros n block [= <-]. apply repeat_length.
  - intros x [= <-]. vm_compute. discriminate.
  - vm_compute. discriminate.
  - destruct Hok as (-> & x & frame & Hx & -> & Hpre & _).
    + split; [reflexivity|]. split; [|repeat split].
      exists sample_input. split; [reflexivity | discriminate].
    + exists frame. split; [exact Hrun|].
      apply some_inj in Hx. subst x. exact Hpre.
Defined.
